(** * ollama-chat: hashtag pipeline and streaming response assembler

    A shallow embedding of
      - [src/utils/tag-utils.js]           (tag reuse resolver),
      - [src/services/hashtag-service.js]  (exclusion filter, normalizer,
                                            entity extractor),
      - the streaming branch of the completion service
        (the [response.data.on('data')] handler and
        [processCompletedResponse]),
    together with the properties of these functions.

    Conventions of the embedding.
      - A JavaScript string is a [string]; one [ascii] stands for one code
        unit, so the model covers text whose code units are below 256
        (Latin-1).  White space, digits, word characters and case mapping
        are those of ECMAScript restricted to that range.
      - A JavaScript object used as a dictionary is a [gmap string _], a
        [Set] of strings a [gset string]; what the prototype chain adds to
        a lookup is written out where the code looks a key up.
      - A call that may raise returns a [completion]; an awaited promise
        that rejects is a [Throws] as well.
      - The database is a record of what each query answers. *)

From Stdlib Require Import Ascii String.
From stdpp Require Import base option list strings gmap.

(** ** Completions: a value or an exception *)

Inductive completion (A : Type) : Type :=
| Returns (a : A)
| Throws.
Arguments Returns {A} a.
Arguments Throws {A}.

Definition cbind {A B} (m : completion A) (k : A → completion B) : completion B :=
  match m with
  | Returns a => k a
  | Throws => Throws
  end.

#[global] Instance completion_ret : MRet completion := @Returns.
#[global] Instance completion_bind : MBind completion := λ A B k m, cbind m k.

(** [try m catch h] *)
Definition try_catch {A} (m : completion A) (h : completion A) : completion A :=
  match m with
  | Returns a => Returns a
  | Throws => h
  end.

Fixpoint cmapM {A B} (f : A → completion B) (l : list A) : completion (list B) :=
  match l with
  | [] => Returns []
  | x :: r => y ← f x; ys ← cmapM f r; Returns (y :: ys)
  end.

(** ** Characters and strings *)

Module JsString.

(** [WhiteSpace] and [LineTerminator] code units below 256: TAB, LF, VT,
    FF, CR, SP and NBSP.  This is the class of [\s] and of [trim]. *)
Definition is_space (c : ascii) : bool :=
  match c with
  | "009" | "010" | "011" | "012" | "013" | " " | "160" => true
  | _ => false
  end%char.

(** [\d] *)
Definition is_digit (c : ascii) : bool :=
  let n := nat_of_ascii c in (48 <=? n)%nat && (n <=? 57)%nat.

Definition is_upper (c : ascii) : bool :=
  let n := nat_of_ascii c in (65 <=? n)%nat && (n <=? 90)%nat.

Definition is_lower (c : ascii) : bool :=
  let n := nat_of_ascii c in (97 <=? n)%nat && (n <=? 122)%nat.

(** [[a-zA-Z0-9]] *)
Definition is_alnum (c : ascii) : bool :=
  is_digit c || is_upper c || is_lower c.

(** [\w] *)
Definition is_word (c : ascii) : bool :=
  is_alnum c || Ascii.eqb c "_".

(** [[a-zA-Z0-9_-]] *)
Definition is_tag_char (c : ascii) : bool :=
  is_word c || Ascii.eqb c "-".

(** [toLowerCase] on one code unit: A-Z, and the Latin-1 capitals
    U+00C0..U+00DE except the multiplication sign U+00D7. *)
Definition lower_char (c : ascii) : ascii :=
  let n := nat_of_ascii c in
  if (65 <=? n)%nat && (n <=? 90)%nat then ascii_of_nat (n + 32)
  else if (192 <=? n)%nat && (n <=? 222)%nat && negb (n =? 215)%nat
       then ascii_of_nat (n + 32)
  else c.

Fixpoint toLowerCase (s : string) : string :=
  match s with
  | EmptyString => EmptyString
  | String c r => String (lower_char c) (toLowerCase r)
  end.

Fixpoint trimStart (s : string) : string :=
  match s with
  | String c r => if is_space c then trimStart r else s
  | EmptyString => EmptyString
  end.

Fixpoint trimEnd (s : string) : string :=
  match s with
  | EmptyString => EmptyString
  | String c r =>
      match trimEnd r with
      | EmptyString => if is_space c then EmptyString else String c EmptyString
      | r' => String c r'
      end
  end.

Definition trim (s : string) : string := trimEnd (trimStart s).

(** [s.startsWith('#')] *)
Definition startsWith_hash (s : string) : bool :=
  match s with
  | String c _ => Ascii.eqb c "#"
  | EmptyString => false
  end.

(** [s.replace(/^#/, '')] *)
Definition strip_hash (s : string) : string :=
  match s with
  | String c r => if Ascii.eqb c "#" then r else s
  | EmptyString => EmptyString
  end.

(** [s.replace(/^#+/, '')] *)
Fixpoint strip_hashes (s : string) : string :=
  match s with
  | String c r => if Ascii.eqb c "#" then strip_hashes r else s
  | EmptyString => EmptyString
  end.

Definition is_empty (s : string) : bool :=
  match s with
  | EmptyString => true
  | _ => false
  end.

(** [/^\d+$/.test(s)] *)
Fixpoint all_digits (s : string) : bool :=
  match s with
  | EmptyString => true
  | String c r => is_digit c && all_digits r
  end.

Definition is_numeric (s : string) : bool :=
  negb (is_empty s) && all_digits s.

(** every character of [s] satisfies [P] *)
Fixpoint every (P : ascii → bool) (s : string) : bool :=
  match s with
  | EmptyString => true
  | String c r => P c && every P r
  end.

(** [a.includes(s)] on an array of strings *)
Definition includes (a : list string) (s : string) : bool :=
  existsb (String.eqb s) a.

End JsString.

Import JsString.

(** ** JavaScript data values

    The values that reach the hashtag code: what a socket payload or a
    parsed JSON body can hold, and [undefined].  A number is kept as the
    text [String(n)] gives for it (["0"] for both zeros, ["NaN"], ["42"],
    ["1.5"]): the code only tests numbers for truth and converts them to
    text.  The property list of an object is in enumeration order (the
    order of [Object.values]) and names each own property once. *)

#[local] Unset Elimination Schemes.
Inductive JSValue : Type :=
| VUndefined
| VNull
| VBool (b : bool)
| VNum (render : string)
| VStr (s : string)
| VArr (items : list JSValue)
| VObj (props : list (string * JSValue)).
#[local] Set Elimination Schemes.

Module Js.

(** [ToBoolean] *)
Definition truthy (v : JSValue) : bool :=
  match v with
  | VUndefined | VNull => false
  | VBool b => b
  | VNum r => negb (String.eqb r "0") && negb (String.eqb r "NaN")
  | VStr s => negb (is_empty s)
  | VArr _ | VObj _ => true
  end.

(** own property [name] of a property list *)
Fixpoint own (props : list (string * JSValue)) (name : string) : option JSValue :=
  match props with
  | [] => None
  | (k, v) :: r => if String.eqb k name then Some v else own r name
  end.

(** [v.name] for a truthy [v] whose [typeof] is ['object'].  An array
    has no property of that name, and [Object.prototype] has none
    either. *)
Definition get_name (v : JSValue) : JSValue :=
  match v with
  | VObj props => default VUndefined (own props "name")
  | _ => VUndefined
  end.

(** [v.trim()] where [v] is the value of a property: only a string has
    the method, calling it on anything else is a TypeError. *)
Definition call_trim (v : JSValue) : completion string :=
  match v with
  | VStr s => Returns (trim s)
  | _ => Throws
  end.

(** [String(v)], which is also what a template literal does.  An
    object converts through [Object.prototype.toString] unless it has an
    own property [toString]; that one holds data, is not callable, and
    the conversion raises a TypeError.  An array joins its elements with
    commas, [null] and [undefined] elements as the empty string. *)
Fixpoint toString (v : JSValue) : completion string :=
  match v with
  | VUndefined => Returns "undefined"%string
  | VNull => Returns "null"%string
  | VBool true => Returns "true"%string
  | VBool false => Returns "false"%string
  | VNum r => Returns r
  | VStr s => Returns s
  | VArr items =>
      let item (x : JSValue) : completion string :=
        match x with
        | VUndefined | VNull => Returns EmptyString
        | _ => toString x
        end in
      (fix join (l : list JSValue) : completion string :=
         match l with
         | [] => Returns EmptyString
         | [x] => item x
         | x :: r => a ← item x; b ← join r; Returns (a +:+ "," +:+ b)
         end) items
  | VObj props =>
      match own props "toString" with
      | Some _ => Throws
      | None => Returns "[object Object]"%string
      end
  end.

(** [Object.values(v)] of a plain object *)
Definition values (props : list (string * JSValue)) : list JSValue :=
  snd <$> props.

End Js.

(** ** The database, as the hashtag code sees it

    What each query answers when it is awaited: the rows, or a rejection.
    Both tables declare their text columns [NOT NULL], so a row holds
    strings. *)

Record Database : Type := {
  (** [SELECT tag_name FROM blocked_tags] *)
  blocked_tags : completion (list string);
  (** [SELECT original_tag, better_tag FROM tag_synonyms] *)
  tag_synonyms : completion (list (string * string));
  (** [db.getBlockedTags()], which answers [[]] when its own query fails *)
  getBlockedTags : list string
}.

(** ** [src/utils/tag-utils.js] *)

Module TagUtils.

(** [cleanTag.startsWith('#') ? cleanTag : `#${cleanTag}`] *)
Definition ensure_hash (cleanTag : string) : string :=
  if startsWith_hash cleanTag then cleanTag else "#" +:+ cleanTag.

(** The callback of [hashtags.map] in the [try] block. *)
Definition normalize_tag (tag : JSValue) : completion string :=
  match tag with
  | VStr s => Returns (ensure_hash (trim s))
  | VArr _ | VObj _ =>
      if Js.truthy (Js.get_name tag)
      then cleanTag ← Js.call_trim (Js.get_name tag); Returns (ensure_hash cleanTag)
      else s ← Js.toString tag; Returns ("#" +:+ trim s)
  | _ => s ← Js.toString tag; Returns ("#" +:+ trim s)
  end.

(** [.filter(tag => tag.length > 1)] *)
Definition longer_than_1 (tag : string) : bool :=
  (1 <? String.length tag)%nat.

Definition normalizedTags (hashtags : list JSValue) : completion (list string) :=
  tags ← cmapM normalize_tag hashtags; Returns (filter longer_than_1 tags).

(** The callback of [hashtags.map] in the [catch] block. *)
Definition normalize_tag_fallback (tag : JSValue) : completion string :=
  match tag with
  | VStr s => Returns (ensure_hash (trim s))
  | _ => s ← Js.toString tag; Returns ("#" +:+ trim s)
  end.

Definition fallbackTags (hashtags : list JSValue) : completion (list string) :=
  tags ← cmapM normalize_tag_fallback hashtags; Returns (filter longer_than_1 tags).

(** [blockedTagsResults.map(row => row.tag_name.toLowerCase())] *)
Definition blockedTags (rows : list string) : list string :=
  toLowerCase <$> rows.

(** The object [tagSynonyms] after the [forEach]: a later row with the
    same lower-cased key overwrites an earlier one.  Assigning a string
    to the key [__proto__] of an ordinary object goes to the prototype
    setter, which ignores a value that is not an object: no property is
    created. *)
Definition tagSynonyms (rows : list (string * string)) : gmap string string :=
  foldl (λ (m : gmap string string) row,
           let key := toLowerCase row.1 in
           if String.eqb key "__proto__" then m else <[key := row.2]> m)
        ∅ rows.

(** [tagSynonyms[cleanTag]] when it is truthy, as the text the template
    literal makes of it.  An own property is a [better_tag]; it is falsy
    when empty.  Without an own property the lookup reaches
    [Object.prototype], which answers for two lower-case names: the
    function [Object] for [constructor] and itself for [__proto__]. *)
Definition synonym_of (syn : gmap string string) (cleanTag : string) : option string :=
  match syn !! cleanTag with
  | Some better => if is_empty better then None else Some better
  | None =>
      if String.eqb cleanTag "constructor"
      then Some "function Object() { [native code] }"%string
      else if String.eqb cleanTag "__proto__"
      then Some "[object Object]"%string
      else None
  end.

(** [tag.replace(/^#/, '').trim().toLowerCase()] *)
Definition cleanTag_of (tag : string) : string :=
  toLowerCase (trim (strip_hash tag)).

(** One turn of [for (const tag of normalizedTags)]; the state is
    [(processedTags, seenTags)]. *)
Definition resolve_step (blocked : list string) (syn : gmap string string)
    (st : list string * gset string) (tag : string) : list string * gset string :=
  let cleanTag := cleanTag_of tag in
  if includes blocked cleanTag then st
  else
    let bestTag := default cleanTag (synonym_of syn cleanTag) in
    let formattedTag := "#" +:+ bestTag in
    if bool_decide (toLowerCase formattedTag ∈ st.2) then st
    else (st.1 ++ [formattedTag], {[toLowerCase formattedTag]} ∪ st.2).

Definition resolve_loop (blocked : list string) (syn : gmap string string)
    (tags : list string) : list string :=
  (foldl (resolve_step blocked syn) ([], ∅) tags).1.

(** [if (processedTags.length === 0 && normalizedTags.length > 0)
      processedTags.push('#conversation')] *)
Definition add_default (processedTags normalized : list string) : list string :=
  if (length processedTags =? 0)%nat && (0 <? length normalized)%nat
  then processedTags ++ ["#conversation"%string]
  else processedTags.

(** The body of the [try] block. *)
Definition resolve (db : Database) (hashtags : list JSValue) : completion (list string) :=
  normalized ← normalizedTags hashtags;
  blockedRows ← blocked_tags db;
  synonymRows ← tag_synonyms db;
  let processedTags :=
    resolve_loop (blockedTags blockedRows) (tagSynonyms synonymRows) normalized in
  Returns (add_default processedTags normalized).

Definition originalProcessHashtags (db : Database) (hashtags : JSValue)
    : completion (list JSValue) :=
  match hashtags with
  | VArr ((_ :: _) as items) =>
      match try_catch (resolve db items) (fallbackTags items) with
      | Returns tags => Returns (VStr <$> tags)
      | Throws => Throws
      end
  | _ => Returns []
  end.

(** The exported wrapper. *)
Definition processHashtags (db : Database) (hashtags : JSValue)
    : completion (list JSValue) :=
  if negb (Js.truthy hashtags) then Returns []
  else
    let items :=
      match hashtags with
      | VArr items => items
      | VStr _ => [hashtags]
      | VObj props => filter Js.truthy (Js.values props)
      | _ => []
      end in
    try_catch (originalProcessHashtags db (VArr items)) (Returns items).

End TagUtils.

(** ** [src/services/hashtag-service.js] *)

Module HashtagService.
Import TagUtils.

Definition COMMON_WORDS_TO_EXCLUDE : list string := [
  "a"; "about"; "above"; "after"; "again"; "against"; "all"; "almost";
  "along"; "already"; "also"; "although"; "always"; "am"; "among"; "an";
  "and"; "another"; "any"; "anybody"; "anyone"; "anything"; "anywhere";
  "are"; "are not"; "around"; "as"; "at"; "back"; "be"; "because";
  "been"; "before"; "being"; "below"; "between"; "both"; "but"; "by";
  "can"; "cannot"; "could"; "could not"; "did"; "did not"; "do"; "does";
  "does not"; "doing"; "do not"; "down"; "during"; "each"; "either";
  "else"; "enough"; "even"; "ever"; "every"; "everybody"; "everyone";
  "everything"; "everywhere"; "except"; "few"; "for"; "from"; "further";
  "get"; "gets"; "getting"; "give"; "given"; "gives"; "go"; "goes";
  "going"; "gone"; "got"; "gotten"; "had"; "had not"; "has"; "has not";
  "have"; "have not"; "having"; "he"; "he would"; "he will"; "he is";
  "her"; "here"; "here is"; "hers"; "herself"; "him"; "himself"; "his";
  "how"; "how is"; "however"; "i"; "i would"; "i will"; "i am"; "i have";
  "if"; "in"; "inside"; "instead"; "into"; "is"; "is not"; "it"; "it is";
  "its"; "itself"; "just"; "keep"; "keeps"; "kept"; "kind"; "knew";
  "know"; "known"; "knows"; "last"; "later"; "least"; "less"; "let";
  "let us"; "like"; "likely"; "long"; "made"; "make"; "makes"; "making";
  "many"; "may"; "maybe"; "me"; "mean"; "meant"; "means"; "might";
  "might not"; "mine"; "more"; "most"; "mostly"; "much"; "must";
  "must not"; "my"; "myself"; "name"; "namely"; "near"; "need"; "needs";
  "neither"; "never"; "next"; "no"; "nobody"; "non"; "none"; "nor";
  "not"; "nothing"; "now"; "nowhere"; "of"; "off"; "often"; "oh"; "on";
  "once"; "one"; "only"; "onto"; "or"; "other"; "others"; "otherwise";
  "ought"; "our"; "ours"; "ourselves"; "out"; "over"; "own"; "part";
  "particular"; "particularly"; "past"; "per"; "perhaps"; "place";
  "please"; "point"; "possible"; "probably"; "put"; "puts"; "quite";
  "rather"; "really"; "regarding"; "right"; "said"; "same"; "saw"; "say";
  "saying"; "says"; "second"; "see"; "seem"; "seemed"; "seeming";
  "seems"; "seen"; "self"; "selves"; "sent"; "several"; "shall";
  "shall not"; "she"; "she would"; "she will"; "she is"; "should";
  "should not"; "since"; "so"; "some"; "somebody"; "someone";
  "something"; "sometime"; "sometimes"; "somewhere"; "soon"; "still";
  "such"; "sure"; "take"; "taken"; "taking"; "talked"; "tell"; "tends";
  "than"; "that"; "that is"; "the"; "their"; "theirs"; "them";
  "themselves"; "then"; "there"; "there is"; "thereafter"; "thereby";
  "therefore"; "therein"; "thereupon"; "these"; "they"; "they would";
  "they will"; "they are"; "they have"; "thing"; "things"; "think";
  "thinks"; "this"; "those"; "though"; "thought"; "through";
  "throughout"; "thus"; "till"; "to"; "together"; "too"; "took";
  "toward"; "towards"; "tried"; "tries"; "truly"; "try"; "trying";
  "twice"; "under"; "underneath"; "undo"; "unfortunately"; "unless";
  "unlike"; "unlikely"; "until"; "unto"; "up"; "upon"; "us"; "use";
  "used"; "uses"; "using"; "usually"; "value"; "various"; "very"; "via";
  "view"; "want"; "wants"; "was"; "was not"; "way"; "we"; "we would";
  "we will"; "we are"; "we have"; "well"; "went"; "were"; "were not";
  "what"; "what is"; "whatever"; "when"; "whence"; "whenever"; "where";
  "where is"; "whereafter"; "whereas"; "whereby"; "wherein"; "whereupon";
  "wherever"; "whether"; "which"; "while"; "whither"; "who"; "who is";
  "whoever"; "whole"; "whom"; "whose"; "why"; "why is"; "will";
  "willing"; "wish"; "with"; "within"; "without"; "will not"; "wonder";
  "would"; "would not"; "yes"; "yet"; "you"; "you would"; "you will";
  "you are"; "you have"; "your"; "youre"; "yours"; "yourself";
  "yourselves"
]%string.

Definition shouldExcludeWord (word : string) : bool :=
  let lowerWord := trim (toLowerCase word) in
  includes COMMON_WORDS_TO_EXCLUDE lowerWord
  || (String.length lowerWord <? 3)%nat
  || is_numeric lowerWord.

(** *** Regular expressions of the service *)

(** [text.match(/#([a-zA-Z0-9_-]+)/g) || []], scanned from the left.
    The first component is the run of tag characters that starts at the
    head of [text] when the scan is inside a run. *)
Fixpoint scan_hashtags (text : string) (in_run : bool) : string * list string :=
  match text with
  | EmptyString => (EmptyString, [])
  | String c r =>
      if in_run && is_tag_char c then
        let '(run, later) := scan_hashtags r true in (String c run, later)
      else if Ascii.eqb c "#" then
        let '(run, later) := scan_hashtags r true in
        (EmptyString, if is_empty run then later else ("#" +:+ run) :: later)
      else
        let '(_, later) := scan_hashtags r false in (EmptyString, later)
  end.

Definition match_hashtags (text : string) : list string :=
  (scan_hashtags text false).2.

(** [[...new Set(matches)]]: the first occurrence of each string stays *)
Fixpoint dedup_first (l : list string) : list string :=
  match l with
  | [] => []
  | x :: r => x :: filter (λ y, y ≠ x) (dedup_first r)
  end.

(** A literal under the flag [i], matched at the head of [s]; what
    follows it.  The literals of the service are ASCII letters, which
    only their own two cases match. *)
Fixpoint match_ci (lit s : string) : option string :=
  match lit, s with
  | EmptyString, _ => Some s
  | String a lit', String c s' =>
      if Ascii.eqb (lower_char a) (lower_char c) then match_ci lit' s' else None
  | String _ _, EmptyString => None
  end.

(** [#\s*HASHTAGS\s*:] at the head of [s]; what follows the colon.  Each
    [\s*] takes all the white space there is: giving some back would
    put a space where a letter or the colon must be. *)
Definition match_marker (s : string) : option string :=
  match s with
  | String c r =>
      if Ascii.eqb c "#" then
        match match_ci "HASHTAGS" (trimStart r) with
        | Some r' =>
            match trimStart r' with
            | String c' r'' => if Ascii.eqb c' ":" then Some r'' else None
            | EmptyString => None
            end
        | None => None
        end
      else None
  | EmptyString => None
  end.

(** [(?=\n\n|\n$|$)] *)
Definition at_section_end (s : string) : bool :=
  match s with
  | EmptyString => true
  | String c r =>
      Ascii.eqb c "010" &&
      match r with
      | EmptyString => true
      | String c' _ => Ascii.eqb c' "010"
      end
  end.

(** [([^]*?)(?=\n\n|\n$|$)]: the shortest prefix after which the
    lookahead holds, and what is left. *)
Fixpoint take_section (s : string) : string * string :=
  match s with
  | EmptyString => (EmptyString, EmptyString)
  | String c r =>
      if at_section_end s then (EmptyString, s)
      else let '(section, rest) := take_section r in (String c section, rest)
  end.

(** [response.match(hashtagSectionRegex)]: the leftmost match, as the
    text before it, the captured group and the text after it. *)
Fixpoint find_section (response : string) : option (string * string * string) :=
  match response with
  | EmptyString => None
  | String c r =>
      match match_marker response with
      | Some after_colon =>
          let '(section, rest) := take_section after_colon in
          Some (EmptyString, section, rest)
      | None =>
          match find_section r with
          | Some (before, section, rest) => Some (String c before, section, rest)
          | None => None
          end
      end
  end.

(** [s.split(/,\s*|\s+/)].  [in_sep] says that the scan is inside a
    separator, which goes on through white space. *)
Fixpoint split_list (s : string) (in_sep : bool) : list string :=
  match s with
  | EmptyString => [EmptyString]
  | String c r =>
      if in_sep && is_space c then split_list r true
      else if Ascii.eqb c "," || is_space c then EmptyString :: split_list r true
      else
        match split_list r false with
        | t :: ts => String c t :: ts
        | [] => [String c EmptyString]
        end
  end.

(** [s.split(/\s+/)] *)
Fixpoint split_ws (s : string) (in_sep : bool) : list string :=
  match s with
  | EmptyString => [EmptyString]
  | String c r =>
      if is_space c then
        if in_sep then split_ws r true else EmptyString :: split_ws r true
      else
        match split_ws r false with
        | t :: ts => String c t :: ts
        | [] => [String c EmptyString]
        end
  end.

(** [s.replace(/[^\w\s]/g, ' ')] *)
Fixpoint replace_punctuation (s : string) : string :=
  match s with
  | EmptyString => EmptyString
  | String c r =>
      String (if is_word c || is_space c then c else " "%char) (replace_punctuation r)
  end.

(** [message.includes('?')] *)
Fixpoint has_question_mark (s : string) : bool :=
  match s with
  | EmptyString => false
  | String c r => Ascii.eqb c "?" || has_question_mark r
  end.

(** *** [extractHashtagsFromText] *)

Definition extractHashtagsFromText (text : string) (maxTags : nat) : list string :=
  foldl (λ hashtags tag,
           if (length hashtags <? maxTags)%nat && negb (includes hashtags tag)
           then hashtags ++ [tag] else hashtags)
        [] (match_hashtags text).

(** *** [extractKeywords] *)

Definition words_of (text : string) : list string :=
  filter (λ word, (3 <=? String.length word)%nat = true)
         (split_ws (replace_punctuation (toLowerCase text)) false).

(** The value of [wordCount[word]] as a number: the count of [word],
    except that the first [wordCount['constructor']] finds the function
    [Object] on the prototype, which [|| 0] keeps and [+ 1] turns into
    text; that entry is not a number from then on. *)
Definition wordCount (words : list string) (word : string) : option nat :=
  if String.eqb word "constructor" then None
  else Some (length (filter (λ w, w = word) words)).

(** The number that a string of digits denotes. *)
Fixpoint digits_value (s : string) (acc : N) : N :=
  match s with
  | EmptyString => acc
  | String c r => digits_value r (acc * 10 + N.of_nat (nat_of_ascii c - 48))%N
  end.

(** An array index: the canonical text of an integer below [2^32 - 1]. *)
Definition array_index (key : string) : option N :=
  if is_numeric key
     && (String.eqb key "0"
         || negb (match key with String c _ => Ascii.eqb c "0" | EmptyString => false end))
  then
    let n := digits_value key 0 in
    if (n <? 4294967295)%N then Some n else None
  else None.

Fixpoint insert_index (key : string) (l : list string) : list string :=
  match l with
  | [] => [key]
  | k :: r =>
      match array_index key, array_index k with
      | Some n, Some m => if (m <? n)%N then k :: insert_index key r else key :: l
      | _, _ => key :: l
      end
  end.

(** [Object.keys(wordCount)]: a word becomes a key when it is first
    counted, except [__proto__], whose assignment creates no property.
    The keys that are array indices come first, in rising order, the
    others after them in the order of their creation. *)
Definition wordCount_keys (words : list string) : list string :=
  let created := filter (λ w, w ≠ "__proto__"%string) (dedup_first words) in
  foldr insert_index [] (filter (λ k, is_Some (array_index k)) created)
  ++ filter (λ k, ¬ is_Some (array_index k)) created.

(** [wordCount[b] - wordCount[a] < 0], false when the difference is
    [NaN] *)
Definition counted_before (words : list string) (a b : string) : bool :=
  match wordCount words a, wordCount words b with
  | Some na, Some nb => (nb <? na)%nat
  | _, _ => false
  end.

(** [l.sort((a, b) => wordCount[b] - wordCount[a])]: a stable sort by
    falling count.  Where a count is not a number the comparison
    function is not consistent and the language leaves the order to the
    engine; the model then keeps the order this insertion gives. *)
Fixpoint insert_sorted (words : list string) (x : string) (l : list string) : list string :=
  match l with
  | [] => [x]
  | y :: r => if counted_before words y x then y :: insert_sorted words x r else x :: l
  end.

Definition sort_by_count (words l : list string) : list string :=
  foldr (insert_sorted words) [] l.

Definition extractKeywords (text : string) : list string :=
  let words := words_of text in
  let filteredWords :=
    filter (λ word, shouldExcludeWord word = false) (wordCount_keys words) in
  sort_by_count words filteredWords.

(** *** [generateFallbackHashtags]; [rnd] is
    [Math.floor(Math.random() * generalTags.length)] *)

Definition generalTags : list string :=
  ["#discussion"; "#topic"; "#conversation"; "#query"]%string.

Definition generateFallbackHashtags (message : string) (rnd : nat) : list string :=
  ["#chat"%string]
  ++ (if has_question_mark message then ["#question"%string] else [])
  ++ (if (100 <? String.length message)%nat then ["#detailed"%string] else [])
  ++ (if (String.length message <? 20)%nat then ["#brief"%string] else [])
  ++ [default "#discussion"%string (generalTags !! (rnd `mod` 4)%nat)].

(** *** [filterBlockedTags] *)

Definition filterBlockedTags (db : Database) (tags : list string) : list string :=
  match tags, getBlockedTags db with
  | [], _ => []
  | _, [] => tags
  | _, rows =>
      let blockedTagSet : gset string := list_to_set (toLowerCase <$> rows) in
      filter (λ tag,
                let tagName := trim (toLowerCase (strip_hash tag)) in
                is_empty tag = false ∧ is_empty tagName = false ∧ tagName ∉ blockedTagSet)
             tags
  end.

(** *** [formatHashtags] *)

(** [cleanTag ? `#${cleanTag}` : ''] *)
Definition hash_or_empty (cleanTag : string) : string :=
  if is_empty cleanTag then EmptyString else "#" +:+ cleanTag.

(** The callback of [hashtags.map]. *)
Definition format_tag (tag : JSValue) : completion string :=
  match tag with
  | VStr s => Returns (hash_or_empty (strip_hashes (trim s)))
  | VArr _ | VObj _ =>
      if Js.truthy (Js.get_name tag) then
        trimmed ← Js.call_trim (Js.get_name tag);
        Returns (hash_or_empty (strip_hashes trimmed))
      else
        s ← Js.toString tag; Returns ("#" +:+ strip_hashes (trim s))
  | _ =>
      if Js.truthy tag
      then s ← Js.toString tag; Returns ("#" +:+ strip_hashes (trim s))
      else Returns EmptyString
  end.

Definition formatHashtags (hashtags : list JSValue) : completion (list string) :=
  tags ← cmapM format_tag hashtags; Returns (filter longer_than_1 tags).

(** *** [extractHashtagsFromResponse] *)

Record Extracted (C : Type) : Type := {
  content : C;
  hashtags : list string
}.
Arguments content {C} _.
Arguments hashtags {C} _.

Definition extractHashtagsFromResponse (response : string) : Extracted string :=
  match find_section response with
  | Some (before, section, rest) =>
      let hashtagList := split_list (trim section) false in
      {| content := trim (before +:+ rest);
         hashtags :=
           ensure_hash <$>
             filter (λ tag, is_empty tag = false) (trim <$> hashtagList) |}
  | None =>
      {| content := response;
         hashtags := dedup_first (match_hashtags response) |}
  end.

(** *** [extractHashtags] *)

(** [tag => { const cleanTag = tag.replace(/^#/, '').trim();
              return cleanTag.length > 0 && !shouldExcludeWord(cleanTag) }] *)
Definition keeps_tag (tag : string) : bool :=
  let cleanTag := trim (strip_hash tag) in
  negb (is_empty cleanTag) && negb (shouldExcludeWord cleanTag).

(** [formatHashtags(await processHashtags(tags))] *)
Definition process_and_format (db : Database) (tags : list string)
    : completion (list string) :=
  processedTags ← processHashtags db (VArr (VStr <$> tags));
  formatHashtags processedTags.

(** The [try] block once [response] is known to be a string with more
    than white space. *)
Definition extract_from (db : Database) (response : string) (maxTags : nat)
    : completion (Extracted JSValue) :=
  let result := extractHashtagsFromResponse response in
  let candidates :=
    match hashtags result with
    | [] =>
        let keywords := extractKeywords response in
        let filteredKeywords := filter (λ kw, shouldExcludeWord kw = false) keywords in
        (λ kw, "#" +:+ kw) <$> take maxTags filteredKeywords
    | found => filter keeps_tag found
    end in
  let nonBlockedTags := filterBlockedTags db candidates in
  formattedTags ← process_and_format db nonBlockedTags;
  Returns {| content := VStr (content result); hashtags := formattedTags |}.

Definition extractHashtags (db : Database) (response : JSValue) (maxTags : nat)
    : Extracted JSValue :=
  let attempt :=
    if negb (Js.truthy response)
    then Returns {| content := VStr EmptyString; hashtags := [] |}
    else
      trimmed ← Js.call_trim response;
      if is_empty trimmed
      then Returns {| content := VStr EmptyString; hashtags := [] |}
      else
        match response with
        | VStr s => extract_from db s maxTags
        | _ => Throws
        end in
  match attempt with
  | Returns r => r
  | Throws => {| content := response; hashtags := ["#response"; "#ai"]%string |}
  end.

(** *** [generateUserMessageHashtags] *)

Definition generate_from (db : Database) (message : string) (maxTags rnd : nat)
    : completion (list string) :=
  let explicitTags := extractHashtagsFromText message maxTags in
  match explicitTags with
  | _ :: _ =>
      let filteredExplicitTags := filter keeps_tag explicitTags in
      process_and_format db filteredExplicitTags
  | [] =>
      let keywords := extractKeywords message in
      match keywords with
      | [] => Returns (generateFallbackHashtags message rnd)
      | _ :: _ =>
          let keywordTags := (λ kw, "#" +:+ kw) <$> take maxTags keywords in
          process_and_format db keywordTags
      end
  end.

Definition generateUserMessageHashtags (db : Database) (message : JSValue)
    (maxTags rnd : nat) : list string :=
  let attempt :=
    if negb (Js.truthy message) then Returns []
    else
      trimmed ← Js.call_trim message;
      if is_empty trimmed then Returns []
      else
        match message with
        | VStr s => generate_from db s maxTags rnd
        | _ => Throws
        end in
  match attempt with
  | Returns tags => tags
  | Throws => take maxTags ["#chat"; "#conversation"]%string
  end.

End HashtagService.

(** ** The streaming branch of the completion service

    The handler of [response.data.on('data', ...)] and
    [processCompletedResponse].  A chunk is the text that
    [chunk.toString()] gives.  [JSON.parse] is a parameter of the handler:
    what it answers for a line, a value or a [SyntaxError]. *)

Module Streaming.
Import HashtagService.

(** The variables that the handler closes over. *)
Record StreamState : Type := {
  fullResponse : string;
  chunkCount : nat;
  contentExtracted : bool;
  buffer : string
}.

Definition initial_state : StreamState :=
  {| fullResponse := EmptyString; chunkCount := 0;
     contentExtracted := false; buffer := EmptyString |}.

(** What one run of the handler does besides updating its variables, in
    the order in which it does it. *)
Inductive Effect : Type :=
  (** [socket.emit('messageChunk', { chunk, messageId, done: false, ... })] *)
| EmitFragment (chunk : JSValue)
  (** [axios.post('.../api/extract-tags', { text })], not awaited *)
| PostExtractTags (text : string)
  (** [processCompletedResponse(socket, messageId, fullResponse, ...)],
      not awaited *)
| CallProcessCompletedResponse (response : string)
  (** [console.error('Error parsing JSON line:', ...)] and the line *)
| LogParseError (jsonStr : string).

(** [data.response] and [data.done]: a property that no prototype
    defines.  Reading it from [null] is a TypeError; a primitive and an
    array have no such property. *)
Definition get_field (data : JSValue) (name : string) : completion JSValue :=
  match data with
  | VNull | VUndefined => Throws
  | VObj props => Returns (default VUndefined (Js.own props name))
  | _ => Returns VUndefined
  end.

Definition set_response (st : StreamState) (text : string) : StreamState :=
  {| fullResponse := text;
     chunkCount := S (chunkCount st);
     contentExtracted := contentExtracted st;
     buffer := buffer st |}.

Definition set_buffer (st : StreamState) (b : string) : StreamState :=
  {| fullResponse := fullResponse st;
     chunkCount := chunkCount st;
     contentExtracted := contentExtracted st;
     buffer := b |}.

(** The body of the inner [try] after [JSON.parse].  [fullResponse +=
    data.response] converts the value as [String] does; the conversion
    may raise, before anything has changed. *)
Definition handle_record (st : StreamState) (data : JSValue)
    : completion (StreamState * list Effect) :=
  response ← get_field data "response";
  '(st1, effects1) ←
    (if Js.truthy response then
       text ← Js.toString response;
       let st1 := set_response st (fullResponse st +:+ text) in
       Returns
         (st1,
          EmitFragment response ::
          (if negb (contentExtracted st1)
              && (200 <? String.length (fullResponse st1))%nat
              && (chunkCount st1 `mod` 10 =? 0)%nat
           then [PostExtractTags (fullResponse st1)] else []))
     else Returns (st, []));
  done ← get_field data "done";
  Returns
    (st1,
     effects1 ++
     (if Js.truthy done
      then [CallProcessCompletedResponse (fullResponse st1)] else [])).

Section handler.
Variable JSON_parse : string → completion JSValue.

(** What the loop does at a newline with the text since the last one. *)
Definition process_segment (st : StreamState) (segment : string)
    : StreamState * list Effect :=
  let jsonStr := trim segment in
  if is_empty jsonStr then (st, [])
  else
    match JSON_parse jsonStr ≫= handle_record st with
    | Returns r => r
    | Throws => (st, [LogParseError jsonStr])
    end.

(** The [for] loop over the characters of [buffer]: [rest] is what is
    left to read and [segment] is [buffer.substring(startIdx, i)].  At
    the end, [buffer] is set to what follows the last newline. *)
Fixpoint scan (rest segment : string) (st : StreamState)
    : StreamState * list Effect :=
  match rest with
  | EmptyString => (set_buffer st segment, [])
  | String c r =>
      if Ascii.eqb c "010" then
        let '(st1, effects1) := process_segment st segment in
        let '(st2, effects2) := scan r EmptyString st1 in
        (st2, effects1 ++ effects2)
      else scan r (segment +:+ String c EmptyString) st
  end.

(** The handler: [buffer += chunk.toString()], then the loop.  Nothing
    in the outer [try] raises. *)
Definition on_data (st : StreamState) (chunk : string) : StreamState * list Effect :=
  scan (buffer st +:+ chunk) EmptyString st.

(** The handler run on the chunks of a stream, one after the other. *)
Fixpoint on_chunks (st : StreamState) (chunks : list string)
    : StreamState * list Effect :=
  match chunks with
  | [] => (st, [])
  | chunk :: later =>
      let '(st1, effects1) := on_data st chunk in
      let '(st2, effects2) := on_chunks st1 later in
      (st2, effects1 ++ effects2)
  end.

End handler.

(** *** The connection: the handler and what it has started *)

(** What the client receives. *)
Inductive ClientEvent : Type :=
  (** [messageChunk] with [done: false] *)
| Fragment (chunk : JSValue)
  (** [messageChunk] with [done: true], [chunk: ''] and the final tags *)
| Terminal (hashtags : list string)
  (** [streamingHashtags] with [final: false] *)
| StreamingHashtags (hashtags : list string).

(** [processCompletedResponse]: the final tags are those of
    [hashtagService.extractHashtags(fullResponse)]; the response is
    handed to [db.saveOllamaResponse] with them, and the terminal
    notification is emitted.  The awaited calls either cannot reject or
    are caught where they are made, so the outer [catch] is not reached. *)
Definition processCompletedResponse (db : Database) (response : string)
    : string * list string * ClientEvent :=
  let finalTags := hashtags (extractHashtags db (VStr response) 5) in
  (response, finalTags, Terminal finalTags).

Record Connection : Type := {
  stream : StreamState;
  (** the calls of [processCompletedResponse] that have not finished,
      by their [fullResponse] *)
  finalizing : list string;
  (** the posts to [/api/extract-tags] that have not been answered *)
  extracting : list string;
  (** [socket.emit], in order *)
  emitted : list ClientEvent;
  (** [db.saveOllamaResponse], in order: response and tags *)
  saved : list (string * list string)
}.

Definition initial_connection : Connection :=
  {| stream := initial_state; finalizing := []; extracting := [];
     emitted := []; saved := [] |}.

(** What happens to a connection. *)
Inductive Occurrence : Type :=
  (** the upstream delivers a chunk *)
| DataArrives (chunk : string)
  (** the [i]-th unfinished call of [processCompletedResponse] finishes,
      the store being [db] *)
| FinalizationDone (i : nat) (db : Database)
  (** the [i]-th unanswered post is answered: with tags, or with nothing
      that the [then] callback uses *)
| TagsAnswered (i : nat) (tags : option (list string)).

Definition fragments_of (effects : list Effect) : list ClientEvent :=
  omap (λ e, match e with EmitFragment chunk => Some (Fragment chunk) | _ => None end)
       effects.

Definition finalizations_of (effects : list Effect) : list string :=
  omap (λ e, match e with CallProcessCompletedResponse r => Some r | _ => None end)
       effects.

Definition posts_of (effects : list Effect) : list string :=
  omap (λ e, match e with PostExtractTags t => Some t | _ => None end) effects.

Definition occur (JSON_parse : string → completion JSValue)
    (c : Connection) (o : Occurrence) : option Connection :=
  match o with
  | DataArrives chunk =>
      let '(st, effects) := on_data JSON_parse (stream c) chunk in
      Some {| stream := st;
              finalizing := finalizing c ++ finalizations_of effects;
              extracting := extracting c ++ posts_of effects;
              emitted := emitted c ++ fragments_of effects;
              saved := saved c |}
  | FinalizationDone i db =>
      response ← finalizing c !! i;
      let '(r, finalTags, event) := processCompletedResponse db response in
      Some {| stream := stream c;
              finalizing := delete i (finalizing c);
              extracting := extracting c;
              emitted := emitted c ++ [event];
              saved := saved c ++ [(r, finalTags)] |}
  | TagsAnswered i tags =>
      _ ← extracting c !! i;
      Some
        match tags with
        | Some streamTags =>
            {| stream :=
                 {| fullResponse := fullResponse (stream c);
                    chunkCount := chunkCount (stream c);
                    contentExtracted :=
                      if (0 <? length streamTags)%nat then true
                      else contentExtracted (stream c);
                    buffer := buffer (stream c) |};
               finalizing := finalizing c;
               extracting := delete i (extracting c);
               emitted := emitted c ++ [StreamingHashtags streamTags];
               saved := saved c |}
        | None =>
            {| stream := stream c;
               finalizing := finalizing c;
               extracting := delete i (extracting c);
               emitted := emitted c;
               saved := saved c |}
        end
  end.

Fixpoint run (JSON_parse : string → completion JSValue)
    (c : Connection) (os : list Occurrence) : option Connection :=
  match os with
  | [] => Some c
  | o :: later => c1 ← occur JSON_parse c o; run JSON_parse c1 later
  end.

(** the chunks that a list of occurrences delivers *)
Definition chunks_of (os : list Occurrence) : list string :=
  omap (λ o, match o with DataArrives chunk => Some chunk | _ => None end) os.

(** the [messageChunk] events among what was emitted *)
Definition is_message_chunk (e : ClientEvent) : bool :=
  match e with
  | Fragment _ | Terminal _ => true
  | StreamingHashtags _ => false
  end.

Definition message_chunks (events : list ClientEvent) : list ClientEvent :=
  filter is_message_chunk events.

(** the text that the chunks make together *)
Definition received (chunks : list string) : string :=
  foldr String.append EmptyString chunks.

Definition no_newline (s : string) : bool :=
  every (λ c, negb (Ascii.eqb c "010")) s.

(** [s] is empty or ends with a newline: every segment in it is complete *)
Definition whole_lines (s : string) : Prop :=
  s = EmptyString ∨ ∃ p, s = p +:+ String "010" EmptyString.

(** [tail] is what follows the last newline of [input]: all of it when
    it holds none. *)
Definition is_unconsumed_tail (input tail : string) : Prop :=
  no_newline tail = true ∧
  ∃ consumed, input = consumed +:+ tail ∧ whole_lines consumed.

End Streaming.

(** ** The resolver as the design describes it (§4.4, steps 2 to 4)

    Written from the words of the specification, to be compared with
    [TagUtils.resolve_loop]: drop the candidates whose canonical form is
    blocked, replace each survivor by the synonym found for its canonical
    form (one lookup, never a second one on the substitute), and remove
    duplicates without regard to case, the first occurrence staying. *)

Module ResolverSpec.

Definition substitute_once (lookup : string → option string) (canonical : string) : string :=
  match lookup canonical with
  | Some better => better
  | None => canonical
  end.

Fixpoint dedup_ci (tags : list string) : list string :=
  match tags with
  | [] => []
  | x :: r => x :: filter (λ y, toLowerCase y ≠ toLowerCase x) (dedup_ci r)
  end.

Definition resolve_once (is_blocked : string → bool) (lookup : string → option string)
    (canonical : string → string) (candidates : list string) : list string :=
  dedup_ci
    ((λ tag, "#" +:+ substitute_once lookup (canonical tag)) <$>
       filter (λ tag, is_blocked (canonical tag) = false) candidates).

End ResolverSpec.

(** ** Where a returned tag can come from *)

Module Provenance.
Import TagUtils HashtagService.





End Provenance.

(** ** The labeled section as the design describes it (§4.3, step 1)

    Written from the words of the specification, to be compared with
    [HashtagService.extractHashtagsFromResponse]. *)

Module ExtractorSpec.

(** a comma or white space *)
Definition is_separator (c : ascii) : bool :=
  Ascii.eqb c "," || is_space c.

(** the characters of [s] that are not separators, in their order *)
Fixpoint non_separators (s : string) : string :=
  match s with
  | EmptyString => EmptyString
  | String c r => if is_separator c then non_separators r else String c (non_separators r)
  end.

Fixpoint separator_free (s : string) : bool :=
  match s with
  | EmptyString => true
  | String c r => negb (is_separator c) && separator_free r
  end.

(** the tokens between separators *)
Fixpoint tokens (s : string) : list string :=
  match s with
  | EmptyString => []
  | String c r =>
      if is_separator c then tokens r
      else
        match r with
        | EmptyString => [String c EmptyString]
        | String c' _ =>
            if is_separator c' then String c EmptyString :: tokens r
            else
              match tokens r with
              | t :: ts => String c t :: ts
              | [] => [String c EmptyString]
              end
        end
  end.

Fixpoint all_space (s : string) : bool :=
  match s with
  | EmptyString => true
  | String c r => is_space c && all_space r
  end.

(** A marker: [#], white space, the word HASHTAGS in any mix of cases,
    white space, a colon. *)
Definition is_marker (m : string) : Prop :=
  ∃ ws1 word ws2,
    m = "#" +:+ ws1 +:+ word +:+ ws2 +:+ ":" ∧
    all_space ws1 = true ∧ all_space ws2 = true ∧
    toLowerCase word = "hashtags"%string.

(** the longest alphanumeric prefix *)
Fixpoint alnum_prefix (s : string) : string :=
  match s with
  | EmptyString => EmptyString
  | String c r => if is_alnum c then String c (alnum_prefix r) else EmptyString
  end.

(** "truncate each token at its first non-alphanumeric character after
    the [#]" *)
Definition truncate_token (t : string) : string :=
  match t with
  | String c r => String c (alnum_prefix r)
  | EmptyString => EmptyString
  end.

(** "split the remainder on whitespace/commas, keep only tokens
    starting with [#], truncate each token ..." *)
Definition labeled_tags (section : string) : list string :=
  truncate_token <$> filter (λ t, startsWith_hash t = true) (tokens section).

End ExtractorSpec.

(** ** Sample data *)

Module Examples.

(** A store whose synonym table holds a chain. *)
Definition chain_db : Database :=
  {| blocked_tags := Returns ["spam"%string];
     tag_synonyms :=
       Returns [("js", "javascript"); ("javascript", "ecmascript")]%string;
     getBlockedTags := ["spam"%string] |}.

(** A store that cannot be reached: every query is rejected. *)
Definition unreachable_db : Database :=
  {| blocked_tags := Throws;
     tag_synonyms := Throws;
     getBlockedTags := [] |}.

(** The sample stream of the design (§8): three lines, each closed by a
    newline.
      [{"response":"Hel"}], [{"response":"lo"}], [{"done":true}] *)
Definition quote : string := String "034" EmptyString.
Definition newline : string := String "010" EmptyString.

Definition json_text (s : string) : string := quote +:+ s +:+ quote.

Definition line_Hel : string :=
  "{" +:+ json_text "response" +:+ ":" +:+ json_text "Hel" +:+ "}".
Definition line_lo : string :=
  "{" +:+ json_text "response" +:+ ":" +:+ json_text "lo" +:+ "}".
Definition line_done : string :=
  "{" +:+ json_text "done" +:+ ":true}".

Definition chunk_Hel : string := line_Hel +:+ newline.
Definition chunk_lo : string := line_lo +:+ newline.
Definition chunk_done : string := line_done +:+ newline.

(** [JSON.parse] on the lines of the sample stream; any other line is
    taken not to be JSON. *)
Definition sample_parse (jsonStr : string) : completion JSValue :=
  if String.eqb jsonStr line_Hel
  then Returns (VObj [("response"%string, VStr "Hel")])
  else if String.eqb jsonStr line_lo
  then Returns (VObj [("response"%string, VStr "lo")])
  else if String.eqb jsonStr line_done
  then Returns (VObj [("done"%string, VBool true)])
  else Throws.

End Examples.

(** ** Orders used in the statements *)

Module Order.

(** [l] is in falling order of [count]: no element is followed, at any
    distance, by one that counts more. *)
Fixpoint falling (count : string → nat) (l : list string) : Prop :=
  match l with
  | [] => True
  | x :: r => Forall (λ y, count y ≤ count x) r ∧ falling count r
  end.

End Order.

(** ** What a stream has delivered *)

Module StreamFacts.
Import Streaming.

(** The text that a fragment adds to the response, [String(chunk)]. *)
Definition fragment_text (e : Effect) : string :=
  match e with
  | EmitFragment chunk =>
      match Js.toString chunk with
      | Returns text => text
      | Throws => EmptyString
      end
  | _ => EmptyString
  end.

(** The text of the fragments among [effects], in order. *)
Definition emitted_text (effects : list Effect) : string :=
  foldr (λ e text, fragment_text e +:+ text) EmptyString effects.

(** A fragment whose chunk [String] converts. *)
Definition is_text_fragment (e : Effect) : Prop :=
  match e with
  | EmitFragment chunk => ∃ text, Js.toString chunk = Returns text
  | _ => True
  end.


(** The chunk of a fragment that the client has received. *)
Definition client_fragment (e : ClientEvent) : option JSValue :=
  match e with
  | Fragment chunk => Some chunk
  | _ => None
  end.

(** The chunk of a fragment that the handler has sent. *)
Definition sent_fragment (e : Effect) : option JSValue :=
  match e with
  | EmitFragment chunk => Some chunk
  | _ => None
  end.

(** Two states of the handler that differ in the flag
    [contentExtracted] at most. *)
Definition same_but_flag (st st' : StreamState) : Prop :=
  fullResponse st = fullResponse st' ∧
  chunkCount st = chunkCount st' ∧
  buffer st = buffer st'.

(** What the handler keeps true from a state [st] to a state [st'] that
    it reaches with [effects]. *)
Record tally (st st' : StreamState) (effects : list Effect) : Prop := {
  tally_response :
    fullResponse st' = fullResponse st +:+ emitted_text effects;
  tally_count :
    chunkCount st' = chunkCount st + length (fragments_of effects);
  tally_flag : contentExtracted st' = contentExtracted st;
  tally_fragments : Forall is_text_fragment effects;
  tally_posts :
    length (posts_of effects) + chunkCount st / 10 ≤ chunkCount st' / 10;
  tally_posts_flag : contentExtracted st = true → posts_of effects = [];
  tally_posts_length :
    Forall (λ text, 200 < String.length text) (posts_of effects);
  tally_finalization :
    ∀ i response,
      effects !! i = Some (CallProcessCompletedResponse response) →
      response = fullResponse st +:+ emitted_text (take i effects)
}.

End StreamFacts.

(** ** More string methods *)

Module JsText.

(** [s.startsWith(prefix)] *)
Fixpoint startsWith (s prefix : string) {struct prefix} : bool :=
  match prefix, s with
  | EmptyString, _ => true
  | String a p, String c r => Ascii.eqb a c && startsWith r p
  | String _ _, EmptyString => false
  end.

(** [s.endsWith(suffix)]: [suffix] is [s] or ends a tail of [s]. *)
Fixpoint endsWith (s suffix : string) : bool :=
  String.eqb s suffix ||
  match s with
  | EmptyString => false
  | String _ r => endsWith r suffix
  end.

(** [s.slice(0, -1)] *)
Fixpoint drop_last (s : string) : string :=
  match s with
  | EmptyString => EmptyString
  | String c r =>
      match r with
      | EmptyString => EmptyString
      | String _ _ => String c (drop_last r)
      end
  end.

(** [s.substring(n)] *)
Fixpoint substring_from (n : nat) (s : string) : string :=
  match n, s with
  | 0, _ => s
  | S m, String _ r => substring_from m r
  | S _, EmptyString => EmptyString
  end.

(** [s.substring(0, n)] *)
Fixpoint substring_to (n : nat) (s : string) : string :=
  match n, s with
  | 0, _ => EmptyString
  | S m, String c r => String c (substring_to m r)
  | S _, EmptyString => EmptyString
  end.

End JsText.

(** ** The completion service: the address of a request

    [makeOllamaRequest] (ollama-service), the lines that build [fullUrl]
    from the configured [ollamaApiUrl] and the endpoint. *)

Module OllamaUrl.
Import JsText.

Definition fullUrl (ollamaApiUrl endpoint : string) : string :=
  let baseUrl :=
    if endsWith ollamaApiUrl "/" then drop_last ollamaApiUrl else ollamaApiUrl in
  let apiEndpoint :=
    if endsWith baseUrl "/api" && startsWith endpoint "api/"
    then substring_from 4 endpoint else endpoint in
  baseUrl +:+ "/" +:+ apiEndpoint.

End OllamaUrl.

(** ** [src/db.js]: the block list

    [blockTag].  The query is a parameter: what the awaited
    [pool.query] does with the name and the reason that it is given. *)

Module BlockList.

(** The parameters of
    [INSERT INTO blocked_tags (tag_name, reason) VALUES (?, ?)
     ON DUPLICATE KEY UPDATE reason = ?]. *)
Record Insertion : Type := {
  tag_name : string;
  reason : JSValue
}.

(** The queries issued, and the value returned. *)
Definition blockTag (query : Insertion → completion unit)
    (tagName : string) (reason : JSValue) : list Insertion * bool :=
  let blockReason := if Js.truthy reason then reason else VStr "user" in
  let cleanedTag := trim (toLowerCase (strip_hash tagName)) in
  if is_empty cleanedTag then ([], false)
  else
    let insertion := {| tag_name := cleanedTag; reason := blockReason |} in
    match query insertion with
    | Returns _ => ([insertion], true)
    | Throws => ([insertion], false)
    end.

End BlockList.

(** ** [server.js]: the tags of a message

    The handlers of [POST /api/add-tag] and [POST /api/remove-tag].  The
    [tags] column of a row is read as the driver hands over a text column:
    a JSON text, or [NULL].  [JSON.parse] and [JSON.stringify] are
    parameters, and so is what each query answers.
    A handler returns the updates that it has issued, in order, and its
    reply. *)

Module TagEndpoints.
Import TagUtils HashtagService.

(** [req.body] *)
Record Body : Type := {
  tag : JSValue;
  messageId : JSValue;
  sessionId : JSValue
}.

Inductive Update : Type :=
  (** [UPDATE ollama_responses SET tags = ? WHERE message_id = ?] *)
| UpdateResponses (tags : string) (messageId : JSValue)
  (** [UPDATE message_log SET tags = ? WHERE message_id = ? AND
      origin = "assistant"] *)
| UpdateLog (tags : string) (messageId : JSValue).

Record Store : Type := {
  (** [SELECT 1 FROM blocked_tags WHERE tag_name = ?]: how many rows *)
  blocked_rows : string → completion nat;
  (** [SELECT tags FROM ollama_responses WHERE message_id = ?]: the
      [tags] of each row *)
  response_rows : JSValue → completion (list (option string));
  update : Update → completion unit
}.

Inductive AddReply : Type :=
  (** 400, [Missing required parameters] *)
| AddMissing
  (** 400, [This tag is blocked] *)
| AddBlocked
  (** 400, [This word is too common to be used as a topic] *)
| AddTooCommon
  (** 404, [Message not found] *)
| AddNotFound
  (** 400, [Tag already exists] *)
| AddExists
  (** 200, with [tags: existingTags] *)
| Added (tags : list JSValue)
  (** 500, from the [catch] block *)
| AddError.

Inductive RemoveReply : Type :=
  (** 400, [Missing required parameters] *)
| RemoveMissing
  (** 200, with [updatedTags] *)
| Removed (updatedTags : list JSValue)
  (** 500, from the [catch] block *)
| RemoveError.

(** [existingTags.some(t => t.toLowerCase() === normalizedTag)]: an
    element that is not a string has no [toLowerCase]. *)
Fixpoint some_equal (items : list JSValue) (normalizedTag : string) : completion bool :=
  match items with
  | [] => Returns false
  | VStr t :: later =>
      if String.eqb (toLowerCase t) normalizedTag then Returns true
      else some_equal later normalizedTag
  | _ :: _ => Throws
  end.

(** [existingTags.filter(t => t.replace(/^#/, '').toLowerCase()
      !== cleanTagToRemove)] *)
Fixpoint filter_others (items : list JSValue) (cleanTagToRemove : string)
    : completion (list JSValue) :=
  match items with
  | [] => Returns []
  | VStr t :: later =>
      kept ← filter_others later cleanTagToRemove;
      Returns (if String.eqb (toLowerCase (strip_hash t)) cleanTagToRemove
               then kept else VStr t :: kept)
  | _ :: _ => Throws
  end.

Section handlers.
Variable JSON_parse : string → completion JSValue.
Variable JSON_stringify : JSValue → string.

(** [existingTags] of [/api/add-tag]:
    [JSON.parse(responseRows[0].tags || '[]')], or [[]] when that raises *)
Definition existing_tags_to_add (column : option string) : JSValue :=
  let text :=
    match column with
    | Some s => if is_empty s then "[]"%string else s
    | None => "[]"%string
    end in
  match JSON_parse text with
  | Returns v => v
  | Throws => VArr []
  end.

(** [existingTags] of [/api/remove-tag]: [[]] unless [tags] is truthy
    and parses *)
Definition existing_tags_to_remove (column : option string) : JSValue :=
  match column with
  | Some s =>
      if is_empty s then VArr []
      else
        match JSON_parse s with
        | Returns v => v
        | Throws => VArr []
        end
  | None => VArr []
  end.

Definition add_tag (store : Store) (body : Body) : list Update * AddReply :=
  if negb (Js.truthy (tag body)) || negb (Js.truthy (messageId body))
  then ([], AddMissing)
  else
    match tag body with
    | VStr s =>
        let formattedTag := ensure_hash (trim s) in
        let cleanTag := toLowerCase (strip_hash formattedTag) in
        match blocked_rows store cleanTag with
        | Throws => ([], AddError)
        | Returns blockedResult =>
            if (0 <? blockedResult)%nat then ([], AddBlocked)
            else if shouldExcludeWord cleanTag then ([], AddTooCommon)
            else
              match response_rows store (messageId body) with
              | Throws => ([], AddError)
              | Returns [] => ([], AddNotFound)
              | Returns (column :: _) =>
                  match existing_tags_to_add column with
                  | VArr existingTags =>
                      match some_equal existingTags (toLowerCase formattedTag) with
                      | Throws => ([], AddError)
                      | Returns true => ([], AddExists)
                      | Returns false =>
                          let tags := existingTags ++ [VStr formattedTag] in
                          let json := JSON_stringify (VArr tags) in
                          let first := UpdateResponses json (messageId body) in
                          let second := UpdateLog json (messageId body) in
                          match update store first with
                          | Throws => ([first], AddError)
                          | Returns _ =>
                              match update store second with
                              | Throws => ([first; second], AddError)
                              | Returns _ => ([first; second], Added tags)
                              end
                          end
                      end
                  | _ => ([], AddError)
                  end
              end
        end
    | _ => ([], AddError)
    end.

Definition remove_tag (store : Store) (body : Body) : list Update * RemoveReply :=
  if negb (Js.truthy (sessionId body)) || negb (Js.truthy (messageId body))
     || negb (Js.truthy (tag body))
  then ([], RemoveMissing)
  else
    match response_rows store (messageId body) with
    | Throws => ([], RemoveError)
    | Returns messageResults =>
        let existingTags :=
          match messageResults with
          | column :: _ => existing_tags_to_remove column
          | [] => VArr []
          end in
        match tag body, existingTags with
        | VStr s, VArr items =>
            let cleanTagToRemove := toLowerCase (strip_hash s) in
            match filter_others items cleanTagToRemove with
            | Throws => ([], RemoveError)
            | Returns updatedTags =>
                let issued :=
                  UpdateResponses (JSON_stringify (VArr updatedTags)) (messageId body) in
                match update store issued with
                | Throws => ([issued], RemoveError)
                | Returns _ => ([issued], Removed updatedTags)
                end
            end
        | _, _ => ([], RemoveError)
        end
    end.

End handlers.

End TagEndpoints.

(** Sample data for the tags of a message. *)

Module EndpointExamples.
Import TagEndpoints Examples.

(** [JSON.stringify] of an array of strings that need no escape. *)
Fixpoint tag_texts (items : list JSValue) : string :=
  match items with
  | [] => EmptyString
  | item :: later =>
      let text := match item with VStr s => json_text s | _ => "null"%string end in
      match later with
      | [] => text
      | _ :: _ => text +:+ "," +:+ tag_texts later
      end
  end.

Definition tags_stringify (v : JSValue) : string :=
  match v with
  | VArr items => "[" +:+ tag_texts items +:+ "]"
  | _ => "null"%string
  end.

Definition stored_tags : list JSValue := [VStr "#rust"].
Definition written_tags : list JSValue := [VStr "#rust"; VStr "#go-lang"].

(** [JSON.parse] on the two lists of the sample; any other text is
    taken not to be JSON. *)
Definition tags_parse (text : string) : completion JSValue :=
  if String.eqb text (tags_stringify (VArr stored_tags))
  then Returns (VArr stored_tags)
  else if String.eqb text (tags_stringify (VArr written_tags))
  then Returns (VArr written_tags)
  else Throws.

(** A store that holds [stored_tags] for every message, and one that
    holds [written_tags]. *)
Definition store_before : Store :=
  {| blocked_rows := λ _, Returns 0;
     response_rows := λ _, Returns [Some (tags_stringify (VArr stored_tags))];
     update := λ _, Returns () |}.

Definition store_after : Store :=
  {| blocked_rows := λ _, Returns 0;
     response_rows := λ _, Returns [Some (tags_stringify (VArr written_tags))];
     update := λ _, Returns () |}.

Definition add_go : Body :=
  {| tag := VStr "go-lang"; messageId := VStr "m-1"; sessionId := VStr "s-1" |}.

End EndpointExamples.

(** ** The completion service: related conversations

    [findRelatedConversation] (ollama-service), for an array of tags.
    What each query answers is a parameter, and so is
    [new Date(timestamp).toISOString()], which raises a RangeError for a
    time that is not valid.  The function returns the queries that it has
    issued, in order, and its result. *)

Module RelatedConversations.

(** A row of [message_log], as the search selects it. *)
Record MessageRow : Type := {
  message_id : string;
  content : string;
  origin : string;
  timestamp : JSValue;
  session_id : string
}.

(** A row of [ollama_responses]: [response_content, message_id]. *)
Record ResponseRow : Type := {
  response_content : string;
  response_message_id : string
}.

(** A row of the query for the user message before: [content, message_id]. *)
Record UserRow : Type := {
  user_content : string;
  user_message_id : string
}.

Inductive Query : Type :=
  (** the search in [message_log], with its parameters *)
| Search (params : list JSValue)
  (** [... FROM ollama_responses WHERE user_message_id = ? LIMIT 1] *)
| ResponseOf (messageId : string)
  (** [... FROM message_log WHERE session_id = ? AND timestamp < ? AND
      origin = 'user' ORDER BY timestamp DESC LIMIT 1] *)
| PrecedingUser (sessionId : string) (before : JSValue).

Record Store : Type := {
  search : list JSValue → completion (list MessageRow);
  response_of : string → completion (list ResponseRow);
  preceding_user : string → JSValue → completion (list UserRow);
  toISOString : JSValue → completion string
}.

(** An element of the result. *)
Record Related : Type := {
  userMessage : string;
  assistantResponse : string;
  messageId : string;
  timestamp_text : string;
  sessionId : string
}.

(** The first loop: what it pushes on [params].  A truthy tag that is
    not a string has no [replace]. *)
Fixpoint tag_params (userHashtags : list JSValue) : completion (list JSValue) :=
  match userHashtags with
  | [] => Returns []
  | tag :: later =>
      if negb (Js.truthy tag) then tag_params later
      else
        match tag with
        | VStr s =>
            let cleanTag := trim (toLowerCase (strip_hash s)) in
            if (String.length cleanTag <? 3)%nat then tag_params later
            else
              params ← tag_params later;
              Returns (VStr ("#" +:+ cleanTag) :: VStr cleanTag :: params)
        | _ => Throws
        end
  end.

(** The variables of the second loop; [failed] says that an exception
    has ended it. *)
Record Progress : Type := {
  relatedMessages : list Related;
  processedMessageIds : gset string;
  issued : list Query;
  failed : bool
}.

(** [relevantContent], or [None] while it is [undefined] *)
Definition relevant_content (store : Store) (row : MessageRow)
    : completion (option Related) :=
  if String.eqb (origin row) "user" then
    responseRows ← response_of store (message_id row);
    match responseRows with
    | first :: _ =>
        text ← toISOString store (timestamp row);
        Returns (Some {| userMessage := content row;
                         assistantResponse := response_content first;
                         messageId := response_message_id first;
                         timestamp_text := text;
                         sessionId := session_id row |})
    | [] => Returns None
    end
  else
    userRows ← preceding_user store (session_id row) (timestamp row);
    match userRows with
    | first :: _ =>
        text ← toISOString store (timestamp row);
        Returns (Some {| userMessage := user_content first;
                         assistantResponse := content row;
                         messageId := message_id row;
                         timestamp_text := text;
                         sessionId := session_id row |})
    | [] => Returns None
    end.

(** One turn of [for (const row of rows)]. *)
Definition visit (store : Store) (limit : nat) (p : Progress) (row : MessageRow)
    : Progress :=
  if failed p then p
  else if bool_decide (message_id row ∈ processedMessageIds p)
          || (limit <=? length (relatedMessages p))%nat
  then p
  else
    let processed := {[message_id row]} ∪ processedMessageIds p in
    let query :=
      if String.eqb (origin row) "user" then ResponseOf (message_id row)
      else PrecedingUser (session_id row) (timestamp row) in
    match relevant_content store row with
    | Throws =>
        {| relatedMessages := relatedMessages p;
           processedMessageIds := processed;
           issued := issued p ++ [query];
           failed := true |}
    | Returns relevantContent =>
        {| relatedMessages :=
             match relevantContent with
             | Some found =>
                 if negb (is_empty (userMessage found))
                    && negb (is_empty (assistantResponse found))
                 then relatedMessages p ++ [found]
                 else relatedMessages p
             | None => relatedMessages p
             end;
           processedMessageIds := processed;
           issued := issued p ++ [query];
           failed := false |}
    end.

Definition findRelatedConversation (store : Store) (userHashtags : list JSValue)
    (session : JSValue) (limit : nat) : list Query * list Related :=
  match userHashtags with
  | [] => ([], [])
  | _ :: _ =>
      match tag_params userHashtags with
      | Throws => ([], [])
      | Returns [] => ([], [])
      | Returns ((_ :: _) as tagParams) =>
          let params := tagParams ++ [session] in
          match search store params with
          | Throws => ([Search params], [])
          | Returns rows =>
              let p :=
                foldl (visit store limit)
                  {| relatedMessages := [];
                     processedMessageIds := ∅;
                     issued := [Search params];
                     failed := false |}
                  rows in
              (issued p, if failed p then [] else relatedMessages p)
          end
      end
  end.

End RelatedConversations.

(** ** [src/services/hashtag-service.js]: [findMessagesByTag]

    For a tag that is a string.  What each query answers is a parameter,
    and so are [JSON.parse] and [new Date(timestamp).toISOString()]. *)

Module MessagesByTag.
Import JsText.

(** A row of [message_log], as the search selects it.  [tags],
    [timestamp] and [chatbot_id] may be [NULL]. *)
Record LogRow : Type := {
  message_id : string;
  session_id : string;
  origin : string;
  content : string;
  tags : option string;
  timestamp : option JSValue;
  chatbot_id : option nat
}.

(** A row of the query for the messages around a match. *)
Record ContextRow : Type := {
  context_message_id : string;
  context_origin : string;
  context_content : string;
  context_timestamp : option JSValue
}.

Record Store : Type := {
  (** the search, with its three parameters *)
  search : string → string → nat → completion (list LogRow);
  (** [SELECT name FROM chatbots WHERE id = ?] *)
  chatbot_names : nat → completion (list JSValue);
  (** the messages of the session within five minutes of the match *)
  context_rows : string → string → completion (list ContextRow);
  toISOString : JSValue → completion string
}.

Record ContextItem : Type := {
  item_messageId : string;
  item_origin : string;
  item_content : string;
  item_timestamp : option string;
  isMatch : bool
}.

Record Found : Type := {
  messageId : string;
  sessionId : string;
  found_origin : string;
  found_content : string;
  snippet : string;
  found_tags : JSValue;
  found_timestamp : option string;
  chatbotId : option nat;
  chatbotName : JSValue;
  context : list ContextItem
}.

(** [content.substring(0, 150) + (content.length > 150 ? '...' : '')] *)
Definition shorten (content : string) : string :=
  substring_to 150 content
  +:+ (if (150 <? String.length content)%nat then "..." else EmptyString)%string.

(** [timestamp ? new Date(timestamp).toISOString() : null] *)
Definition iso (store : Store) (timestamp : option JSValue) : completion (option string) :=
  match timestamp with
  | Some t => text ← toISOString store t; Returns (Some text)
  | None => Returns None
  end.

Section rows.
Variable JSON_parse : string → completion JSValue.
Variable store : Store.

(** The callback of [contextRows.map]. *)
Definition context_item (row : LogRow) (ctx : ContextRow) : completion ContextItem :=
  text ← iso store (context_timestamp ctx);
  Returns {| item_messageId := context_message_id ctx;
             item_origin := context_origin ctx;
             item_content := shorten (context_content ctx);
             item_timestamp := text;
             isMatch := String.eqb (context_message_id ctx) (message_id row) |}.

(** The callback of [messageLogRows.map]. *)
Definition found_of (row : LogRow) : completion Found :=
  let parsed :=
    match JSON_parse (match tags row with
                      | Some s => if is_empty s then "[]"%string else s
                      | None => "[]"%string
                      end) with
    | Returns v => v
    | Throws => VArr []
    end in
  text ← iso store (timestamp row);
  let name :=
    match chatbot_id row with
    | Some (S n) =>
        match chatbot_names store (S n) with
        | Returns (first :: _) => first
        | _ => VNull
        end
    | _ => VNull
    end in
  let around :=
    match context_rows store (session_id row) (message_id row) with
    | Returns contextRows =>
        match cmapM (context_item row) contextRows with
        | Returns items => items
        | Throws => []
        end
    | Throws => []
    end in
  Returns {| messageId := message_id row;
             sessionId := session_id row;
             found_origin := origin row;
             found_content := content row;
             snippet := shorten (content row);
             found_tags := parsed;
             found_timestamp := text;
             chatbotId := chatbot_id row;
             chatbotName := name;
             context := around |}.

Definition findMessagesByTag (tag : string) (limit : nat) : list Found :=
  let normalizedTag := toLowerCase (strip_hash tag) in
  if (String.length normalizedTag <? 2)%nat then []
  else
    match search store ("#" +:+ normalizedTag) normalizedTag limit with
    | Throws => []
    | Returns messageLogRows =>
        match cmapM found_of messageLogRows with
        | Returns results => results
        | Throws => []
        end
    end.

End rows.

End MessagesByTag.

(** ** [src/db.js]: [removeTagFromMessage]

    The connection is taken to be granted.  The function returns the
    updates that it has issued, and its result: the table of the message
    and the updated tags, or the exception that it raises again. *)

Module MessageTags.
Import TagUtils.

Inductive Table : Type :=
| OllamaResponses
| UserMessages.

Record Store : Type := {
  (** [SELECT tags FROM <table> WHERE message_id = ?]: the [tags] of
      each row *)
  tags_of : Table → JSValue → completion (list (option string));
  (** [UPDATE <table> SET tags = ? WHERE message_id = ?] *)
  write_tags : Table → string → JSValue → completion unit
}.

(** [currentTags.filter(t =>
      t.toLowerCase() !== tagToRemove.toLowerCase() &&
      t.toLowerCase() !== tag.toLowerCase())] *)
Fixpoint filter_unequal (currentTags : list JSValue) (tagToRemove tag : string)
    : completion (list JSValue) :=
  match currentTags with
  | [] => Returns []
  | VStr t :: later =>
      kept ← filter_unequal later tagToRemove tag;
      Returns (if negb (String.eqb (toLowerCase t) (toLowerCase tagToRemove))
                  && negb (String.eqb (toLowerCase t) (toLowerCase tag))
               then VStr t :: kept else kept)
  | _ :: _ => Throws
  end.

Section remove.
Variable JSON_parse : string → completion JSValue.
Variable JSON_stringify : JSValue → string.

(** [JSON.parse(rows[0].tags || '[]')], or [[]] when that raises *)
Definition current_tags (column : option string) : JSValue :=
  let text :=
    match column with
    | Some s => if is_empty s then "[]"%string else s
    | None => "[]"%string
    end in
  match JSON_parse text with
  | Returns v => v
  | Throws => VArr []
  end.

(** What either branch does once the row is found in [table]. *)
Definition remove_from (store : Store) (table : Table) (column : option string)
    (messageId tag : JSValue)
    : list (Table * string) * completion (Table * list JSValue) :=
  match tag, current_tags column with
  | VStr s, VArr currentTags =>
      match filter_unequal currentTags (ensure_hash s) s with
      | Throws => ([], Throws)
      | Returns updatedTags =>
          let json := JSON_stringify (VArr updatedTags) in
          match write_tags store table json messageId with
          | Throws => ([(table, json)], Throws)
          | Returns _ => ([(table, json)], Returns (table, updatedTags))
          end
      end
  | _, _ => ([], Throws)
  end.

Definition removeTagFromMessage (store : Store) (messageId tag : JSValue)
    : list (Table * string) * completion (Table * list JSValue) :=
  match tags_of store OllamaResponses messageId with
  | Throws => ([], Throws)
  | Returns (column :: _) => remove_from store OllamaResponses column messageId tag
  | Returns [] =>
      match tags_of store UserMessages messageId with
      | Throws => ([], Throws)
      | Returns [] => ([], Throws)
      | Returns (column :: _) => remove_from store UserMessages column messageId tag
      end
  end.

End remove.

End MessageTags.

Module RemovalExamples.
Import EndpointExamples.

(** The store of [db.js] that holds [written_tags] for every assistant
    message. *)
Definition message_store_after : MessageTags.Store :=
  {| MessageTags.tags_of := λ _ _, Returns [Some (tags_stringify (VArr written_tags))];
     MessageTags.write_tags := λ _ _ _, Returns () |}.

End RemovalExamples.

(** * Properties *)

(** ** Completions *)

Lemma bind_Returns {A B} (a : A) (k : A → completion B) :
  (Returns a ≫= k) = k a.
Proof. reflexivity. Qed.

Lemma cbind_returns {A B} (m : completion A) (k : A → completion B) b :
  (m ≫= k) = Returns b ↔ ∃ a, m = Returns a ∧ k a = Returns b.
Proof.
  destruct m as [a|]; simpl; split.
  - intros H. by exists a.
  - by intros (a' & [= ->] & H).
  - intros H; discriminate H.
  - by intros (a' & [=] & _).
Qed.

Lemma cmapM_returns_Forall2 {A B} (f : A → completion B) l l' :
  cmapM f l = Returns l' ↔ Forall2 (λ x y, f x = Returns y) l l'.
Proof.
  revert l'. induction l as [|x l IH]; intros l'; simpl.
  - split.
    + intros [= <-]. constructor.
    + intros H. by inversion H.
  - split.
    + intros H. apply cbind_returns in H as (y & Hy & H).
      apply cbind_returns in H as (ys & Hys & [= <-]).
      constructor; [done|]. by apply IH.
    + intros H. inversion H as [|? y ? ys Hy Hys]; subst.
      rewrite Hy. simpl. apply IH in Hys. rewrite Hys. done.
Qed.

(** ** The tag reuse resolver *)

Section resolver.
Import TagUtils ResolverSpec.

Lemma default_substitute_once syn c :
  default c (synonym_of syn c) = substitute_once (synonym_of syn) c.
Proof. unfold substitute_once. by destruct (synonym_of syn c). Qed.

Lemma filter_filter_absorb {A} (P Q : A → Prop)
    `{!∀ x, Decision (P x)} `{!∀ x, Decision (Q x)} (l : list A) :
  (∀ x, P x → Q x) → filter P (filter Q l) = filter P l.
Proof.
  intros HPQ. rewrite list_filter_filter. apply list_filter_iff.
  intros x. split; [tauto|]. intros HP. split; [done|]. by apply HPQ.
Qed.

Lemma filter_all {A} (P : A → Prop) `{!∀ x, Decision (P x)} (l : list A) :
  (∀ x, P x) → filter P l = l.
Proof.
  intros HP. induction l as [|x l IH]; [done|].
  rewrite filter_cons_True by done. by rewrite IH.
Qed.

(** The loop, started from any state whose set holds the lower-cased
    tags seen so far, appends the unseen tags of the described pipeline. *)
Lemma resolve_foldl blocked syn tags acc (seen : gset string) :
  (foldl (resolve_step blocked syn) (acc, seen) tags).1 =
  acc ++ filter (λ y, toLowerCase y ∉ seen)
           (resolve_once (includes blocked) (synonym_of syn) cleanTag_of tags).
Proof.
  unfold resolve_once.
  revert acc seen. induction tags as [|tag tags IH]; intros acc seen.
  - simpl. by rewrite app_nil_r.
  - simpl foldl. unfold resolve_step at 2.
    destruct (includes blocked (cleanTag_of tag)) eqn:Hb.
    + rewrite filter_cons_False by (rewrite Hb; discriminate). apply IH.
    + rewrite filter_cons_True by done. rewrite fmap_cons. simpl dedup_ci.
      rewrite default_substitute_once.
      set (f := "#" +:+ substitute_once (synonym_of syn) (cleanTag_of tag)).
      simpl snd. simpl fst. case_bool_decide as Hseen.
      * rewrite IH. f_equal.
        rewrite filter_cons_False by (intros H; by apply H).
        symmetry. apply filter_filter_absorb. intros y Hy Heq.
        apply Hy. by rewrite Heq.
      * rewrite IH. rewrite <- app_assoc. simpl. f_equal.
        rewrite filter_cons_True by done. f_equal.
        rewrite list_filter_filter. apply list_filter_iff.
        intros y. rewrite not_elem_of_union, not_elem_of_singleton. tauto.
Qed.

Lemma resolve_loop_refines blocked syn tags :
  resolve_loop blocked syn tags =
  resolve_once (includes blocked) (synonym_of syn) cleanTag_of tags.
Proof.
  unfold resolve_loop. rewrite resolve_foldl. simpl.
  apply filter_all. intros y. apply not_elem_of_empty.
Qed.

End resolver.

Section resolver_wrapper.
Import TagUtils ResolverSpec.


(** The wrapper hands an array to the resolver as it is. *)
Lemma processHashtags_array db items :
  processHashtags db (VArr items) =
  try_catch (originalProcessHashtags db (VArr items)) (Returns items).
Proof. done. Qed.

Lemma normalizedTags_strings (candidates : list string) :
  normalizedTags (VStr <$> candidates) =
  Returns (filter longer_than_1 ((λ s, ensure_hash (trim s)) <$> candidates)).
Proof.
  unfold normalizedTags.
  assert (cmapM normalize_tag (VStr <$> candidates)
          = Returns ((λ s, ensure_hash (trim s)) <$> candidates)) as ->; [|done].
  induction candidates as [|s l IH]; csimpl; [done|]. by rewrite IH.
Qed.

Lemma fallbackTags_strings (candidates : list string) :
  fallbackTags (VStr <$> candidates) =
  Returns (filter longer_than_1 ((λ s, ensure_hash (trim s)) <$> candidates)).
Proof.
  unfold fallbackTags.
  assert (cmapM normalize_tag_fallback (VStr <$> candidates)
          = Returns ((λ s, ensure_hash (trim s)) <$> candidates)) as ->; [|done].
  induction candidates as [|s l IH]; csimpl; [done|]. by rewrite IH.
Qed.

(** With both tables read, the [try] block returns the described
    pipeline, or the default tag when it leaves nothing of a non-empty
    normalized list. *)
Lemma resolve_ok db blockedRows synonymRows items normalized :
  blocked_tags db = Returns blockedRows →
  tag_synonyms db = Returns synonymRows →
  normalizedTags items = Returns normalized →
  resolve db items =
  Returns (add_default
             (resolve_once (includes (blockedTags blockedRows))
                (synonym_of (tagSynonyms synonymRows)) cleanTag_of normalized)
             normalized).
Proof.
  intros Hb Hs Hn. unfold resolve. rewrite Hn, Hb, Hs. simpl.
  by rewrite resolve_loop_refines.
Qed.

Lemma originalProcessHashtags_ok db blockedRows synonymRows items normalized :
  blocked_tags db = Returns blockedRows →
  tag_synonyms db = Returns synonymRows →
  normalizedTags items = Returns normalized →
  originalProcessHashtags db (VArr items) =
  Returns (VStr <$>
           add_default
             (resolve_once (includes (blockedTags blockedRows))
                (synonym_of (tagSynonyms synonymRows)) cleanTag_of normalized)
             normalized).
Proof.
  intros Hb Hs Hn. destruct items as [|x items].
  - injection Hn as <-. done.
  - unfold originalProcessHashtags.
    by rewrite (resolve_ok _ _ _ _ _ Hb Hs Hn).
Qed.

(** An element that the [catch] block turns into a tag of at most one
    character is turned into the same tag by the [try] block. *)
Lemma normalize_tag_fallback_short tag s :
  normalize_tag_fallback tag = Returns s →
  longer_than_1 s = false →
  normalize_tag tag = Returns s.
Proof.
  destruct tag as [| |b|r|t|l|props]; simpl; try done.
  destruct (Js.own props "toString"); [done|]. simpl.
  intros [= <-]. discriminate.
Qed.

Lemma fallbackTags_nil_normalizedTags items :
  fallbackTags items = Returns [] → normalizedTags items = Returns [].
Proof.
  unfold fallbackTags, normalizedTags. intros H.
  apply cbind_returns in H as (tags & Hm & [= Hf]).
  assert (cmapM normalize_tag items = Returns tags) as ->; [|simpl; by rewrite Hf].
  apply cmapM_returns_Forall2. apply cmapM_returns_Forall2 in Hm.
  induction Hm as [|x y l k Hxy Hlk IH]; [constructor|].
  destruct (longer_than_1 y) eqn:Hy.
  - rewrite filter_cons_True in Hf by (by apply Is_true_true_2). discriminate.
  - rewrite filter_cons_False in Hf by (by apply Is_true_false_2).
    constructor; [by apply normalize_tag_fallback_short | by apply IH].
Qed.

End resolver_wrapper.

Section resolver_claims.
Import TagUtils ResolverSpec Examples.

Lemma resolve_once_nil_all_blocked is_blocked lookup canonical candidates :
  (∀ tag, tag ∈ candidates → is_blocked (canonical tag) = true) →
  resolve_once is_blocked lookup canonical candidates = [].
Proof.
  intros H. unfold resolve_once.
  assert (filter (λ tag, is_blocked (canonical tag) = false) candidates = []) as ->; [|done].
  induction candidates as [|c l IH]; [done|].
  rewrite filter_cons_False.
  - apply IH. intros tag Htag. apply H. by right.
  - rewrite (H c) by left. discriminate.
Qed.

Lemma add_default_nil_inv processed normalized :
  add_default processed normalized = [] → normalized = [].
Proof.
  unfold add_default. destruct processed as [|p ps]; simpl.
  - destruct normalized; [done|]. simpl. discriminate.
  - discriminate.
Qed.

(** C4.  With both tables read, the resolver turns the single candidate
    [#js] into [#javascript] whenever [js] is not blocked and the synonym
    table maps [js] to [javascript]; and for every candidate list its
    result is that of the described pipeline, in which each surviving
    candidate is looked up in the synonym table once, by its own
    canonical form, and the substitute is never looked up again. *)
Theorem processHashtags_synonym_one_level
    (db : Database) (blockedRows : list string) (synonymRows : list (string * string)) :
  blocked_tags db = Returns blockedRows →
  tag_synonyms db = Returns synonymRows →
  (includes (blockedTags blockedRows) "js" = false →
   tagSynonyms synonymRows !! "js" = Some "javascript" →
   processHashtags db (VArr [VStr "#js"]) = Returns [VStr "#javascript"]) ∧
  (∀ items normalized,
     normalizedTags items = Returns normalized →
     processHashtags db (VArr items) =
     Returns (VStr <$>
              add_default
                (resolve_once (includes (blockedTags blockedRows))
                   (synonym_of (tagSynonyms synonymRows)) cleanTag_of normalized)
                normalized)).
Proof.
  intros Hb Hs.
  assert (∀ items normalized,
     normalizedTags items = Returns normalized →
     processHashtags db (VArr items) =
     Returns (VStr <$>
              add_default
                (resolve_once (includes (blockedTags blockedRows))
                   (synonym_of (tagSynonyms synonymRows)) cleanTag_of normalized)
                normalized)) as Hall.
  { intros items normalized Hn. rewrite processHashtags_array.
    by rewrite (originalProcessHashtags_ok _ _ _ _ _ Hb Hs Hn). }
  split; [|exact Hall].
  intros Hjs Hsyn.
  rewrite (Hall [VStr "#js"] ["#js"]) by done.
  unfold resolve_once.
  rewrite filter_cons_True by exact Hjs.
  rewrite filter_nil, fmap_cons, fmap_nil.
  unfold substitute_once, synonym_of.
  change (cleanTag_of "#js") with "js". by rewrite Hsyn.
Qed.

Lemma processHashtags_synonym_one_level_witness :
  processHashtags chain_db (VArr [VStr "#js"]) = Returns [VStr "#javascript"].
Proof.
  apply (processHashtags_synonym_one_level chain_db ["spam"]
           [("js", "javascript"); ("javascript", "ecmascript")]);
    reflexivity.
Defined.

(** C5.  With both tables read, a candidate list whose normalized form
    is not empty and whose every candidate is blocked yields exactly
    [#conversation]; and whatever the database does, the resolver
    returns the empty list only when the normalized input is empty. *)
Theorem processHashtags_default_tag (db : Database) (items : list JSValue) :
  (∀ blockedRows synonymRows normalized,
     blocked_tags db = Returns blockedRows →
     tag_synonyms db = Returns synonymRows →
     normalizedTags items = Returns normalized →
     normalized ≠ [] →
     (∀ tag, tag ∈ normalized →
             includes (blockedTags blockedRows) (cleanTag_of tag) = true) →
     processHashtags db (VArr items) = Returns [VStr "#conversation"]) ∧
  (processHashtags db (VArr items) = Returns [] →
   normalizedTags items = Returns []).
Proof.
  split.
  - intros blockedRows synonymRows normalized Hb Hs Hn Hne Hall.
    rewrite processHashtags_array.
    rewrite (originalProcessHashtags_ok _ _ _ _ _ Hb Hs Hn).
    rewrite resolve_once_nil_all_blocked by done.
    destruct normalized; done.
  - rewrite processHashtags_array. destruct items as [|x items]; [done|].
    unfold originalProcessHashtags.
    destruct (resolve db (x :: items)) as [tags|] eqn:Hres; simpl.
    + intros [= Htags]. apply fmap_nil_inv in Htags. subst tags.
      unfold resolve in Hres.
      apply cbind_returns in Hres as (normalized & Hn & Hres).
      apply cbind_returns in Hres as (blockedRows & _ & Hres).
      apply cbind_returns in Hres as (synonymRows & _ & [= Hres]).
      apply add_default_nil_inv in Hres. by subst normalized.
    + destruct (fallbackTags (x :: items)) as [tags|] eqn:Hfb; simpl.
      * intros [= Htags]. apply fmap_nil_inv in Htags. subst tags.
        by apply fallbackTags_nil_normalizedTags.
      * discriminate.
Qed.

Lemma processHashtags_default_tag_witness :
  processHashtags chain_db (VArr [VStr "#spam"; VStr " Spam "])
  = Returns [VStr "#conversation"].
Proof.
  apply (processHashtags_default_tag chain_db [VStr "#spam"; VStr " Spam "])
    with (blockedRows := ["spam"])
         (synonymRows := [("js", "javascript"); ("javascript", "ecmascript")])
         (normalized := ["#spam"; "#Spam"]);
    [reflexivity | reflexivity | reflexivity | discriminate |].
  intros tag Htag.
  apply elem_of_cons in Htag as [->|Htag]; [reflexivity|].
  apply elem_of_cons in Htag as [->|Htag]; [reflexivity|].
  by apply elem_of_nil in Htag.
Defined.

End resolver_claims.

Section resolver_failure.
Import TagUtils Examples.

Lemma resolve_throws db items :
  blocked_tags db = Throws ∨ tag_synonyms db = Throws →
  resolve db items = Throws.
Proof.
  intros Hdb. unfold resolve.
  destruct (normalizedTags items) as [normalized|]; [|done]. simpl.
  destruct (blocked_tags db) as [blockedRows|]; [|done]. simpl.
  destruct Hdb as [Hdb|Hdb]; [done|]. by rewrite Hdb.
Qed.

(** C6.  When a query of the resolver is rejected, the resolver does not
    raise: it returns the candidates normalized (each trimmed and given
    a [#] when it has none, a result of one character or none rejected),
    in their order, with nothing blocked, nothing substituted and no
    duplicate removed. *)
Theorem processHashtags_store_unreachable (db : Database) (candidates : list string) :
  blocked_tags db = Throws ∨ tag_synonyms db = Throws →
  processHashtags db (VArr (VStr <$> candidates)) =
  Returns (VStr <$> filter longer_than_1 ((λ s, ensure_hash (trim s)) <$> candidates)).
Proof.
  intros Hdb. rewrite processHashtags_array.
  destruct candidates as [|c l]; [done|].
  unfold originalProcessHashtags. rewrite fmap_cons.
  rewrite resolve_throws by done. simpl try_catch.
  rewrite <- (fmap_cons VStr c l). by rewrite fallbackTags_strings.
Qed.

Lemma processHashtags_store_unreachable_witness :
  processHashtags unreachable_db
    (VArr [VStr "js"; VStr " #js "; VStr "#spam"; VStr " "; VStr "JS"])
  = Returns [VStr "#js"; VStr "#js"; VStr "#spam"; VStr "#JS"].
Proof.
  apply (processHashtags_store_unreachable unreachable_db
           ["js"; " #js "; "#spam"; " "; "JS"]).
  left. reflexivity.
Defined.


End resolver_failure.

(** ** Strings *)

Section string_facts.

Lemma is_empty_true s : is_empty s = true ↔ s = EmptyString.
Proof. destruct s; simpl; split; congruence. Qed.

Lemma is_empty_false s : is_empty s = false ↔ s ≠ EmptyString.
Proof. destruct s; simpl; split; congruence. Qed.

Lemma trimEnd_cons c r :
  trimEnd (String c r) =
  match trimEnd r with
  | EmptyString => if is_space c then EmptyString else String c EmptyString
  | r' => String c r'
  end.
Proof. reflexivity. Qed.

Lemma trimEnd_idem s : trimEnd (trimEnd s) = trimEnd s.
Proof.
  induction s as [|c r IH]; [done|].
  rewrite trimEnd_cons. destruct (trimEnd r) as [|c' r'] eqn:Hr.
  - destruct (is_space c) eqn:Hc; [done|]. simpl. by rewrite Hc.
  - rewrite trimEnd_cons, IH. done.
Qed.

(** A string that [trimEnd] leaves alone has tails that it leaves alone. *)
Lemma trimEnd_fixed_tail c r :
  trimEnd (String c r) = String c r → trimEnd r = r.
Proof.
  rewrite trimEnd_cons. destruct (trimEnd r) as [|c' r'] eqn:Hr.
  - destruct (is_space c); [done|]. by intros [= <-].
  - by intros [= <-].
Qed.

Lemma trimEnd_fixed_cons c r :
  r ≠ EmptyString → trimEnd r = r → trimEnd (String c r) = String c r.
Proof.
  intros Hne Hr. rewrite trimEnd_cons, Hr. by destruct r.
Qed.

Lemma trimStart_fixed c r :
  is_space c = false → trimStart (String c r) = String c r.
Proof. intros Hc. simpl. by rewrite Hc. Qed.

(** What [trimStart] returns is empty or starts with a character that
    is not white space. *)
Lemma trimStart_head s :
  trimStart s = EmptyString ∨
  ∃ c r, trimStart s = String c r ∧ is_space c = false.
Proof.
  induction s as [|c r IH]; [by left|]. simpl.
  destruct (is_space c) eqn:Hc; [done|]. right. by exists c, r.
Qed.

Lemma trimEnd_head c r :
  is_space c = false → ∃ r', trimEnd (String c r) = String c r'.
Proof.
  intros Hc. rewrite trimEnd_cons, Hc. destruct (trimEnd r); eauto.
Qed.

Lemma trimEnd_trim s : trimEnd (trim s) = trim s.
Proof. apply trimEnd_idem. Qed.

Lemma trimStart_trim s : trimStart (trim s) = trim s.
Proof.
  unfold trim. destruct (trimStart_head s) as [->|(c & r & -> & Hc)]; [done|].
  destruct (trimEnd_head c r Hc) as [r' ->]. by apply trimStart_fixed.
Qed.

Lemma trim_idem s : trim (trim s) = trim s.
Proof. unfold trim at 1. by rewrite trimStart_trim, trimEnd_trim. Qed.

(** A hash in front of a trimmed string that is not empty: nothing
    for [trim] to remove. *)
Lemma trim_hash_cons t :
  t ≠ EmptyString → trimEnd t = t → trim ("#" +:+ t) = "#" +:+ t.
Proof.
  intros Hne Ht. unfold trim. change ("#" +:+ t) with (String "#" t).
  rewrite trimStart_fixed by reflexivity. by apply trimEnd_fixed_cons.
Qed.

Lemma strip_hashes_trimEnd s :
  trimEnd s = s → trimEnd (strip_hashes s) = strip_hashes s.
Proof.
  induction s as [|c r IH]; [done|]. intros Hs. simpl.
  destruct (Ascii.eqb c "#"); [|done].
  apply IH. by apply trimEnd_fixed_tail in Hs.
Qed.

Lemma strip_hashes_no_hash s : startsWith_hash (strip_hashes s) = false.
Proof.
  induction s as [|c r IH]; [done|]. simpl.
  destruct (Ascii.eqb c "#") eqn:Hc; [done|]. simpl. exact Hc.
Qed.

Lemma strip_hashes_fixed s : startsWith_hash s = false → strip_hashes s = s.
Proof. destruct s as [|c r]; [done|]. simpl. by intros ->. Qed.

Lemma strip_hashes_idem s : strip_hashes (strip_hashes s) = strip_hashes s.
Proof. apply strip_hashes_fixed, strip_hashes_no_hash. Qed.

Lemma strip_hashes_hash_cons t : strip_hashes ("#" +:+ t) = strip_hashes t.
Proof. reflexivity. Qed.


End string_facts.

(** ** The tag normalizer *)

Section normalizer.
Import TagUtils HashtagService.

Lemma formatHashtags_strings (tags : list string) :
  formatHashtags (VStr <$> tags) =
  Returns (filter longer_than_1 ((λ s, hash_or_empty (strip_hashes (trim s))) <$> tags)).
Proof.
  unfold formatHashtags.
  assert (cmapM format_tag (VStr <$> tags)
          = Returns ((λ s, hash_or_empty (strip_hashes (trim s))) <$> tags)) as ->; [|done].
  induction tags as [|s l IH]; csimpl; [done|]. by rewrite IH.
Qed.

(** Filtering the images of a list whose elements are fixed and kept. *)
Lemma filter_fmap_fixed (f : string → string) (l : list string) :
  (∀ y, y ∈ l → f y = y ∧ longer_than_1 y = true) →
  filter longer_than_1 (f <$> l) = l.
Proof.
  induction l as [|y l IH]; intros H; [done|].
  destruct (H y) as [Hf Hy]; [by left|].
  rewrite fmap_cons, Hf, filter_cons_True by (by apply Is_true_true_2).
  rewrite IH; [done|]. intros z Hz. apply H. by right.
Qed.

Lemma hash_or_empty_longer t :
  longer_than_1 (hash_or_empty t) = true →
  t ≠ EmptyString ∧ hash_or_empty t = "#" +:+ t.
Proof. destruct t; [discriminate|done]. Qed.

(** A tag that [formatHashtags] has produced is left as it is. *)
Lemma format_string_fixed s y :
  y = hash_or_empty (strip_hashes (trim s)) →
  longer_than_1 y = true →
  hash_or_empty (strip_hashes (trim y)) = y.
Proof.
  intros -> Hlong. apply hash_or_empty_longer in Hlong as [Hne ->].
  rewrite trim_hash_cons; [|done|apply strip_hashes_trimEnd, trimEnd_trim].
  rewrite strip_hashes_hash_cons, strip_hashes_idem.
  unfold hash_or_empty. by destruct (strip_hashes (trim s)).
Qed.

(** A tag that the normalization of the resolver has produced is left
    as it is. *)
Lemma ensure_hash_trim_fixed s y :
  y = ensure_hash (trim s) →
  longer_than_1 y = true →
  ensure_hash (trim y) = y.
Proof.
  intros -> Hlong. unfold ensure_hash in *.
  destruct (startsWith_hash (trim s)) eqn:Hh.
  - by rewrite trim_idem, Hh.
  - destruct (trim s) as [|c r] eqn:Ht; [discriminate|].
    rewrite trim_hash_cons; [done|done|]. rewrite <- Ht. apply trimEnd_trim.
Qed.

(** C7.  Normalizing what has been normalized changes nothing: this
    holds of [formatHashtags], which trims a tag, strips all its leading
    [#], rejects it when nothing is left and prefixes one [#], and of
    the normalization the resolver starts with.  By [formatHashtags],
    [##Foo ] becomes [#Foo] and [foo] becomes [#foo], which are equal
    once the [#] is dropped and case is ignored. *)
Theorem formatHashtags_idempotent :
  (∀ tags : list string, ∃ out,
     formatHashtags (VStr <$> tags) = Returns out ∧
     formatHashtags (VStr <$> out) = Returns out) ∧
  (∀ tags : list string, ∃ out,
     normalizedTags (VStr <$> tags) = Returns out ∧
     normalizedTags (VStr <$> out) = Returns out) ∧
  formatHashtags [VStr "##Foo "] = Returns ["#Foo"] ∧
  formatHashtags [VStr "foo"] = Returns ["#foo"] ∧
  toLowerCase (strip_hash "#Foo") = toLowerCase (strip_hash "#foo").
Proof.
  split; [|split; [|done]].
  - intros tags. eexists. split; [apply formatHashtags_strings|].
    rewrite formatHashtags_strings. f_equal.
    apply filter_fmap_fixed. intros y Hy.
    apply list_elem_of_filter in Hy as [Hlong Hy].
    apply Is_true_true_1 in Hlong.
    apply list_elem_of_fmap in Hy as (s & Hs & _).
    split; [|done]. by apply (format_string_fixed s).
  - intros tags. eexists. split; [apply normalizedTags_strings|].
    rewrite normalizedTags_strings. f_equal.
    apply filter_fmap_fixed. intros y Hy.
    apply list_elem_of_filter in Hy as [Hlong Hy].
    apply Is_true_true_1 in Hlong.
    apply list_elem_of_fmap in Hy as (s & Hs & _).
    split; [|done]. by apply (ensure_hash_trim_fixed s).
Qed.

End normalizer.

(** ** The entity extractor: regular expressions *)

Section extractor_tokens.
Import TagUtils HashtagService ExtractorSpec.

Lemma is_separator_space c : is_space c = true → is_separator c = true.
Proof. unfold is_separator. intros ->. by rewrite orb_true_r. Qed.

Lemma split_list_not_nil s b : split_list s b ≠ [].
Proof.
  revert b. induction s as [|c r IH]; intros b; simpl; [done|].
  destruct (b && is_space c); [apply IH|].
  destruct (Ascii.eqb c "," || is_space c); [done|].
  by destruct (split_list r false).
Qed.

(** The tokens that [split] gives and that are not empty are the
    tokens between separators. *)
Lemma split_list_tokens s b :
  filter (λ t, is_empty t = false) (split_list s b) = tokens s.
Proof.
  revert b. induction s as [|c r IH]; intros b; [done|].
  simpl split_list. simpl tokens. unfold is_separator at 1.
  destruct (is_space c) eqn:Hsp.
  - rewrite orb_true_r. destruct b; simpl andb; cbv iota.
    + apply IH.
    + rewrite filter_cons_False by (simpl; congruence). apply IH.
  - rewrite andb_false_r, orb_false_r.
    destruct (Ascii.eqb c ",") eqn:Hc.
    + rewrite filter_cons_False by (simpl; congruence). apply IH.
    + specialize (IH false).
      destruct (split_list r false) as [|t ts] eqn:Hsplit;
        [by apply split_list_not_nil in Hsplit|].
      rewrite filter_cons_True by done.
      destruct r as [|c' r'].
      * simpl in Hsplit. by injection Hsplit as <- <-.
      * destruct (is_separator c') eqn:Hsep'.
        -- assert (t = EmptyString) as ->.
           { simpl in Hsplit. unfold is_separator in Hsep'.
             rewrite Hsep' in Hsplit. by injection Hsplit as <- _. }
           rewrite filter_cons_False in IH by (simpl; congruence).
           by rewrite IH.
        -- destruct t as [|ct t'].
           ++ simpl in Hsplit. unfold is_separator in Hsep'.
              rewrite Hsep' in Hsplit.
              destruct (split_list r' false); discriminate.
           ++ rewrite filter_cons_True in IH by done. by rewrite <- IH.
Qed.

Lemma tokens_separator_free s :
  Forall (λ t, separator_free t = true ∧ t ≠ EmptyString) (tokens s).
Proof.
  induction s as [|c r IH]; [constructor|]. simpl.
  destruct (is_separator c) eqn:Hc; [done|].
  destruct r as [|c' r'].
  - constructor; [|constructor]. simpl. by rewrite Hc.
  - destruct (is_separator c') eqn:Hc'.
    + constructor; [|done]. simpl. by rewrite Hc.
    + destruct (tokens (String c' r')) as [|t ts].
      * constructor; [|constructor]. simpl. by rewrite Hc.
      * inversion IH as [|? ? [Ht _] Hts]; subst.
        constructor; [|done]. simpl. by rewrite Hc, Ht.
Qed.

Lemma tokens_cons c r :
  tokens (String c r) =
  if is_separator c then tokens r
  else
    match r with
    | EmptyString => [String c EmptyString]
    | String c' _ =>
        if is_separator c' then String c EmptyString :: tokens r
        else
          match tokens r with
          | t :: ts => String c t :: ts
          | [] => [String c EmptyString]
          end
    end.
Proof. reflexivity. Qed.

Lemma tokens_trimStart s : tokens (trimStart s) = tokens s.
Proof.
  induction s as [|c r IH]; [done|]. simpl trimStart.
  destruct (is_space c) eqn:Hc; [|done].
  rewrite IH. simpl. by rewrite (is_separator_space c Hc).
Qed.

Lemma tokens_all_space s : trimEnd s = EmptyString → tokens s = [].
Proof.
  induction s as [|c r IH]; [done|]. rewrite trimEnd_cons.
  destruct (trimEnd r) eqn:Hr; [|done].
  destruct (is_space c) eqn:Hc; [|done]. intros _. simpl.
  rewrite (is_separator_space c Hc). by apply IH.
Qed.

Lemma tokens_trimEnd s : tokens (trimEnd s) = tokens s.
Proof.
  induction s as [|c r IH]; [done|]. rewrite trimEnd_cons.
  destruct (trimEnd r) as [|c' r'] eqn:Hr.
  - destruct (is_space c) eqn:Hc.
    + simpl. rewrite (is_separator_space c Hc). symmetry. by apply tokens_all_space.
    + simpl. rewrite (tokens_all_space r Hr).
      destruct (is_separator c); [done|].
      destruct r as [|c2 r2]; [done|].
      destruct (is_separator c2) eqn:Hc2; [done|].
      exfalso. revert Hr. rewrite trimEnd_cons.
      destruct (trimEnd r2); [|done].
      destruct (is_space c2) eqn:Hs2; [|done].
      by rewrite (is_separator_space c2 Hs2) in Hc2.
  - assert (∃ r2, r = String c' r2) as [r2 Hr2].
    { destruct r as [|c2 r2]; [done|]. revert Hr. rewrite trimEnd_cons.
      destruct (trimEnd r2); [destruct (is_space c2)|]; intros [= <- _]; eauto. }
    rewrite (tokens_cons c (String c' r')), (tokens_cons c r), IH.
    by rewrite Hr2.
Qed.

Lemma tokens_trim s : tokens (trim s) = tokens s.
Proof. unfold trim. by rewrite tokens_trimEnd, tokens_trimStart. Qed.

Lemma separator_free_trim t : separator_free t = true → trim t = t.
Proof.
  intros Ht. unfold trim.
  assert (trimStart t = t) as ->.
  { destruct t as [|c r]; [done|]. simpl in *.
    destruct (is_space c) eqn:Hc; [|done].
    by rewrite (is_separator_space c Hc) in Ht. }
  induction t as [|c r IH]; [done|]. simpl in Ht.
  apply andb_true_iff in Ht as [Hc Hr]. rewrite trimEnd_cons, (IH Hr).
  destruct r; [|done].
  destruct (is_space c) eqn:Hs; [|done].
  by rewrite (is_separator_space c Hs) in Hc.
Qed.

(** The tags of a labeled section: its tokens, each with its [#]. *)
Lemma labeled_hashtags section :
  ensure_hash <$>
    filter (λ tag, is_empty tag = false) (trim <$> split_list (trim section) false)
  = ensure_hash <$> tokens section.
Proof.
  f_equal. rewrite <- (tokens_trim section), <- (split_list_tokens _ false).
  set (l := split_list (trim section) false).
  assert (Forall (λ t, is_empty t = false → separator_free t = true) l) as Hl.
  { apply Forall_forall. intros t Ht Hne.
    assert (t ∈ filter (λ t, is_empty t = false) l) as Hin
      by (by apply list_elem_of_filter).
    unfold l in Hin. rewrite split_list_tokens in Hin.
    pose proof (tokens_separator_free (trim section)) as Hall.
    rewrite Forall_forall in Hall. by apply Hall. }
  clearbody l. induction Hl as [|t l Ht Hl IH]; [done|].
  rewrite fmap_cons. destruct (is_empty t) eqn:He.
  - apply is_empty_true in He as ->.
    rewrite !filter_cons_False by (simpl; congruence). apply IH.
  - rewrite (separator_free_trim t (Ht eq_refl)).
    rewrite !filter_cons_True by done. by rewrite IH.
Qed.

End extractor_tokens.

Section extractor_sections.
Import TagUtils HashtagService ExtractorSpec.

Lemma string_app_cons c (a b : string) : String c a +:+ b = String c (a +:+ b).
Proof. reflexivity. Qed.

Lemma string_app_nil_l (a : string) : "" +:+ a = a.
Proof. reflexivity. Qed.

Lemma string_app_assoc (a b c : string) : (a +:+ b) +:+ c = a +:+ (b +:+ c).
Proof.
  induction a as [|x a IH]; [done|]. by rewrite !string_app_cons, IH.
Qed.

Lemma string_app_nil_r (a : string) : a +:+ "" = a.
Proof.
  induction a as [|x a IH]; [done|]. by rewrite string_app_cons, IH.
Qed.

(** *** White space in front *)

Lemma trimStart_split s :
  ∃ ws, s = ws +:+ trimStart s ∧ all_space ws = true.
Proof.
  induction s as [|c r (ws & Hr & Hws)]; [by exists ""|]. simpl trimStart.
  destruct (is_space c) eqn:Hc.
  - exists (String c ws). rewrite string_app_cons, <- Hr. simpl.
    by rewrite Hc, Hws.
  - by exists "".
Qed.

Lemma trimStart_all_space ws s :
  all_space ws = true → trimStart (ws +:+ s) = trimStart s.
Proof.
  induction ws as [|c ws IH]; [done|]. rewrite string_app_cons. simpl.
  intros [Hc Hws]%andb_true_iff. rewrite Hc. by apply IH.
Qed.

(** *** The word of the marker *)

Lemma match_ci_sound lit s r :
  match_ci lit s = Some r →
  ∃ w, s = w +:+ r ∧ toLowerCase w = toLowerCase lit.
Proof.
  revert s. induction lit as [|a lit IH]; intros s; simpl.
  - intros [= ->]. by exists "".
  - destruct s as [|c s]; [done|].
    destruct (Ascii.eqb (lower_char a) (lower_char c)) eqn:Hc; [|done].
    intros (w & -> & Hw)%IH. exists (String c w).
    rewrite string_app_cons. simpl.
    apply Ascii.eqb_eq in Hc. by rewrite Hw, Hc.
Qed.

Lemma match_ci_complete lit w r :
  toLowerCase w = toLowerCase lit → match_ci lit (w +:+ r) = Some r.
Proof.
  revert w. induction lit as [|a lit IH]; intros w; simpl.
  - by destruct w.
  - destruct w as [|c w]; [done|]. rewrite string_app_cons. simpl.
    intros [= Hc Hw]. rewrite Hc, Ascii.eqb_refl. by apply IH.
Qed.

Lemma lower_char_h c : lower_char c = "h"%char → is_space c = false.
Proof. destruct c as [[] [] [] [] [] [] [] []]; by vm_compute. Qed.

(** *** The marker *)

Lemma match_marker_sound s r :
  match_marker s = Some r → ∃ m, is_marker m ∧ s = m +:+ r.
Proof.
  destruct s as [|c s]; [done|]. unfold match_marker.
  destruct (Ascii.eqb c "#") eqn:Hc; [|done].
  apply Ascii.eqb_eq in Hc as ->.
  destruct (trimStart_split s) as (ws1 & Hs & Hws1).
  destruct (match_ci "HASHTAGS" (trimStart s)) as [r'|] eqn:Hword; [|done].
  apply match_ci_sound in Hword as (word & Hr' & Hlow).
  destruct (trimStart_split r') as (ws2 & Hr'' & Hws2).
  destruct (trimStart r') as [|c' r''] eqn:Hcolon; [done|].
  destruct (Ascii.eqb c' ":") eqn:Hc'; [|done].
  apply Ascii.eqb_eq in Hc' as ->. intros [= ->].
  exists ("#" +:+ ws1 +:+ word +:+ ws2 +:+ ":"). split.
  - by exists ws1, word, ws2.
  - assert (s = ws1 +:+ word +:+ ws2 +:+ ":" +:+ r) as ->.
    { etrans; [exact Hs|]. rewrite Hr'. do 2 f_equal. exact Hr''. }
    by rewrite !string_app_assoc.
Qed.

Lemma match_marker_complete m r :
  is_marker m → match_marker (m +:+ r) = Some r.
Proof.
  intros (ws1 & word & ws2 & -> & Hws1 & Hws2 & Hlow).
  rewrite !string_app_assoc.
  change ("#" +:+ ws1 +:+ word +:+ ws2 +:+ ":" +:+ r)
    with (String "#" (ws1 +:+ word +:+ ws2 +:+ String ":" r)).
  unfold match_marker. rewrite Ascii.eqb_refl.
  rewrite (trimStart_all_space ws1) by done.
  assert (trimStart (word +:+ ws2 +:+ String ":" r)
          = word +:+ ws2 +:+ String ":" r) as ->.
  { destruct word as [|ch word]; [done|]. simpl in Hlow.
    injection Hlow as Hch _. rewrite string_app_cons. simpl.
    by rewrite (lower_char_h ch Hch). }
  rewrite match_ci_complete by done.
  by rewrite (trimStart_all_space ws2).
Qed.

(** *** The section *)

Lemma take_section_cons c r :
  take_section (String c r) =
  if at_section_end (String c r) then (EmptyString, String c r)
  else let '(section, rest) := take_section r in (String c section, rest).
Proof. reflexivity. Qed.

Lemma take_section_spec s section rest :
  take_section s = (section, rest) →
  s = section +:+ rest ∧ at_section_end rest = true.
Proof.
  revert section. induction s as [|c r IH]; intros section.
  - simpl. by intros [= <- <-].
  - rewrite take_section_cons.
    destruct (at_section_end (String c r)) eqn:Hend.
    + by intros [= <- <-].
    + destruct (take_section r) as [section' rest'] eqn:Hr.
      intros [= <- <-]. destruct (IH section' eq_refl) as [-> Hrest]. done.
Qed.

(** The section is the shortest one: it ends at the first place where
    the lookahead holds. *)
Lemma take_section_shortest s section rest a b :
  take_section s = (section, rest) →
  section = a +:+ b → b ≠ EmptyString →
  at_section_end (b +:+ rest) = false.
Proof.
  revert section a. induction s as [|c r IH]; intros section a.
  - simpl. intros [= <- <-] Hab Hb. by destruct a, b.
  - rewrite take_section_cons.
    destruct (at_section_end (String c r)) eqn:Hend.
    + intros [= <- <-] Hab Hb. by destruct a, b.
    + destruct (take_section r) as [section' rest'] eqn:Hr.
      intros [= <- <-] Hab Hb.
      destruct (take_section_spec r section' rest' Hr) as [Hsplit _].
      destruct a as [|x a].
      * rewrite string_app_nil_l in Hab. subst b.
        by rewrite string_app_cons, <- Hsplit.
      * rewrite string_app_cons in Hab. injection Hab as _ Hab.
        by apply (IH section' a).
Qed.

Lemma find_section_cons c r :
  find_section (String c r) =
  match match_marker (String c r) with
  | Some after_colon =>
      let '(section, rest) := take_section after_colon in
      Some (EmptyString, section, rest)
  | None =>
      match find_section r with
      | Some (before, section, rest) => Some (String c before, section, rest)
      | None => None
      end
  end.
Proof. reflexivity. Qed.

Lemma find_section_sound response before section rest :
  find_section response = Some (before, section, rest) →
  (∃ marker, is_marker marker ∧
             response = before +:+ marker +:+ section +:+ rest) ∧
  at_section_end rest = true.
Proof.
  revert before. induction response as [|c r IH]; intros before; [done|].
  rewrite find_section_cons.
  destruct (match_marker (String c r)) as [after_colon|] eqn:Hm.
  - destruct (take_section after_colon) as [section' rest'] eqn:Ht.
    intros [= <- <- <-].
    apply match_marker_sound in Hm as (m & Hmarker & ->).
    apply take_section_spec in Ht as [-> Hend]. split; [|done].
    by exists m.
  - destruct (find_section r) as [[[before' section'] rest']|]; [|done].
    intros [= <- <- <-].
    destruct (IH before' eq_refl) as [(m & Hmarker & ->) Hend].
    split; [|done]. by exists m.
Qed.

Lemma find_section_complete response a marker b :
  is_marker marker → response = a +:+ marker +:+ b →
  find_section response ≠ None.
Proof.
  intros Hmarker. revert response.
  induction a as [|x a IH]; intros response ->.
  - rewrite string_app_nil_l.
    pose proof (match_marker_complete marker b Hmarker) as Hm.
    destruct (marker +:+ b) as [|c r] eqn:Hmb; [done|].
    rewrite find_section_cons, Hm. by destruct (take_section b).
  - rewrite string_app_cons, find_section_cons.
    destruct (match_marker _).
    + by destruct (take_section _).
    + specialize (IH _ eq_refl). by destruct (find_section _) as [[[??]?]|].
Qed.

End extractor_sections.

(** ** The entity extractor: [extractHashtagsFromResponse] *)

Section extractor_claims.
Import TagUtils HashtagService ExtractorSpec.

(** The marker that [find_section] finds is the leftmost one. *)
Lemma find_section_leftmost response before section rest a marker b :
  find_section response = Some (before, section, rest) →
  is_marker marker → response = a +:+ marker +:+ b →
  String.length before ≤ String.length a.
Proof.
  revert before a. induction response as [|c r IH]; intros before a; [done|].
  rewrite find_section_cons.
  destruct (match_marker (String c r)) as [after_colon|] eqn:Hm.
  - destruct (take_section after_colon). intros [= <- <- <-] _ _. simpl. lia.
  - destruct (find_section r) as [[[before' section'] rest']|] eqn:Hr; [|done].
    intros [= <- <- <-] Hmarker Hresp.
    destruct a as [|x a].
    + rewrite string_app_nil_l in Hresp.
      rewrite Hresp, match_marker_complete in Hm by done. discriminate.
    + rewrite string_app_cons in Hresp. injection Hresp as _ Hresp.
      simpl. apply le_n_S. by apply (IH before' a).
Qed.

(** C3, as amended.  When the text holds a marker ([#], the word
    HASHTAGS in any case and a colon, white space allowed between them),
    the extractor takes the section that runs from the leftmost marker to
    the first place followed by an empty line or by the end of the text;
    the tags are all the tokens that commas and white space leave of that
    section, whole, each given a [#] when it has none; the content is
    the text without marker and section, trimmed.  When the text holds
    no marker the content is the text as it came. *)
Theorem extractHashtagsFromResponse_labeled_section (response : string) :
  (∀ a marker b,
     is_marker marker → response = a +:+ marker +:+ b →
     ∃ before marker' section rest,
       is_marker marker' ∧
       response = before +:+ marker' +:+ section +:+ rest ∧
       String.length before ≤ String.length a ∧
       at_section_end rest = true ∧
       (∀ s1 s2, section = s1 +:+ s2 → s2 ≠ EmptyString →
                 at_section_end (s2 +:+ rest) = false) ∧
       content (extractHashtagsFromResponse response) = trim (before +:+ rest) ∧
       hashtags (extractHashtagsFromResponse response) = ensure_hash <$> tokens section) ∧
  ((∀ a marker b, is_marker marker → response ≠ a +:+ marker +:+ b) →
     content (extractHashtagsFromResponse response) = response ∧
     hashtags (extractHashtagsFromResponse response)
     = dedup_first (match_hashtags response)).
Proof.
  split.
  - intros a marker b Hmarker Hresp.
    pose proof (find_section_complete response a marker b Hmarker Hresp) as Hsome.
    destruct (find_section response) as [[[before section] rest]|] eqn:Hfind; [|done].
    destruct (find_section_sound _ _ _ _ Hfind) as [(marker' & Hmarker' & Hsplit) Hend].
    exists before, marker', section, rest.
    split; [done|]. split; [done|].
    split;
      [exact (find_section_leftmost _ _ _ _ _ _ _ Hfind Hmarker Hresp)|].
    split; [done|].
    split.
    + intros s1 s2 Hs Hs2.
      assert (∃ after_colon, take_section after_colon = (section, rest))
        as [after_colon Htake].
      { clear -Hfind. revert before Hfind.
        induction response as [|c r IH]; intros before; [done|].
        rewrite find_section_cons.
        destruct (match_marker (String c r)) as [after_colon|].
        - destruct (take_section after_colon) as [s t] eqn:Ht.
          intros [= <- <- <-]. by exists after_colon.
        - destruct (find_section r) as [[[before' section'] rest']|]; [|done].
          intros [= <- <- <-]. by apply (IH before'). }
      by apply (take_section_shortest after_colon section rest s1 s2).
    + unfold extractHashtagsFromResponse. rewrite Hfind. simpl.
      split; [done|]. apply labeled_hashtags.
  - intros Hnone. unfold extractHashtagsFromResponse.
    destruct (find_section response) as [[[before section] rest]|] eqn:Hfind; [|done].
    destruct (find_section_sound _ _ _ _ Hfind) as [(marker & Hmarker & Hsplit) _].
    by destruct (Hnone before marker (section +:+ rest) Hmarker).
Qed.

Lemma is_marker_plain : is_marker "#HASHTAGS:".
Proof. by exists "", "HASHTAGS", "". Qed.

Lemma extractHashtagsFromResponse_labeled_section_witness :
  ∃ before marker' section rest,
    is_marker marker' ∧
    "Done. #HASHTAGS: tag1, #a.b" = before +:+ marker' +:+ section +:+ rest ∧
    String.length before ≤ String.length "Done. " ∧
    at_section_end rest = true ∧
    (∀ s1 s2, section = s1 +:+ s2 → s2 ≠ EmptyString →
              at_section_end (s2 +:+ rest) = false) ∧
    content (extractHashtagsFromResponse "Done. #HASHTAGS: tag1, #a.b")
    = trim (before +:+ rest) ∧
    hashtags (extractHashtagsFromResponse "Done. #HASHTAGS: tag1, #a.b")
    = ensure_hash <$> tokens section.
Proof.
  apply (proj1 (extractHashtagsFromResponse_labeled_section
                  "Done. #HASHTAGS: tag1, #a.b")
               "Done. " "#HASHTAGS:" " tag1, #a.b").
  - exact is_marker_plain.
  - reflexivity.
Defined.

(** C3 as it was stated fails on a section with a bare token and a
    token that holds a dot: the extractor keeps [tag1], as [#tag1], and
    keeps [#a.b] whole, where the statement keeps [#a] alone. *)
Lemma extractHashtagsFromResponse_keeps_every_token :
  find_section "#HASHTAGS: tag1, #a.b" = Some ("", " tag1, #a.b", "") ∧
  hashtags (extractHashtagsFromResponse "#HASHTAGS: tag1, #a.b")
  = ["#tag1"; "#a.b"] ∧
  labeled_tags " tag1, #a.b" = ["#a"] ∧
  hashtags (extractHashtagsFromResponse "#HASHTAGS: tag1, #a.b")
  ≠ labeled_tags " tag1, #a.b".
Proof. repeat split; [vm_compute; reflexivity..|]. vm_compute. discriminate. Qed.

End extractor_claims.

(** ** Characters, case and the exclusion test *)

Section exclusion_facts.
Import TagUtils HashtagService Provenance.

Lemma lower_char_idem c : lower_char (lower_char c) = lower_char c.
Proof. destruct c as [[] [] [] [] [] [] [] []]; reflexivity. Qed.

Lemma is_space_lower_char c : is_space (lower_char c) = is_space c.
Proof. destruct c as [[] [] [] [] [] [] [] []]; reflexivity. Qed.

Lemma lower_char_not_hash c :
  Ascii.eqb c "#" = false → Ascii.eqb (lower_char c) "#" = false.
Proof. destruct c as [[] [] [] [] [] [] [] []]; by vm_compute. Qed.



Lemma toLowerCase_idem s : toLowerCase (toLowerCase s) = toLowerCase s.
Proof.
  induction s as [|c r IH]; [done|]. simpl. by rewrite lower_char_idem, IH.
Qed.

Lemma toLowerCase_trimStart s : toLowerCase (trimStart s) = trimStart (toLowerCase s).
Proof.
  induction s as [|c r IH]; [done|]. simpl. rewrite is_space_lower_char.
  by destruct (is_space c).
Qed.

Lemma toLowerCase_trimEnd s : toLowerCase (trimEnd s) = trimEnd (toLowerCase s).
Proof.
  induction s as [|c r IH]; [done|].
  change (toLowerCase (String c r)) with (String (lower_char c) (toLowerCase r)).
  rewrite !trimEnd_cons, <- IH, is_space_lower_char.
  destruct (trimEnd r); [by destruct (is_space c)|done].
Qed.

Lemma toLowerCase_trim s : toLowerCase (trim s) = trim (toLowerCase s).
Proof. unfold trim. by rewrite toLowerCase_trimEnd, toLowerCase_trimStart. Qed.



(** *** Plain words *)

Lemma every_impl (P Q : ascii → bool) s :
  (∀ c, P c = true → Q c = true) → every P s = true → every Q s = true.
Proof.
  intros HPQ. induction s as [|c r IH]; [done|]. simpl.
  intros [Hc Hr]%andb_true_iff. by rewrite (HPQ c Hc), IH.
Qed.








(** What the pipeline does to a candidate [#w] with a plain [w]. *)






End exclusion_facts.

(** ** Where the candidates come from *)

Section candidates.
Import TagUtils HashtagService Provenance.

Lemma scan_hashtags_cons c r in_run :
  scan_hashtags (String c r) in_run =
  if in_run && is_tag_char c then
    let '(run, later) := scan_hashtags r true in (String c run, later)
  else if Ascii.eqb c "#" then
    let '(run, later) := scan_hashtags r true in
    (EmptyString, if is_empty run then later else ("#" +:+ run) :: later)
  else
    let '(_, later) := scan_hashtags r false in (EmptyString, later).
Proof. reflexivity. Qed.

(** Every match of the inline expression is a [#] and a run of tag
    characters that is not empty. *)
Lemma scan_hashtags_spec text in_run :
  every is_tag_char (scan_hashtags text in_run).1 = true ∧
  Forall (λ m, ∃ w, m = "#" +:+ w ∧ w ≠ EmptyString ∧ every is_tag_char w = true)
         (scan_hashtags text in_run).2.
Proof.
  revert in_run. induction text as [|c r IH]; intros in_run; [by split|].
  rewrite scan_hashtags_cons.
  destruct (in_run && is_tag_char c) eqn:Hrun.
  - destruct (IH true) as [Hr Hl]. destruct (scan_hashtags r true) as [run later].
    simpl in *. apply andb_true_iff in Hrun as [_ Hc]. by rewrite Hc, Hr.
  - destruct (Ascii.eqb c "#").
    + destruct (IH true) as [Hr Hl]. destruct (scan_hashtags r true) as [run later].
      simpl in *. split; [done|].
      destruct (is_empty run) eqn:He; [done|].
      constructor; [|done]. exists run. by apply is_empty_false in He.
    + destruct (IH false) as [Hr Hl]. by destruct (scan_hashtags r false).
Qed.


Lemma dedup_first_subseteq l x : x ∈ dedup_first l → x ∈ l.
Proof.
  revert x. induction l as [|y l IH]; intros x; [done|]. simpl.
  intros [->|Hx]%elem_of_cons; [by left|].
  apply list_elem_of_filter in Hx as [_ Hx]. right. by apply IH.
Qed.


(** *** Keywords *)

Lemma split_ws_cons c r in_sep :
  split_ws (String c r) in_sep =
  if is_space c then
    if in_sep then split_ws r true else EmptyString :: split_ws r true
  else
    match split_ws r false with
    | t :: ts => String c t :: ts
    | [] => [String c EmptyString]
    end.
Proof. reflexivity. Qed.

(** The tokens of [split(/\s+/)] are made of the characters of the text
    that are not white space. *)
Lemma split_ws_every (Q : ascii → bool) s in_sep :
  every (λ c, Q c || is_space c) s = true →
  Forall (λ t, every (λ c, Q c && negb (is_space c)) t = true) (split_ws s in_sep).
Proof.
  revert in_sep. induction s as [|c r IH]; intros in_sep.
  - intros _. by repeat constructor.
  - simpl every. intros [Hc Hr]%andb_true_iff. rewrite split_ws_cons.
    destruct (is_space c) eqn:Hs.
    + destruct in_sep; [by apply IH|]. constructor; [done|by apply IH].
    + specialize (IH false Hr). rewrite orb_false_r in Hc.
      destruct (split_ws r false) as [|t ts].
      * repeat constructor. simpl. by rewrite Hc, Hs.
      * inversion IH as [|? ? Ht Hts]; subst. constructor; [|done].
        simpl. by rewrite Hc, Hs, Ht.
Qed.



Lemma insert_sorted_elem words x l y :
  y ∈ insert_sorted words x l → y = x ∨ y ∈ l.
Proof.
  induction l as [|z l IH]; simpl.
  - intros ->%list_elem_of_singleton. by left.
  - destruct (counted_before words z x).
    + intros [->|Hy]%elem_of_cons; [right; by left|].
      destruct (IH Hy) as [->|Hl]; [by left|right; by right].
    + intros [->|Hy]%elem_of_cons; [by left|by right].
Qed.


Lemma insert_index_elem key l y :
  y ∈ insert_index key l → y = key ∨ y ∈ l.
Proof.
  induction l as [|k l IH]; simpl.
  - intros ->%list_elem_of_singleton. by left.
  - destruct (array_index key) as [n|]; [destruct (array_index k) as [m|]|];
      [destruct (m <? n)%N|..].
    + intros [->|Hy]%elem_of_cons; [right; by left|].
      destruct (IH Hy) as [->|Hl]; [by left|right; by right].
    + intros [->|Hy]%elem_of_cons; [by left|by right].
    + intros [->|Hy]%elem_of_cons; [by left|by right].
    + intros [->|Hy]%elem_of_cons; [by left|by right].
Qed.

Lemma wordCount_keys_subseteq words y :
  y ∈ wordCount_keys words → y ∈ dedup_first words.
Proof.
  unfold wordCount_keys. intros [Hy|Hy]%elem_of_app.
  - assert (∀ l, y ∈ foldr insert_index [] l → y ∈ l) as Hsorted.
    { induction l as [|k l IH]; simpl; [done|].
      intros [->|Hl]%insert_index_elem; [by left|]. right. by apply IH. }
    apply Hsorted in Hy. apply list_elem_of_filter in Hy as [_ Hy].
    by apply list_elem_of_filter in Hy as [_ Hy].
  - apply list_elem_of_filter in Hy as [_ Hy].
    by apply list_elem_of_filter in Hy as [_ Hy].
Qed.


End candidates.

(** ** The exclusion filter and what is returned *)

Section exclusion_pipeline.
Import TagUtils ResolverSpec HashtagService Provenance.

Lemma processHashtags_strings db (candidates : list string) :
  processHashtags db (VArr (VStr <$> candidates)) =
  Returns (VStr <$>
    let normalized :=
      filter longer_than_1 ((λ s, ensure_hash (trim s)) <$> candidates) in
    match blocked_tags db, tag_synonyms db with
    | Returns blockedRows, Returns synonymRows =>
        add_default
          (resolve_once (includes (blockedTags blockedRows))
             (synonym_of (tagSynonyms synonymRows)) cleanTag_of normalized)
          normalized
    | _, _ => normalized
    end).
Proof.
  rewrite processHashtags_array.
  destruct (blocked_tags db) as [blockedRows|] eqn:Hb;
    [destruct (tag_synonyms db) as [synonymRows|] eqn:Hs|].
  - by rewrite (originalProcessHashtags_ok db blockedRows synonymRows _ _ Hb Hs
                  (normalizedTags_strings candidates)).
  - destruct candidates as [|c l]; [done|].
    unfold originalProcessHashtags. rewrite fmap_cons.
    rewrite resolve_throws by (by right). simpl try_catch.
    rewrite <- (fmap_cons VStr c l). by rewrite fallbackTags_strings.
  - destruct candidates as [|c l]; [done|].
    unfold originalProcessHashtags. rewrite fmap_cons.
    rewrite resolve_throws by (by left). simpl try_catch.
    rewrite <- (fmap_cons VStr c l). by rewrite fallbackTags_strings.
Qed.


Lemma dedup_ci_subseteq l x : x ∈ dedup_ci l → x ∈ l.
Proof.
  revert x. induction l as [|y l IH]; intros x; [done|]. simpl.
  intros [->|Hx]%elem_of_cons; [by left|].
  apply list_elem_of_filter in Hx as [_ Hx]. right. by apply IH.
Qed.

Lemma add_default_elem processed normalized x :
  x ∈ add_default processed normalized → x ∈ processed ∨ x = "#conversation".
Proof.
  unfold add_default. destruct (_ && _); [|by left].
  intros [Hx|Hx]%elem_of_app; [by left|].
  apply list_elem_of_singleton in Hx. by right.
Qed.









End exclusion_pipeline.

Section exclusion_claims.
Import TagUtils ResolverSpec HashtagService Provenance Examples.






End exclusion_claims.

Section exclusion_theorem.
Import TagUtils ResolverSpec HashtagService Provenance Examples.






End exclusion_theorem.

(** ** The streaming response assembler *)

Section assembler.
Import Streaming Examples.
Variable JSON_parse : string → completion JSValue.

Local Abbreviation nl := (String "010" EmptyString).

Lemma scan_cons c r segment st :
  scan JSON_parse (String c r) segment st =
  if Ascii.eqb c "010" then
    let '(st1, effects1) := process_segment JSON_parse st segment in
    let '(st2, effects2) := scan JSON_parse r EmptyString st1 in
    (st2, effects1 ++ effects2)
  else scan JSON_parse r (segment +:+ String c EmptyString) st.
Proof. reflexivity. Qed.

Lemma scan_nil segment st :
  scan JSON_parse EmptyString segment st = (set_buffer st segment, []).
Proof. reflexivity. Qed.

Lemma buffer_set_buffer st b : buffer (set_buffer st b) = b.
Proof. reflexivity. Qed.

(** The record handling reads and writes the other variables only. *)
Lemma handle_record_set_buffer st b data :
  handle_record (set_buffer st b) data =
  match handle_record st data with
  | Returns (st', effects) => Returns (set_buffer st' b, effects)
  | Throws => Throws
  end.
Proof.
  unfold handle_record.
  destruct (get_field data "response") as [response|]; [|done]. simpl.
  destruct (Js.truthy response).
  - destruct (Js.toString response) as [text|]; [|done]. simpl.
    destruct (get_field data "done") as [d|]; [|done]. simpl.
    by destruct (Js.truthy d).
  - simpl. destruct (get_field data "done") as [d|]; [|done]. simpl.
    by destruct (Js.truthy d).
Qed.

Lemma process_segment_set_buffer st b segment :
  process_segment JSON_parse (set_buffer st b) segment =
  let '(st', effects) := process_segment JSON_parse st segment in
  (set_buffer st' b, effects).
Proof.
  unfold process_segment. destruct (is_empty (trim segment)); [done|].
  destruct (JSON_parse (trim segment)) as [data|]; [|done]. simpl.
  rewrite handle_record_set_buffer.
  by destruct (handle_record st data) as [[st' effects]|].
Qed.

(** The loop sets [buffer] at its end, whatever it held. *)
Lemma scan_set_buffer rest segment st b :
  scan JSON_parse rest segment (set_buffer st b) = scan JSON_parse rest segment st.
Proof.
  revert segment st. induction rest as [|c r IH]; intros segment st; [done|].
  rewrite !scan_cons. destruct (Ascii.eqb c "010"); [|apply IH].
  rewrite process_segment_set_buffer.
  destruct (process_segment JSON_parse st segment) as [st1 effects1].
  by rewrite IH.
Qed.

(** A segment and its newline. *)
Lemma scan_segment line rest segment st :
  no_newline line = true →
  scan JSON_parse (line +:+ nl +:+ rest) segment st =
  let '(st1, effects1) := process_segment JSON_parse st (segment +:+ line) in
  let '(st2, effects2) := scan JSON_parse rest EmptyString st1 in
  (st2, effects1 ++ effects2).
Proof.
  revert segment. induction line as [|c line IH]; intros segment Hline.
  - rewrite string_app_nil_l, string_app_nil_r.
    change (nl +:+ rest) with (String "010" rest). by rewrite scan_cons.
  - simpl in Hline. apply andb_true_iff in Hline as [Hc Hline].
    apply negb_true_iff in Hc.
    rewrite string_app_cons, scan_cons, Hc, IH by done.
    by rewrite string_app_assoc.
Qed.

(** Text without a newline stays in the segment. *)
Lemma scan_no_newline tail segment st :
  no_newline tail = true →
  scan JSON_parse tail segment st = (set_buffer st (segment +:+ tail), []).
Proof.
  revert segment. induction tail as [|c tail IH]; intros segment Htail.
  - by rewrite string_app_nil_r.
  - simpl in Htail. apply andb_true_iff in Htail as [Hc Htail].
    apply negb_true_iff in Hc. rewrite scan_cons, Hc, IH by done.
    by rewrite string_app_assoc.
Qed.

(** Whole lines first, the rest after them. *)
Lemma scan_lines p rest segment st :
  scan JSON_parse (p +:+ nl +:+ rest) segment st =
  let '(st1, effects1) := scan JSON_parse (p +:+ nl) segment st in
  let '(st2, effects2) := scan JSON_parse rest EmptyString st1 in
  (st2, effects1 ++ effects2).
Proof.
  revert segment st. induction p as [|c p IH]; intros segment st.
  - rewrite !string_app_nil_l. change (nl +:+ rest) with (String "010" rest).
    rewrite !scan_cons. simpl Ascii.eqb. cbv iota.
    destruct (process_segment JSON_parse st segment) as [st1 effects1].
    rewrite scan_nil. cbv beta iota. rewrite scan_set_buffer.
    destruct (scan JSON_parse rest "" st1) as [st2 effects2].
    by rewrite app_nil_r.
  - rewrite !(string_app_cons c p), !scan_cons.
    destruct (Ascii.eqb c "010"); [|apply IH].
    destruct (process_segment JSON_parse st segment) as [st1 effects1].
    rewrite (IH EmptyString st1).
    destruct (scan JSON_parse (p +:+ nl) "" st1) as [st2 effects2].
    destruct (scan JSON_parse rest "" st2) as [st3 effects3].
    by rewrite app_assoc.
Qed.

Lemma scan_whole_lines lines rest st :
  whole_lines lines →
  scan JSON_parse (lines +:+ rest) EmptyString st =
  let '(st1, effects1) := scan JSON_parse lines EmptyString st in
  let '(st2, effects2) := scan JSON_parse rest EmptyString st1 in
  (st2, effects1 ++ effects2).
Proof.
  intros [->|[p ->]].
  - rewrite string_app_nil_l, scan_nil. cbv beta iota.
    rewrite scan_set_buffer. by destruct (scan JSON_parse rest "" st).
  - rewrite string_app_assoc. apply scan_lines.
Qed.


(** *** What stays in the buffer *)

Lemma split_at_last_newline x :
  ∃ consumed tail,
    x = consumed +:+ tail ∧ whole_lines consumed ∧ no_newline tail = true.
Proof.
  induction x as [|c r (consumed & tail & -> & Hwhole & Htail)].
  - exists EmptyString, EmptyString. split; [done|]. split; [by left|done].
  - destruct Hwhole as [->|[p ->]].
    + rewrite string_app_nil_l. destruct (Ascii.eqb c "010") eqn:Hc.
      * apply Ascii.eqb_eq in Hc as ->. exists nl, tail.
        split; [done|]. split; [|done]. right. by exists EmptyString.
      * exists EmptyString, (String c tail). split; [done|].
        split; [by left|]. unfold no_newline in *. simpl. by rewrite Hc.
    + exists (String c p +:+ nl), tail. split; [done|]. split; [|done].
      right. by exists (String c p).
Qed.

Lemma scan_decompose consumed tail st :
  whole_lines consumed → no_newline tail = true →
  scan JSON_parse (consumed +:+ tail) EmptyString st =
  let '(st1, effects1) := scan JSON_parse consumed EmptyString st in
  (set_buffer st1 tail, effects1).
Proof.
  intros Hwhole Htail. rewrite scan_whole_lines by done.
  destruct (scan JSON_parse consumed "" st) as [st1 effects1].
  rewrite scan_no_newline by done. by rewrite string_app_nil_l, app_nil_r.
Qed.

Lemma on_data_unconsumed st chunk :
  is_unconsumed_tail (buffer st +:+ chunk)
    (buffer (on_data JSON_parse st chunk).1).
Proof.
  unfold on_data.
  destruct (split_at_last_newline (buffer st +:+ chunk))
    as (consumed & tail & -> & Hwhole & Htail).
  rewrite scan_decompose by done.
  destruct (scan JSON_parse consumed "" st) as [st1 effects1]. simpl.
  split; [done|]. by exists consumed.
Qed.

Lemma set_buffer_same st : set_buffer st (buffer st) = st.
Proof. by destruct st. Qed.

(** However the text is cut into chunks, the handler ends in the state,
    and has had the effects, of the text handed over at once. *)
Lemma on_chunks_on_data st chunks :
  no_newline (buffer st) = true →
  on_chunks JSON_parse st chunks = on_data JSON_parse st (received chunks).
Proof.
  revert st. induction chunks as [|chunk later IH]; intros st Hst.
  - simpl. unfold on_data. rewrite string_app_nil_r, scan_no_newline by done.
    by rewrite string_app_nil_l, set_buffer_same.
  - simpl on_chunks. simpl received.
    pose proof (on_data_unconsumed st chunk) as [Hb _].
    unfold on_data in *. rewrite <- string_app_assoc.
    destruct (split_at_last_newline (buffer st +:+ chunk))
      as (consumed & tail & -> & Hwhole & Htail).
    rewrite scan_decompose in * by done.
    rewrite string_app_assoc, scan_whole_lines by done.
    destruct (scan JSON_parse consumed "" st) as [st1 effects1].
    rewrite IH by done. unfold on_data.
    rewrite buffer_set_buffer, scan_set_buffer.
    by destruct (scan JSON_parse (tail +:+ received later) "" st1).
Qed.

(** C9.  After every arrival the buffer holds what follows the last
    newline of the old buffer and the chunk together, and so, from the
    start of the stream, what follows the last newline of all the text
    received: an incomplete last segment is kept.  Cutting the text into
    other chunks changes neither the final state nor the effects. *)
Theorem parse_buffer_keeps_incomplete_segment :
  (∀ st chunk,
     is_unconsumed_tail (buffer st +:+ chunk)
       (buffer (on_data JSON_parse st chunk).1)) ∧
  (∀ chunks,
     is_unconsumed_tail (received chunks)
       (buffer (on_chunks JSON_parse initial_state chunks).1)) ∧
  (∀ chunks,
     on_chunks JSON_parse initial_state chunks
     = on_data JSON_parse initial_state (received chunks)).
Proof.
  split; [exact on_data_unconsumed|]. split.
  - intros chunks. rewrite on_chunks_on_data by done.
    apply (on_data_unconsumed initial_state).
  - intros chunks. by apply on_chunks_on_data.
Qed.

(** C8.  A segment that [JSON.parse] rejects is logged and left out:
    the handler ends in the state, and has the other effects, that it
    would have without the segment and its newline, so that the segments
    after it and the chunks after this one are handled as usual. *)
Theorem malformed_segment_is_discarded st chunk before bad after :
  buffer st +:+ chunk = before +:+ bad +:+ nl +:+ after →
  whole_lines before →
  no_newline bad = true →
  is_empty (trim bad) = false →
  JSON_parse (trim bad) = Throws →
  ∃ st' effects1 effects2,
    on_data JSON_parse st chunk
    = (st', effects1 ++ LogParseError (trim bad) :: effects2) ∧
    on_data JSON_parse (set_buffer st EmptyString) (before +:+ after)
    = (st', effects1 ++ effects2).
Proof.
  intros Heq Hwhole Hbad Hne Hthrows. unfold on_data.
  rewrite Heq, buffer_set_buffer, string_app_nil_l, scan_set_buffer.
  rewrite !scan_whole_lines by done.
  destruct (scan JSON_parse before "" st) as [st1 effects1].
  rewrite scan_segment by done. rewrite string_app_nil_l.
  unfold process_segment. rewrite Hne, Hthrows. simpl mbind. cbv iota beta.
  destruct (scan JSON_parse after "" st1) as [st2 effects2].
  by exists st2, effects1, effects2.
Qed.


(** *** The connection *)

Lemma on_data_line st line :
  buffer st = EmptyString → no_newline line = true →
  on_data JSON_parse st (line +:+ nl) =
  let '(st1, effects1) := process_segment JSON_parse st line in
  (set_buffer st1 EmptyString, effects1).
Proof.
  intros Hb Hline. unfold on_data. rewrite Hb, string_app_nil_l.
  rewrite <- (string_app_nil_r nl), scan_segment by done.
  rewrite string_app_nil_l.
  destruct (process_segment JSON_parse st line) as [st1 effects1].
  by rewrite scan_nil, app_nil_r.
Qed.

Lemma process_line st line data :
  trim line = line → is_empty line = false →
  JSON_parse line = Returns data →
  process_segment JSON_parse st line =
  match handle_record st data with
  | Returns r => r
  | Throws => (st, [LogParseError line])
  end.
Proof.
  intros Htrim Hne Hparse. unfold process_segment.
  by rewrite Htrim, Hne, Hparse.
Qed.

Lemma run_cons c o os :
  run JSON_parse c (o :: os) = occur JSON_parse c o ≫= λ c1, run JSON_parse c1 os.
Proof. reflexivity. Qed.

(** With nothing started, only a chunk can come next. *)
Lemma run_data_next c os chunk later c' :
  finalizing c = [] → extracting c = [] →
  chunks_of os = chunk :: later →
  run JSON_parse c os = Some c' →
  ∃ os' c1,
    occur JSON_parse c (DataArrives chunk) = Some c1 ∧
    chunks_of os' = later ∧ run JSON_parse c1 os' = Some c'.
Proof.
  intros Hf He Hchunks Hrun. destruct os as [|o os]; [done|].
  rewrite run_cons in Hrun. destruct o as [chunk'|i db|i tags].
  - injection Hchunks as -> Hlater.
    destruct (occur JSON_parse c (DataArrives chunk)) as [c1|] eqn:Hc1; [|done].
    by exists os, c1.
  - unfold occur in Hrun. by rewrite Hf in Hrun.
  - unfold occur in Hrun. by rewrite He in Hrun.
Qed.

(** With nothing started and no chunk to come, nothing happens. *)
Lemma run_idle c os c' :
  finalizing c = [] → extracting c = [] →
  chunks_of os = [] →
  run JSON_parse c os = Some c' → c' = c.
Proof.
  intros Hf He Hchunks Hrun. destruct os as [|o os].
  - by injection Hrun as <-.
  - rewrite run_cons in Hrun. destruct o as [chunk'|i db|i tags]; [done|..];
      unfold occur in Hrun; [by rewrite Hf in Hrun|by rewrite He in Hrun].
Qed.

(** C1.  Whatever [JSON.parse] is, provided it reads the three lines of
    the sample as the records they are: in every course of events in
    which the upstream delivers the three chunks, in their order, and
    every finalization that was started has finished, the client has
    received the fragment [Hel], then the fragment [lo], then one terminal
    notification and nothing else; the text handed to the finalization,
    and saved, is [Hello]. *)
Theorem sample_stream_is_delivered_in_order os c :
  JSON_parse line_Hel = Returns (VObj [("response", VStr "Hel")]) →
  JSON_parse line_lo = Returns (VObj [("response", VStr "lo")]) →
  JSON_parse line_done = Returns (VObj [("done", VBool true)]) →
  chunks_of os = [chunk_Hel; chunk_lo; chunk_done] →
  run JSON_parse initial_connection os = Some c →
  finalizing c = [] →
  ∃ db,
    let finalTags := HashtagService.hashtags
                       (HashtagService.extractHashtags db (VStr "Hello") 5) in
    emitted c = [Fragment (VStr "Hel"); Fragment (VStr "lo"); Terminal finalTags] ∧
    message_chunks (emitted c) = emitted c ∧
    saved c = [("Hello", finalTags)] ∧
    fullResponse (stream c) = "Hello" ∧
    buffer (stream c) = EmptyString.
Proof.
  intros HHel Hlo Hdone Hchunks Hrun Hfin.
  edestruct run_data_next as (os1 & c1 & Hc1 & Hchunks1 & Hrun1);
    [ | | exact Hchunks | exact Hrun | ]; [reflexivity..|].
  unfold occur, chunk_Hel in Hc1.
  rewrite on_data_line, (process_line _ line_Hel _ eq_refl eq_refl HHel) in Hc1 by done.
  injection Hc1 as <-.
  edestruct run_data_next as (os2 & c2 & Hc2 & Hchunks2 & Hrun2);
    [ | | exact Hchunks1 | exact Hrun1 | ]; [reflexivity..|].
  unfold occur, chunk_lo in Hc2.
  rewrite on_data_line, (process_line _ line_lo _ eq_refl eq_refl Hlo) in Hc2 by done.
  injection Hc2 as <-.
  edestruct run_data_next as (os3 & c3 & Hc3 & Hchunks3 & Hrun3);
    [ | | exact Hchunks2 | exact Hrun2 | ]; [reflexivity..|].
  unfold occur, chunk_done in Hc3.
  rewrite on_data_line, (process_line _ line_done _ eq_refl eq_refl Hdone) in Hc3 by done.
  injection Hc3 as <-.
  destruct os3 as [|o os4].
  - injection Hrun3 as <-. discriminate Hfin.
  - rewrite run_cons in Hrun3. destruct o as [chunk'|i db|i tags]; [done| |done].
    destruct i as [|i]; [|done].
    apply run_idle in Hrun3; [|done..]. subst c. by exists db.
Qed.

End assembler.

Section assembler_witnesses.
Import Streaming Examples.

Lemma sample_stream_is_delivered_in_order_witness :
  ∃ c,
    run sample_parse initial_connection
      [DataArrives chunk_Hel; DataArrives chunk_lo; DataArrives chunk_done;
       FinalizationDone 0 chain_db] = Some c ∧
    ∃ db,
      let finalTags := HashtagService.hashtags
                         (HashtagService.extractHashtags db (VStr "Hello") 5) in
      emitted c = [Fragment (VStr "Hel"); Fragment (VStr "lo"); Terminal finalTags] ∧
      message_chunks (emitted c) = emitted c ∧
      saved c = [("Hello", finalTags)] ∧
      fullResponse (stream c) = "Hello" ∧
      buffer (stream c) = EmptyString.
Proof.
  eexists. split; [vm_compute; reflexivity|].
  apply (sample_stream_is_delivered_in_order sample_parse
           [DataArrives chunk_Hel; DataArrives chunk_lo; DataArrives chunk_done;
            FinalizationDone 0 chain_db]);
    vm_compute; reflexivity.
Defined.

Lemma malformed_segment_is_discarded_witness :
  ∃ st' effects1 effects2,
    on_data sample_parse initial_state (chunk_Hel +:+ "garbage" +:+ newline +:+ chunk_lo)
    = (st', effects1 ++ LogParseError (trim "garbage") :: effects2) ∧
    on_data sample_parse (set_buffer initial_state "") (chunk_Hel +:+ chunk_lo)
    = (st', effects1 ++ effects2).
Proof.
  apply (malformed_segment_is_discarded sample_parse initial_state
           (chunk_Hel +:+ "garbage" +:+ newline +:+ chunk_lo)
           chunk_Hel "garbage" chunk_lo).
  - reflexivity.
  - right. by exists line_Hel.
  - reflexivity.
  - reflexivity.
  - reflexivity.
Defined.

End assembler_witnesses.

(** ** The examples of the design (§8) *)

Section design_examples.
Import TagUtils HashtagService Streaming Examples.

Example shouldExcludeWord_examples :
  shouldExcludeWord "ai" = true ∧
  shouldExcludeWord "2024" = true ∧
  shouldExcludeWord "database" = false.
Proof. by vm_compute. Qed.

Example inline_tags_leave_content :
  extractHashtagsFromResponse "Great talk about #Kubernetes and #scaling today"
  = {| content := "Great talk about #Kubernetes and #scaling today";
       hashtags := ["#Kubernetes"; "#scaling"] |}.
Proof. by vm_compute. Qed.

Example inline_tags_resolved :
  hashtags (extractHashtags chain_db
              (VStr "Great talk about #Kubernetes and #scaling today") 5)
  = ["#kubernetes"; "#scaling"].
Proof. by vm_compute. Qed.

Example user_message_tags :
  generateUserMessageHashtags chain_db (VStr "Tell me about #graphql caching") 5 0
  = ["#graphql"].
Proof. by vm_compute. Qed.

Example blocked_candidate_falls_back :
  processHashtags chain_db (VArr [VStr "#spam"]) = Returns [VStr "#conversation"].
Proof. by vm_compute. Qed.

Example duplicates_removed_without_case :
  processHashtags chain_db (VArr [VStr "#a"; VStr "#a"; VStr "#A"])
  = Returns [VStr "#a"].
Proof. by vm_compute. Qed.

(** A candidate named like a property of [Object.prototype] is replaced
    by what the lookup in the synonym object finds there. *)
Example prototype_property_as_synonym :
  processHashtags chain_db (VArr [VStr "#constructor"])
  = Returns [VStr "#function Object() { [native code] }"].
Proof. by vm_compute. Qed.

Example sample_stream_state :
  on_chunks sample_parse initial_state [chunk_Hel; chunk_lo; chunk_done]
  = ({| fullResponse := "Hello"; chunkCount := 2;
        contentExtracted := false; buffer := "" |},
     [EmitFragment (VStr "Hel"); EmitFragment (VStr "lo");
      CallProcessCompletedResponse "Hello"]).
Proof. by vm_compute. Qed.

End design_examples.

(** * Further properties of the embedded code *)

(** ** The tag reuse resolver: what it returns *)

Section resolver_properties.
Import TagUtils ResolverSpec HashtagService Examples.

Lemma trimStart_trimmed w : trimEnd w = w → trimEnd (trimStart w) = trimStart w.
Proof.
  induction w as [|c r IH]; [done|]. intros Hw.
  change (trimStart (String c r)) with (if is_space c then trimStart r else String c r).
  destruct (is_space c); [|done]. apply IH. by apply trimEnd_fixed_tail in Hw.
Qed.

Lemma trimStart_trimmed_nonempty w :
  w ≠ EmptyString → trimEnd w = w → trimStart w ≠ EmptyString.
Proof.
  induction w as [|c r IH]; [done|]. intros _ Hw.
  change (trimStart (String c r)) with (if is_space c then trimStart r else String c r).
  destruct (is_space c) eqn:Hc; [|done].
  apply IH; [|by apply trimEnd_fixed_tail in Hw].
  intros ->. rewrite trimEnd_cons in Hw. simpl in Hw. by rewrite Hc in Hw.
Qed.

Lemma trim_trimmed_nonempty w :
  w ≠ EmptyString → trimEnd w = w → trim w ≠ EmptyString.
Proof.
  intros Hne Hw. unfold trim. rewrite trimStart_trimmed by done.
  by apply trimStart_trimmed_nonempty.
Qed.

Lemma toLowerCase_nonempty s : s ≠ EmptyString → toLowerCase s ≠ EmptyString.
Proof. by destruct s. Qed.

(** A normalized tag that the length filter keeps is a [#] and a
    trimmed text that is not empty. *)
Lemma normalized_tag_shape s :
  longer_than_1 (ensure_hash (trim s)) = true →
  ∃ w, ensure_hash (trim s) = "#" +:+ w ∧ w ≠ EmptyString ∧ trimEnd w = w.
Proof.
  unfold ensure_hash. pose proof (trimEnd_trim s) as Ht.
  destruct (trim s) as [|c r] eqn:Hs.
  - intros H. by vm_compute in H.
  - unfold startsWith_hash. destruct (Ascii.eqb c "#") eqn:Hc.
    + apply Ascii.eqb_eq in Hc as ->. intros Hlen. exists r.
      split; [done|]. split; [by destruct r|]. by apply trimEnd_fixed_tail in Ht.
    + intros _. by exists (String c r).
Qed.

Lemma cleanTag_of_hash w : cleanTag_of ("#" +:+ w) = toLowerCase (trim w).
Proof. reflexivity. Qed.

(** The cleaned name of a kept normalized tag is not empty, and
    cleaning it again changes nothing. *)
Lemma cleanTag_of_normalized w :
  w ≠ EmptyString → trimEnd w = w →
  cleanTag_of ("#" +:+ w) ≠ EmptyString ∧
  trim (cleanTag_of ("#" +:+ w)) = cleanTag_of ("#" +:+ w) ∧
  toLowerCase (cleanTag_of ("#" +:+ w)) = cleanTag_of ("#" +:+ w).
Proof.
  intros Hne Hw. rewrite cleanTag_of_hash. split; [|split].
  - by apply toLowerCase_nonempty, trim_trimmed_nonempty.
  - by rewrite <- toLowerCase_trim, trim_idem.
  - apply toLowerCase_idem.
Qed.

Lemma synonym_of_nonempty syn c better :
  synonym_of syn c = Some better → better ≠ EmptyString.
Proof.
  unfold synonym_of. destruct (syn !! c) as [b|].
  - destruct (is_empty b) eqn:He; [done|]. intros [= <-]. by apply is_empty_false.
  - destruct (String.eqb c "constructor"); [by intros [= <-]|].
    destruct (String.eqb c "__proto__"); [by intros [= <-]|done].
Qed.

Lemma dedup_ci_length l : length (dedup_ci l) ≤ length l.
Proof.
  induction l as [|x l IH]; simpl; [done|].
  pose proof (length_filter (λ y, toLowerCase y ≠ toLowerCase x) (dedup_ci l)). lia.
Qed.

Lemma dedup_ci_NoDup l : NoDup (toLowerCase <$> dedup_ci l).
Proof.
  induction l as [|x l IH]; [constructor|].
  change (dedup_ci (x :: l))
    with (x :: filter (λ y, toLowerCase y ≠ toLowerCase x) (dedup_ci l)).
  rewrite fmap_cons. constructor.
  - intros (y & Hxy & Hy)%list_elem_of_fmap.
    apply list_elem_of_filter in Hy as [Hne _]. by apply Hne.
  - eapply sublist_NoDup; [exact IH|]. apply fmap_sublist, sublist_filter.
Qed.

Lemma add_default_length processed normalized :
  length processed ≤ length normalized →
  length (add_default processed normalized) ≤ length normalized.
Proof.
  unfold add_default. destruct processed as [|p l], normalized as [|n k];
    simpl; lia.
Qed.

Lemma resolve_once_length is_blocked lookup canonical l :
  length (resolve_once is_blocked lookup canonical l) ≤ length l.
Proof.
  unfold resolve_once.
  etransitivity; [apply dedup_ci_length|]. rewrite length_fmap. apply length_filter.
Qed.

Lemma normalized_length (candidates : list string) :
  length (filter longer_than_1 ((λ s, ensure_hash (trim s)) <$> candidates))
  ≤ length candidates.
Proof. etransitivity; [apply length_filter|]. by rewrite length_fmap. Qed.

Lemma normalized_Forall_shape (candidates : list string) :
  Forall (λ t, ∃ w, t = "#" +:+ w ∧ w ≠ EmptyString ∧ trimEnd w = w)
    (filter longer_than_1 ((λ s, ensure_hash (trim s)) <$> candidates)).
Proof.
  apply Forall_forall. intros t [Hlen Ht]%list_elem_of_filter.
  apply list_elem_of_fmap in Ht as (s & -> & _).
  by apply normalized_tag_shape, Is_true_true_1.
Qed.

Lemma processHashtags_strings_bounded (db : Database) (candidates : list string) :
  ∃ tags,
    processHashtags db (VArr (VStr <$> candidates)) = Returns (VStr <$> tags) ∧
    length tags ≤ length candidates ∧
    Forall (λ t, ∃ w, t = "#" +:+ w ∧ w ≠ EmptyString) tags.
Proof.
  rewrite processHashtags_strings. eexists. split; [done|]. cbv zeta.
  pose proof (normalized_length candidates) as Hlen.
  pose proof (normalized_Forall_shape candidates) as Hshape.
  set (normalized := filter longer_than_1 _) in *.
  assert (Forall (λ t, ∃ w, t = "#" +:+ w ∧ w ≠ EmptyString) normalized) as Hn.
  { eapply Forall_impl; [exact Hshape|]. intros t (w & -> & Hw & _). by exists w. }
  destruct (blocked_tags db) as [blockedRows|];
    [destruct (tag_synonyms db) as [synonymRows|]|]; [|done..].
  split.
  - etransitivity; [|exact Hlen]. apply add_default_length, resolve_once_length.
  - apply Forall_forall. intros t [Ht| ->]%add_default_elem;
      [|by exists "conversation"%string].
    unfold resolve_once in Ht. apply dedup_ci_subseteq in Ht.
    apply list_elem_of_fmap in Ht as (c & -> & Hc).
    apply list_elem_of_filter in Hc as [_ Hc].
    rewrite Forall_forall in Hshape. destruct (Hshape c Hc) as (w & -> & Hw & Htrim).
    eexists. split; [done|]. unfold substitute_once.
    destruct (synonym_of _ _) as [better|] eqn:Hsyn.
    + by apply synonym_of_nonempty in Hsyn.
    + by apply cleanTag_of_normalized.
Qed.

(** X1.  Whatever the store answers, the resolver returns, for a list
    of strings, at most as many tags as it was given, and each of them
    is a [#] followed by text that is not empty. *)
Theorem processHashtags_well_formed (db : Database) (candidates : list string) :
  ∃ tags,
    processHashtags db (VArr (VStr <$> candidates)) = Returns (VStr <$> tags) ∧
    length tags ≤ length candidates ∧
    Forall (λ t, ∃ w, t = "#" +:+ w ∧ w ≠ EmptyString) tags.
Proof. apply processHashtags_strings_bounded. Qed.

(** X2.  With both tables read, no two returned tags are the same
    without regard to case. *)
Theorem processHashtags_no_duplicates
    (db : Database) (candidates : list string) blockedRows synonymRows :
  blocked_tags db = Returns blockedRows →
  tag_synonyms db = Returns synonymRows →
  ∃ tags,
    processHashtags db (VArr (VStr <$> candidates)) = Returns (VStr <$> tags) ∧
    NoDup (toLowerCase <$> tags).
Proof.
  intros Hb Hs. rewrite processHashtags_strings, Hb, Hs.
  eexists. split; [done|]. cbv zeta. unfold add_default.
  destruct (_ && _) eqn:Hd; [|apply dedup_ci_NoDup].
  apply andb_true_iff in Hd as [Hd _]. apply Nat.eqb_eq in Hd.
  destruct (resolve_once _ _ _ _); [|done].
  rewrite app_nil_l. apply NoDup_singleton.
Qed.

Lemma processHashtags_no_duplicates_witness :
  ∃ tags,
    processHashtags chain_db (VArr (VStr <$> ["#Rust"; "rust "; "#RUST"; "#go"]))
    = Returns (VStr <$> tags) ∧
    NoDup (toLowerCase <$> tags).
Proof.
  apply (processHashtags_no_duplicates chain_db ["#Rust"; "rust "; "#RUST"; "#go"]
           ["spam"] [("js", "javascript"); ("javascript", "ecmascript")]);
    reflexivity.
Defined.

Lemma dedup_ci_complete l x :
  x ∈ l → ∃ y, y ∈ dedup_ci l ∧ toLowerCase y = toLowerCase x.
Proof.
  induction l as [|z l IH]; [by intros ?%elem_of_nil|].
  change (dedup_ci (z :: l))
    with (z :: filter (λ y, toLowerCase y ≠ toLowerCase z) (dedup_ci l)).
  intros [->|Hx]%elem_of_cons; [exists z; split; [by left|done]|].
  destruct (IH Hx) as (y & Hy & Hyx).
  destruct (decide (toLowerCase y = toLowerCase z)) as [Heq|Hne].
  - exists z. split; [by left|]. by rewrite <- Heq.
  - exists y. split; [|done]. right. by apply list_elem_of_filter.
Qed.

(** X3.  With both tables read, the returned tags are those of the
    candidates that are not blocked: every returned tag, the default
    [#conversation] apart, is made from a candidate whose cleaned name is
    not on the block list, by its synonym if it has one; and every such
    candidate of more than its [#] is returned, or a tag that differs
    from its tag in case only. *)
Theorem processHashtags_keeps_unblocked
    (db : Database) (candidates : list string) blockedRows synonymRows :
  blocked_tags db = Returns blockedRows →
  tag_synonyms db = Returns synonymRows →
  let cleaned c := cleanTag_of (ensure_hash (trim c)) in
  let made c :=
    "#" +:+ default (cleaned c) (synonym_of (tagSynonyms synonymRows) (cleaned c)) in
  ∃ tags,
    processHashtags db (VArr (VStr <$> candidates)) = Returns (VStr <$> tags) ∧
    (∀ t, t ∈ tags →
       t = "#conversation"%string ∨
       ∃ c, c ∈ candidates ∧
            includes (blockedTags blockedRows) (cleaned c) = false ∧ t = made c) ∧
    (∀ c, c ∈ candidates →
       longer_than_1 (ensure_hash (trim c)) = true →
       includes (blockedTags blockedRows) (cleaned c) = false →
       ∃ t, t ∈ tags ∧ toLowerCase t = toLowerCase (made c)).
Proof.
  intros Hb Hs cleaned made. rewrite processHashtags_strings, Hb, Hs.
  eexists. split; [done|]. cbv zeta. split.
  - intros t [Ht| ->]%add_default_elem; [|by left]. right.
    unfold resolve_once in Ht. apply dedup_ci_subseteq in Ht.
    apply list_elem_of_fmap in Ht as (n & -> & Hn).
    apply list_elem_of_filter in Hn as [Hnb Hn].
    apply list_elem_of_filter in Hn as [_ Hn].
    apply list_elem_of_fmap in Hn as (c & -> & Hc).
    exists c. split; [done|]. split; [done|].
    unfold made, cleaned. by rewrite default_substitute_once.
  - intros c Hc Hlen Hnb.
    assert (made c ∈ (λ tag, "#" +:+ substitute_once
                       (synonym_of (tagSynonyms synonymRows)) (cleanTag_of tag)) <$>
              filter (λ tag, includes (blockedTags blockedRows) (cleanTag_of tag) = false)
                (filter longer_than_1 ((λ s, ensure_hash (trim s)) <$> candidates)))
      as Hmade.
    { apply list_elem_of_fmap. exists (ensure_hash (trim c)).
      split; [unfold made, cleaned; by rewrite default_substitute_once|].
      apply list_elem_of_filter. split; [done|].
      apply list_elem_of_filter. split; [by apply Is_true_true_2|].
      apply list_elem_of_fmap. by exists c. }
    apply dedup_ci_complete in Hmade as (t & Ht & Htc).
    exists t. split; [|done]. unfold add_default.
    destruct (_ && _); [|done]. apply elem_of_app. by left.
Qed.

Lemma processHashtags_keeps_unblocked_witness :
  ∃ tags,
    processHashtags chain_db (VArr (VStr <$> ["#Spam"; "JS"; " #go "]))
    = Returns (VStr <$> tags) ∧
    (∀ t, t ∈ tags →
       t = "#conversation"%string ∨
       ∃ c, c ∈ ["#Spam"; "JS"; " #go "]%string ∧
            includes (blockedTags ["spam"%string])
              (cleanTag_of (ensure_hash (trim c))) = false ∧
            t = "#" +:+ default (cleanTag_of (ensure_hash (trim c)))
                          (synonym_of
                             (tagSynonyms
                                [("js", "javascript"); ("javascript", "ecmascript")]%string)
                             (cleanTag_of (ensure_hash (trim c))))) ∧
    (∀ c, c ∈ ["#Spam"; "JS"; " #go "]%string →
       longer_than_1 (ensure_hash (trim c)) = true →
       includes (blockedTags ["spam"%string])
         (cleanTag_of (ensure_hash (trim c))) = false →
       ∃ t, t ∈ tags ∧
            toLowerCase t =
            toLowerCase
              ("#" +:+ default (cleanTag_of (ensure_hash (trim c)))
                         (synonym_of
                            (tagSynonyms
                               [("js", "javascript"); ("javascript", "ecmascript")]%string)
                            (cleanTag_of (ensure_hash (trim c)))))).
Proof.
  apply (processHashtags_keeps_unblocked chain_db ["#Spam"; "JS"; " #go "]
           ["spam"] [("js", "javascript"); ("javascript", "ecmascript")]);
    reflexivity.
Defined.

(** *** A second pass *)

Lemma filter_fixed {A} (P : A → Prop) `{!∀ x, Decision (P x)} (l : list A) :
  (∀ x, x ∈ l → P x) → filter P l = l.
Proof.
  induction l as [|x l IH]; [done|]. intros HP.
  rewrite filter_cons_True by (apply HP; by left).
  rewrite IH; [done|]. intros y Hy. apply HP. by right.
Qed.

Lemma fmap_fixed {A} (f : A → A) (l : list A) :
  (∀ x, x ∈ l → f x = x) → f <$> l = l.
Proof.
  induction l as [|x l IH]; [done|]. intros Hf. rewrite fmap_cons.
  rewrite Hf by (by left). rewrite IH; [done|]. intros y Hy. apply Hf. by right.
Qed.

Lemma dedup_ci_fixed l : NoDup (toLowerCase <$> l) → dedup_ci l = l.
Proof.
  induction l as [|x l IH]; [done|]. rewrite fmap_cons.
  intros [Hx Hl]%NoDup_cons.
  change (dedup_ci (x :: l))
    with (x :: filter (λ y, toLowerCase y ≠ toLowerCase x) (dedup_ci l)).
  rewrite IH by done. f_equal. apply filter_fixed.
  intros y Hy Heq. apply Hx. rewrite <- Heq. apply list_elem_of_fmap. by exists y.
Qed.

(** A tag made of a cleaned name is its own normalized form, and its
    cleaned name is that name. *)
Lemma made_tag_fixed cl :
  cl ≠ EmptyString → trim cl = cl → toLowerCase cl = cl →
  ensure_hash (trim ("#" +:+ cl)) = "#" +:+ cl ∧
  longer_than_1 ("#" +:+ cl) = true ∧
  cleanTag_of ("#" +:+ cl) = cl.
Proof.
  intros Hne Htrim Hlow.
  assert (trimEnd cl = cl) as Hend by (rewrite <- Htrim; apply trimEnd_trim).
  rewrite trim_hash_cons by done. split; [done|]. split; [by destruct cl|].
  by rewrite cleanTag_of_hash, Htrim.
Qed.

(** X4.  When no synonym applies, to the candidates or to the default
    tag, a second pass of the resolver over its own result returns that
    result: the callers that resolve a list of tags twice lose nothing
    by it. *)
Theorem processHashtags_second_pass
    (db : Database) (candidates : list string) blockedRows synonymRows :
  blocked_tags db = Returns blockedRows →
  tag_synonyms db = Returns synonymRows →
  (∀ c, c ∈ candidates →
     synonym_of (tagSynonyms synonymRows) (cleanTag_of (ensure_hash (trim c))) = None) →
  synonym_of (tagSynonyms synonymRows) "conversation" = None →
  ∃ tags,
    processHashtags db (VArr (VStr <$> candidates)) = Returns (VStr <$> tags) ∧
    processHashtags db (VArr (VStr <$> tags)) = Returns (VStr <$> tags).
Proof.
  intros Hb Hs Hnone Hdef. rewrite processHashtags_strings, Hb, Hs.
  eexists. split; [done|]. cbv zeta.
  pose proof (normalized_Forall_shape candidates) as Hshape.
  rewrite Forall_forall in Hshape.
  set (normalized := filter longer_than_1 _) in *.
  set (blocked := blockedTags blockedRows).
  set (lookup := synonym_of (tagSynonyms synonymRows)) in *.
  set (first := resolve_once (includes blocked) lookup cleanTag_of normalized).
  assert (∀ r, r ∈ first →
            ∃ cl, r = "#" +:+ cl ∧ cl ≠ EmptyString ∧ trim cl = cl ∧
                  toLowerCase cl = cl ∧ includes blocked cl = false ∧
                  lookup cl = None) as Hfirst.
  { intros r Hr. unfold first, resolve_once in Hr. apply dedup_ci_subseteq in Hr.
    apply list_elem_of_fmap in Hr as (n & -> & Hn).
    apply list_elem_of_filter in Hn as [Hnb Hn].
    destruct (Hshape n Hn) as (w & -> & Hw & Htrim).
    apply list_elem_of_filter in Hn as [_ Hn].
    apply list_elem_of_fmap in Hn as (c & Hnc & Hc).
    specialize (Hnone c Hc). rewrite <- Hnc in Hnone. fold lookup in Hnone.
    destruct (cleanTag_of_normalized w Hw Htrim) as (Hne & Hcl & Hlow).
    exists (cleanTag_of ("#" +:+ w)). unfold substitute_once. rewrite Hnone.
    done. }
  assert (∀ l, (∀ r, r ∈ l → r ∈ first) → l ≠ [] → NoDup (toLowerCase <$> l) →
            processHashtags db (VArr (VStr <$> l)) = Returns (VStr <$> l)) as Hpass.
  { intros l Hl Hne Hdup. rewrite processHashtags_strings, Hb, Hs. cbv zeta.
    fold blocked. fold lookup.
    assert (filter longer_than_1 ((λ s, ensure_hash (trim s)) <$> l) = l) as ->.
    { apply filter_fmap_fixed. intros r Hr.
      destruct (Hfirst r (Hl r Hr)) as (cl & -> & Hne' & Htrim & Hlow & _).
      destruct (made_tag_fixed cl Hne' Htrim Hlow) as (H1 & H2 & _). done. }
    unfold resolve_once.
    rewrite filter_fixed; cycle 1.
    { intros r Hr.
      destruct (Hfirst r (Hl r Hr)) as (cl & -> & Hne' & Htrim & Hlow & Hnb & _).
      destruct (made_tag_fixed cl Hne' Htrim Hlow) as (_ & _ & ->). done. }
    rewrite fmap_fixed; cycle 1.
    { intros r Hr.
      destruct (Hfirst r (Hl r Hr)) as (cl & -> & Hne' & Htrim & Hlow & _ & Hno).
      destruct (made_tag_fixed cl Hne' Htrim Hlow) as (_ & _ & ->).
      unfold substitute_once. by rewrite Hno. }
    rewrite dedup_ci_fixed by done. unfold add_default.
    destruct l; [done|]. done. }
  unfold add_default. destruct (_ && _) eqn:Hd.
  - apply andb_true_iff in Hd as [Hd _]. apply Nat.eqb_eq in Hd.
    destruct first; [|done]. rewrite app_nil_l.
    rewrite processHashtags_strings, Hb, Hs. cbv zeta.
    fold blocked. fold lookup.
    change (filter longer_than_1 ((λ s, ensure_hash (trim s)) <$> ["#conversation"%string]))
      with ["#conversation"%string].
    unfold resolve_once.
    assert (cleanTag_of "#conversation" = "conversation"%string) as Hc by reflexivity.
    destruct (includes blocked "conversation") eqn:Hblocked.
    + rewrite filter_cons_False by (cbv beta; rewrite Hc, Hblocked; discriminate).
      done.
    + rewrite filter_cons_True by (cbv beta; by rewrite Hc).
      rewrite filter_nil. csimpl. rewrite Hc.
      unfold substitute_once. by rewrite Hdef.
  - destruct first as [|r l] eqn:Hfirst_eq.
    + apply andb_false_iff in Hd as [Hd|Hd]; [done|].
      reflexivity.
    + apply Hpass; [done|done|]. rewrite <- Hfirst_eq. apply dedup_ci_NoDup.
Qed.

Lemma processHashtags_second_pass_witness :
  ∃ tags,
    processHashtags chain_db (VArr (VStr <$> ["#Rust"; "#spam"; " go "]))
    = Returns (VStr <$> tags) ∧
    processHashtags chain_db (VArr (VStr <$> tags)) = Returns (VStr <$> tags).
Proof.
  apply (processHashtags_second_pass chain_db ["#Rust"; "#spam"; " go "]
           ["spam"] [("js", "javascript"); ("javascript", "ecmascript")]);
    [reflexivity | reflexivity | | reflexivity].
  intros c Hc.
  apply elem_of_cons in Hc as [->|Hc]; [reflexivity|].
  apply elem_of_cons in Hc as [->|Hc]; [reflexivity|].
  apply elem_of_cons in Hc as [->|Hc]; [reflexivity|].
  by apply elem_of_nil in Hc.
Defined.

End resolver_properties.

(** ** The hashtag service: candidates *)

Section candidate_properties.
Import TagUtils HashtagService Order.

Lemma includes_true a s : includes a s = true ↔ s ∈ a.
Proof.
  unfold includes. rewrite existsb_exists. split.
  - intros (x & Hx & Heq). apply String.eqb_eq in Heq as ->.
    by apply list_elem_of_In.
  - intros Hs. exists s. split; [by apply list_elem_of_In|apply String.eqb_refl].
Qed.

Lemma includes_false a s : includes a s = false ↔ s ∉ a.
Proof.
  rewrite <- includes_true. destruct (includes a s); split; try done.
Qed.

Lemma dedup_first_cons x l :
  dedup_first (x :: l) = x :: filter (λ y, y ≠ x) (dedup_first l).
Proof. reflexivity. Qed.

Lemma dedup_first_NoDup l : NoDup (dedup_first l).
Proof.
  induction l as [|x l IH]; [constructor|]. rewrite dedup_first_cons.
  constructor; [|by apply NoDup_filter].
  intros [Hne _]%list_elem_of_filter. by apply Hne.
Qed.

Lemma dedup_first_complete l x : x ∈ l → x ∈ dedup_first l.
Proof.
  induction l as [|y l IH]; [done|]. rewrite dedup_first_cons.
  intros [->|Hx]%elem_of_cons; [by left|].
  destruct (decide (x = y)) as [->|Hne]; [by left|].
  right. apply list_elem_of_filter. split; [done|by apply IH].
Qed.

(** The loop of [extractHashtagsFromText], started with [acc]. *)
Lemma extractHashtagsFromText_foldl maxTags l acc :
  foldl (λ hashtags tag,
           if (length hashtags <? maxTags)%nat && negb (includes hashtags tag)
           then hashtags ++ [tag] else hashtags) acc l
  = acc ++ take (maxTags - length acc) (filter (λ y, y ∉ acc) (dedup_first l)).
Proof.
  revert acc. induction l as [|t l IH]; intros acc.
  - simpl foldl. change (dedup_first []) with (@nil string).
    by rewrite filter_nil, take_nil, app_nil_r.
  - simpl foldl. rewrite dedup_first_cons.
    destruct (length acc <? maxTags)%nat eqn:Hlen; simpl andb.
    + apply Nat.ltb_lt in Hlen.
      destruct (includes acc t) eqn:Hin; simpl negb; cbv iota.
      * apply includes_true in Hin. rewrite IH. f_equal. f_equal.
        rewrite filter_cons_False by (intros H; by apply H).
        symmetry. apply filter_filter_absorb. by intros y Hy ->.
      * apply includes_false in Hin. rewrite IH, <- app_assoc. f_equal.
        rewrite filter_cons_True by done. rewrite length_app. simpl length.
        replace (maxTags - length acc) with (S (maxTags - (length acc + 1))) by lia.
        simpl. f_equal. f_equal. rewrite list_filter_filter.
        apply list_filter_iff. intros y.
        rewrite not_elem_of_app, list_elem_of_singleton. tauto.
    + apply Nat.ltb_ge in Hlen. rewrite IH.
      replace (maxTags - length acc) with 0 by lia. by rewrite !take_0.
Qed.

Lemma extractHashtagsFromText_take text maxTags :
  extractHashtagsFromText text maxTags
  = take maxTags (dedup_first (match_hashtags text)).
Proof.
  unfold extractHashtagsFromText. rewrite extractHashtagsFromText_foldl.
  rewrite app_nil_l. simpl length. rewrite Nat.sub_0_r. f_equal.
  apply filter_fixed. intros y _. apply not_elem_of_nil.
Qed.

(** X5.  [extractHashtagsFromText] returns the first [maxTags] distinct
    inline tags of the text, in the order in which they first appear:
    never more than [maxTags] tags, none of them twice, each a [#] and
    a run of letters, digits, [_] and [-]. *)
Theorem extractHashtagsFromText_first_distinct (text : string) (maxTags : nat) :
  extractHashtagsFromText text maxTags
  = take maxTags (dedup_first (match_hashtags text)) ∧
  length (extractHashtagsFromText text maxTags) ≤ maxTags ∧
  NoDup (extractHashtagsFromText text maxTags) ∧
  Forall (λ t, ∃ w, t = "#" +:+ w ∧ w ≠ EmptyString ∧ every is_tag_char w = true)
    (extractHashtagsFromText text maxTags).
Proof.
  pose proof (extractHashtagsFromText_take text maxTags) as Heq.
  split; [done|]. rewrite Heq. split; [|split].
  - rewrite length_take. lia.
  - eapply sublist_NoDup; [apply dedup_first_NoDup|apply sublist_take].
  - apply Forall_forall. intros t (i & Ht & _)%elem_of_take.
    apply list_elem_of_lookup_2, dedup_first_subseteq in Ht.
    destruct (scan_hashtags_spec text false) as [_ Hall].
    rewrite Forall_forall in Hall. by apply Hall.
Qed.

(** *** Keywords *)

Lemma insert_sorted_perm words x l : insert_sorted words x l ≡ₚ x :: l.
Proof.
  induction l as [|y l IH]; [done|]. simpl.
  destruct (counted_before words y x); [|done].
  rewrite IH. apply Permutation_swap.
Qed.

Lemma sort_by_count_perm words l : sort_by_count words l ≡ₚ l.
Proof.
  unfold sort_by_count. induction l as [|x l IH]; [done|]. simpl.
  by rewrite insert_sorted_perm, IH.
Qed.

Lemma insert_index_perm key l : insert_index key l ≡ₚ key :: l.
Proof.
  induction l as [|k l IH]; [done|]. simpl.
  destruct (array_index key) as [n|]; [|done].
  destruct (array_index k) as [m|]; [|done].
  destruct (m <? n)%N; [|done]. rewrite IH. apply Permutation_swap.
Qed.

Lemma wordCount_keys_perm words :
  wordCount_keys words
  ≡ₚ filter (λ w, w ≠ "__proto__"%string) (dedup_first words).
Proof.
  unfold wordCount_keys. cbv zeta.
  set (created := filter _ (dedup_first words)).
  rewrite <- (filter_app_complement (λ k, is_Some (array_index k)) created) at 3.
  apply Permutation_app_tail.
  induction (filter (λ k, is_Some (array_index k)) created) as [|k l IH]; [done|].
  simpl. by rewrite insert_index_perm, IH.
Qed.

Lemma extractKeywords_perm text :
  extractKeywords text
  ≡ₚ filter (λ word, shouldExcludeWord word = false)
       (filter (λ w, w ≠ "__proto__"%string) (dedup_first (words_of text))).
Proof.
  unfold extractKeywords. cbv zeta.
  by rewrite sort_by_count_perm, wordCount_keys_perm.
Qed.

(** The words of a text are in lower case. *)
Lemma words_of_lower text w :
  w ∈ words_of text →
  every is_word w = true ∧ toLowerCase w = w ∧ 3 ≤ String.length w.
Proof.
  unfold words_of. intros [Hlen Hw]%list_elem_of_filter.
  apply Nat.leb_le in Hlen.
  set (Q := λ c, is_word c && Ascii.eqb (lower_char c) c).
  assert (every (λ c, Q c || is_space c) (replace_punctuation (toLowerCase text)) = true)
    as Hevery.
  { clear Hw. induction text as [|c r IH]; [done|]. simpl. rewrite IH, andb_true_r.
    destruct (is_word (lower_char c) || is_space (lower_char c)) eqn:Hc; [|done].
    apply orb_true_iff in Hc as [Hc|Hc]; [|by rewrite Hc, orb_true_r].
    unfold Q. rewrite Hc, lower_char_idem. by rewrite Ascii.eqb_refl. }
  pose proof (split_ws_every Q _ false Hevery) as Hall.
  rewrite Forall_forall in Hall. specialize (Hall w Hw).
  split; [|split; [|done]].
  - revert Hall. apply every_impl. unfold Q.
    by intros c [[Hc _]%andb_true_iff _]%andb_true_iff.
  - clear -Hall. induction w as [|c r IH]; [done|]. simpl in *.
    apply andb_true_iff in Hall as [Hc Hr]. unfold Q in Hc.
    apply andb_true_iff in Hc as [[_ Hc]%andb_true_iff _].
    apply Ascii.eqb_eq in Hc. by rewrite Hc, IH.
Qed.

(** X6.  The keywords of a text are exactly its distinct words of
    three characters or more that the exclusion test lets through, the
    word [__proto__] apart: each is listed once, and is made of lower-case
    letters, digits and [_]. *)
Theorem extractKeywords_exact (text : string) :
  NoDup (extractKeywords text) ∧
  (∀ kw, kw ∈ extractKeywords text ↔
         kw ∈ words_of text ∧ kw ≠ "__proto__"%string ∧ shouldExcludeWord kw = false) ∧
  (∀ kw, kw ∈ extractKeywords text →
         every is_word kw = true ∧ toLowerCase kw = kw ∧ 3 ≤ String.length kw).
Proof.
  assert (∀ kw, kw ∈ extractKeywords text ↔
            kw ∈ words_of text ∧ kw ≠ "__proto__"%string ∧ shouldExcludeWord kw = false)
    as Hiff.
  { intros kw. rewrite extractKeywords_perm.
    rewrite !list_elem_of_filter. split.
    - intros (Hex & Hp & Hkw). by apply dedup_first_subseteq in Hkw.
    - intros (Hkw & Hp & Hex). by apply dedup_first_complete in Hkw. }
  split; [|split; [done|]].
  - rewrite extractKeywords_perm. apply NoDup_filter, NoDup_filter, dedup_first_NoDup.
  - intros kw [Hkw _]%Hiff. by apply (words_of_lower text).
Qed.

Lemma wordCount_counts words w :
  w ≠ "constructor"%string →
  wordCount words w = Some (length (filter (λ x, x = w) words)).
Proof.
  intros Hw. unfold wordCount.
  destruct (String.eqb w "constructor") eqn:Heq; [|done].
  by apply String.eqb_eq in Heq.
Qed.

Lemma insert_sorted_falling words x l :
  x ≠ "constructor"%string →
  Forall (λ y, y ≠ "constructor"%string) l →
  falling (λ w, length (filter (λ x, x = w) words)) l →
  falling (λ w, length (filter (λ x, x = w) words)) (insert_sorted words x l).
Proof.
  intros Hx. induction l as [|y l IH]; [done|].
  intros [Hy Hl]%Forall_cons [Hall Hfall]. simpl insert_sorted.
  unfold counted_before. rewrite !wordCount_counts by done.
  destruct (_ <? _)%nat eqn:Hlt.
  - apply Nat.ltb_lt in Hlt. split; [|by apply IH].
    apply Forall_forall. intros z [->|Hz]%insert_sorted_elem; [lia|].
    rewrite Forall_forall in Hall. by apply Hall.
  - apply Nat.ltb_ge in Hlt. split; [|done]. constructor; [lia|].
    eapply Forall_impl; [exact Hall|]. intros z Hz. simpl in *. lia.
Qed.

(** X7.  In a text without the word [constructor], the keywords are
    listed by falling number of occurrences: none is followed by one
    that occurs more often. *)
Theorem extractKeywords_by_falling_count (text : string) :
  "constructor"%string ∉ words_of text →
  falling (λ w, length (filter (λ x, x = w) (words_of text))) (extractKeywords text).
Proof.
  intros Hno. unfold extractKeywords. cbv zeta.
  set (words := words_of text) in *.
  assert (Forall (λ y, y ≠ "constructor"%string)
            (filter (λ word, shouldExcludeWord word = false) (wordCount_keys words)))
    as Hall.
  { apply Forall_forall. intros y [_ Hy]%list_elem_of_filter ->.
    apply wordCount_keys_subseteq, dedup_first_subseteq in Hy. by apply Hno. }
  unfold sort_by_count.
  induction (filter _ (wordCount_keys words)) as [|x l IH]; [done|].
  apply Forall_cons in Hall as [Hx Hl]. simpl foldr.
  apply insert_sorted_falling; [done| |by apply IH].
  apply Forall_forall. intros y Hy.
  assert (y ∈ l) as Hyl.
  { clear -Hy. induction l as [|z l IH]; [done|]. simpl in Hy.
    apply insert_sorted_elem in Hy as [->|Hy]; [by left|]. right. by apply IH. }
  rewrite Forall_forall in Hl. by apply Hl.
Qed.

Lemma extractKeywords_by_falling_count_witness :
  falling (λ w, length (filter (λ x, x = w) (words_of "green tea, black tea and mint")))
    (extractKeywords "green tea, black tea and mint").
Proof.
  apply (extractKeywords_by_falling_count "green tea, black tea and mint").
  apply includes_false. reflexivity.
Defined.

End candidate_properties.

(** ** The hashtag service: what it returns *)

Section service_properties.
Import TagUtils HashtagService Examples.

(** *** [shouldExcludeWord] *)

(** X8.  The exclusion test looks at a word without regard to case and
    to the white space around it. *)
Theorem shouldExcludeWord_ignores_case_and_padding (w w' : string) :
  toLowerCase (trim w) = toLowerCase (trim w') →
  shouldExcludeWord w = shouldExcludeWord w'.
Proof.
  intros Heq. unfold shouldExcludeWord. cbv zeta.
  by rewrite <- !toLowerCase_trim, Heq.
Qed.

Lemma shouldExcludeWord_ignores_case_and_padding_witness :
  shouldExcludeWord "  The " = shouldExcludeWord "tHE".
Proof.
  apply (shouldExcludeWord_ignores_case_and_padding "  The " "tHE"). reflexivity.
Defined.

(** *** [generateFallbackHashtags] *)

Lemma generateFallbackHashtags_length message rnd :
  2 ≤ length (generateFallbackHashtags message rnd) ≤ 4.
Proof.
  unfold generateFallbackHashtags.
  destruct (has_question_mark message), (100 <? String.length message)%nat eqn:H1,
    (String.length message <? 20)%nat eqn:H2; simpl; try lia.
  all: apply Nat.ltb_lt in H1, H2; lia.
Qed.

(** X9.  The fallback tags start with [#chat] and end with one of the
    four general tags; there are between two and four of them, and
    [#detailed] and [#brief] never come together. *)
Theorem generateFallbackHashtags_shape (message : string) (rnd : nat) :
  (∃ middle general,
     generateFallbackHashtags message rnd = "#chat"%string :: middle ++ [general] ∧
     general ∈ generalTags) ∧
  2 ≤ length (generateFallbackHashtags message rnd) ≤ 4 ∧
  ¬ ("#detailed"%string ∈ generateFallbackHashtags message rnd ∧
     "#brief"%string ∈ generateFallbackHashtags message rnd).
Proof.
  pose proof (generateFallbackHashtags_length message rnd) as Hlength.
  unfold generateFallbackHashtags in *.
  assert (default "#discussion"%string (generalTags !! (rnd `mod` 4)) ∈ generalTags)
    as Hgeneral.
  { pose proof (Nat.mod_upper_bound rnd 4 ltac:(lia)) as Hlt.
    destruct (rnd `mod` 4) as [|[|[|[|n]]]]; [| | | |lia];
      apply includes_true; reflexivity. }
  set (general := default _ _) in *.
  assert (general ≠ "#detailed"%string ∧ general ≠ "#brief"%string) as [Hd Hb].
  { split; intros ->; apply includes_true in Hgeneral; discriminate. }
  split; [|split].
  - eexists _, general. split; [|done]. simpl. f_equal. by rewrite !app_assoc.
  - exact Hlength.
  - destruct (100 <? String.length message)%nat eqn:H1,
      (String.length message <? 20)%nat eqn:H2.
    + apply Nat.ltb_lt in H1, H2. lia.
    + intros [_ H]. destruct (has_question_mark message); simpl in H;
        repeat (apply elem_of_cons in H as [H|H]; [by (discriminate || subst)|]);
        by apply elem_of_nil in H.
    + intros [H _]. destruct (has_question_mark message); simpl in H;
        repeat (apply elem_of_cons in H as [H|H]; [by (discriminate || subst)|]);
        by apply elem_of_nil in H.
    + intros [H _]. destruct (has_question_mark message); simpl in H;
        repeat (apply elem_of_cons in H as [H|H]; [by (discriminate || subst)|]);
        by apply elem_of_nil in H.
Qed.

(** *** [filterBlockedTags] *)

Lemma filterBlockedTags_sublist db tags : filterBlockedTags db tags `sublist_of` tags.
Proof.
  unfold filterBlockedTags. destruct tags as [|t tags]; [done|].
  destruct (getBlockedTags db); [done|]. apply sublist_filter.
Qed.

(** X10.  [filterBlockedTags] keeps the tags in their order and drops
    only blocked ones: with an empty block list it returns the tags as
    they are; otherwise a tag stays exactly when it is not empty and its
    name (one [#] removed, lower case, trimmed) is not empty and is not
    the lower-case form of a blocked name. *)
Theorem filterBlockedTags_exact (db : Database) (tags : list string) :
  filterBlockedTags db tags `sublist_of` tags ∧
  (getBlockedTags db = [] → filterBlockedTags db tags = tags) ∧
  (getBlockedTags db ≠ [] →
   ∀ tag, tag ∈ filterBlockedTags db tags ↔
          tag ∈ tags ∧ tag ≠ EmptyString ∧
          trim (toLowerCase (strip_hash tag)) ≠ EmptyString ∧
          ∀ row, row ∈ getBlockedTags db →
                 trim (toLowerCase (strip_hash tag)) ≠ toLowerCase row).
Proof.
  split; [apply filterBlockedTags_sublist|]. unfold filterBlockedTags. split.
  - intros ->. by destruct tags.
  - intros Hrows tag. destruct (getBlockedTags db) as [|row rows] eqn:Hr; [done|].
    destruct tags as [|t tags].
    { split; [by intros ?%elem_of_nil|by intros [?%elem_of_nil _]]. }
    rewrite list_elem_of_filter, elem_of_list_to_set, !is_empty_false.
    split.
    + intros ((Hne & Hname & Hnot) & Htag). repeat split; try done.
      intros r Hrow Heq. apply Hnot. apply list_elem_of_fmap. by exists r.
    + intros (Htag & Hne & Hname & Hnot). repeat split; try done.
      intros (r & Heq & Hrow)%list_elem_of_fmap. by apply (Hnot r).
Qed.

(** *** [formatHashtags] *)

Lemma format_tag_shape tag y :
  format_tag tag = Returns y →
  y = EmptyString ∨ ∃ s, y = "#" +:+ strip_hashes s.
Proof.
  assert (∀ c, hash_or_empty (strip_hashes c) = EmptyString ∨
               ∃ s, hash_or_empty (strip_hashes c) = "#" +:+ strip_hashes s) as Hh.
  { intros c. unfold hash_or_empty. destruct (is_empty _); [by left|right; by exists c]. }
  intros H. unfold format_tag in H.
  destruct tag as [| |b|r|s|l|props];
    repeat match type of H with
           | context [if ?b then _ else _] => destruct b
           | (_ ≫= _) = Returns _ => apply cbind_returns in H as (? & ? & H)
           end;
    injection H as <-; eauto.
Qed.

Lemma formatted_tag_shape y :
  (y = EmptyString ∨ ∃ s, y = "#" +:+ strip_hashes s) →
  longer_than_1 y = true →
  ∃ w, y = "#" +:+ w ∧ w ≠ EmptyString ∧ startsWith_hash w = false.
Proof.
  intros [->|[s ->]] Hlen; [done|]. exists (strip_hashes s).
  split; [done|]. split; [|apply strip_hashes_no_hash].
  intros Heq. rewrite Heq in Hlen. by vm_compute in Hlen.
Qed.

(** X11.  Whatever the array holds, when [formatHashtags] returns, it
    returns at most as many tags as the array has elements, and each is
    one [#] followed by text that is not empty and does not start with
    another [#]. *)
Theorem formatHashtags_shape (hashtags : list JSValue) (tags : list string) :
  formatHashtags hashtags = Returns tags →
  length tags ≤ length hashtags ∧
  Forall (λ t, ∃ w, t = "#" +:+ w ∧ w ≠ EmptyString ∧ startsWith_hash w = false) tags.
Proof.
  unfold formatHashtags. intros (formatted & Hm & [= <-])%cbind_returns.
  apply cmapM_returns_Forall2 in Hm. split.
  - etransitivity; [apply length_filter|]. by rewrite (Forall2_length _ _ _ Hm).
  - apply Forall_forall. intros y [Hlen Hy]%list_elem_of_filter.
    apply Is_true_true_1 in Hlen. apply formatted_tag_shape; [|done].
    clear Hlen. induction Hm as [|x z l k Hxz Hlk IH]; [by apply elem_of_nil in Hy|].
    apply elem_of_cons in Hy as [->|Hy]; [by apply (format_tag_shape x)|by apply IH].
Qed.

Lemma formatHashtags_shape_witness :
  length ["#Rust"; "#7"]%string ≤ length [VStr " ##Rust "; VNull; VNum "7"; VStr "#"] ∧
  Forall (λ t, ∃ w, t = "#" +:+ w ∧ w ≠ EmptyString ∧ startsWith_hash w = false)
    ["#Rust"; "#7"]%string.
Proof.
  apply (formatHashtags_shape [VStr " ##Rust "; VNull; VNum "7"; VStr "#"]
           ["#Rust"; "#7"]%string).
  reflexivity.
Defined.

(** *** [extractHashtags] and [generateUserMessageHashtags] *)

(** The resolver followed by the normalizer, on strings: it returns,
    never more tags than it was given. *)
Lemma process_and_format_bounded db (candidates : list string) :
  ∃ out,
    process_and_format db candidates = Returns out ∧
    length out ≤ length candidates ∧
    Forall (λ t, ∃ w, t = "#" +:+ w ∧ w ≠ EmptyString ∧ startsWith_hash w = false) out.
Proof.
  unfold process_and_format.
  destruct (processHashtags_strings_bounded db candidates) as (tags & -> & Hlen & _).
  rewrite bind_Returns, formatHashtags_strings. eexists. split; [done|]. split.
  - etransitivity; [apply length_filter|]. by rewrite length_fmap.
  - apply Forall_forall. intros y [Hy Hin]%list_elem_of_filter.
    apply Is_true_true_1 in Hy. apply formatted_tag_shape; [|done].
    apply list_elem_of_fmap in Hin as (s & -> & _).
    unfold hash_or_empty. destruct (is_empty _); [by left|right; by eexists].
Qed.

Lemma extractHashtags_blank db s maxTags :
  trim s = EmptyString →
  extractHashtags db (VStr s) maxTags = {| content := VStr EmptyString; hashtags := [] |}.
Proof.
  intros Hs. unfold extractHashtags.
  destruct (Js.truthy (VStr s)); [|done]. simpl. by rewrite Hs.
Qed.



Lemma extractHashtags_text db s maxTags :
  trim s ≠ EmptyString →
  extractHashtags db (VStr s) maxTags =
  match extract_from db s maxTags with
  | Returns r => r
  | Throws => {| content := VStr s; hashtags := ["#response"; "#ai"]%string |}
  end.
Proof.
  intros Hs. unfold extractHashtags.
  assert (Js.truthy (VStr s) = true) as ->.
  { destruct s; [by destruct Hs|done]. }
  simpl. apply is_empty_false in Hs. by rewrite Hs.
Qed.

(** X13.  For a text with more than white space the [catch] branch of
    [extractHashtags] is never taken: the content returned is the one
    that [extractHashtagsFromResponse] finds, whatever the store answers,
    and every tag is one [#] followed by text that is not empty and does
    not start with another [#]. *)
Theorem extractHashtags_of_text (db : Database) (s : string) (maxTags : nat) :
  trim s ≠ EmptyString →
  content (extractHashtags db (VStr s) maxTags)
  = VStr (content (extractHashtagsFromResponse s)) ∧
  Forall (λ t, ∃ w, t = "#" +:+ w ∧ w ≠ EmptyString ∧ startsWith_hash w = false)
    (hashtags (extractHashtags db (VStr s) maxTags)).
Proof.
  intros Hs. rewrite extractHashtags_text by done. unfold extract_from. cbv zeta.
  destruct (process_and_format_bounded db
              (filterBlockedTags db
                 match hashtags (extractHashtagsFromResponse s) with
                 | [] =>
                     (λ kw, "#" +:+ kw) <$>
                       take maxTags
                         (filter (λ kw, shouldExcludeWord kw = false) (extractKeywords s))
                 | found => filter keeps_tag found
                 end)) as (out & -> & _ & Hout).
  done.
Qed.

Lemma extractHashtags_of_text_witness :
  content (extractHashtags unreachable_db (VStr "Rust is fast #rust") 5)
  = VStr (content (extractHashtagsFromResponse "Rust is fast #rust")) ∧
  Forall (λ t, ∃ w, t = "#" +:+ w ∧ w ≠ EmptyString ∧ startsWith_hash w = false)
    (hashtags (extractHashtags unreachable_db (VStr "Rust is fast #rust") 5)).
Proof.
  apply (extractHashtags_of_text unreachable_db "Rust is fast #rust" 5). discriminate.
Defined.

(** A text without [#] has no labeled section and no inline tag. *)
Lemma find_section_no_hash s :
  every (λ c, negb (Ascii.eqb c "#")) s = true → find_section s = None.
Proof.
  induction s as [|c r IH]; [done|]. simpl every.
  intros [Hc Hr]%andb_true_iff. apply negb_true_iff in Hc.
  rewrite find_section_cons. unfold match_marker. rewrite Hc. by rewrite IH.
Qed.

Lemma scan_hashtags_no_hash s in_run :
  every (λ c, negb (Ascii.eqb c "#")) s = true → (scan_hashtags s in_run).2 = [].
Proof.
  revert in_run. induction s as [|c r IH]; intros in_run; [done|]. simpl every.
  intros [Hc Hr]%andb_true_iff. apply negb_true_iff in Hc.
  rewrite scan_hashtags_cons. rewrite Hc.
  destruct (in_run && is_tag_char c).
  - specialize (IH true Hr). by destruct (scan_hashtags r true).
  - specialize (IH false Hr). by destruct (scan_hashtags r false).
Qed.

(** X14.  From a text that holds no [#], [extractHashtags] returns at
    most [maxTags] tags. *)
Theorem extractHashtags_at_most_maxTags (db : Database) (s : string) (maxTags : nat) :
  every (λ c, negb (Ascii.eqb c "#")) s = true →
  length (hashtags (extractHashtags db (VStr s) maxTags)) ≤ maxTags.
Proof.
  intros Hs. destruct (decide (trim s = EmptyString)) as [Hblank|Hne].
  { rewrite extractHashtags_blank by done. simpl. lia. }
  rewrite extractHashtags_text by done. unfold extract_from. cbv zeta.
  unfold extractHashtagsFromResponse. rewrite find_section_no_hash by done.
  unfold match_hashtags. rewrite scan_hashtags_no_hash by done. simpl hashtags.
  change (dedup_first []) with (@nil string). cbv iota.
  destruct (process_and_format_bounded db
              (filterBlockedTags db
                 ((λ kw, "#" +:+ kw) <$>
                    take maxTags
                      (filter (λ kw, shouldExcludeWord kw = false) (extractKeywords s)))))
    as (out & -> & Hlen & _).
  simpl hashtags. etransitivity; [exact Hlen|].
  etransitivity; [apply sublist_length, filterBlockedTags_sublist|].
  rewrite length_fmap, length_take. lia.
Qed.

Lemma extractHashtags_at_most_maxTags_witness :
  length (hashtags (extractHashtags chain_db
                      (VStr "green tea, black tea and fresh mint leaves") 2)) ≤ 2.
Proof.
  apply (extractHashtags_at_most_maxTags chain_db
           "green tea, black tea and fresh mint leaves" 2).
  reflexivity.
Defined.

Lemma generate_from_bounded db s maxTags rnd :
  ∃ tags,
    generate_from db s maxTags rnd = Returns tags ∧ length tags ≤ maxTags `max` 4.
Proof.
  unfold generate_from. cbv zeta.
  pose proof (extractHashtagsFromText_take s maxTags) as Hexplicit.
  destruct (extractHashtagsFromText s maxTags) as [|e explicit] eqn:He.
  - destruct (extractKeywords s) as [|kw keywords].
    + eexists. split; [done|].
      pose proof (generateFallbackHashtags_length s rnd). lia.
    + destruct (process_and_format_bounded db
                  ((λ kw, "#" +:+ kw) <$> take maxTags (kw :: keywords)))
        as (out & -> & Hlen & _).
      exists out. split; [done|]. rewrite length_fmap, length_take in Hlen. lia.
  - destruct (process_and_format_bounded db (filter keeps_tag (e :: explicit)))
      as (out & -> & Hlen & _).
    exists out. split; [done|].
    pose proof (length_filter keeps_tag (e :: explicit)) as Hf.
    assert (length (e :: explicit) ≤ maxTags) as Hmax.
    { rewrite Hexplicit, length_take. lia. }
    assert (length (filter keeps_tag (e :: explicit)) ≤ maxTags) by lia. lia.
Qed.

(** X15.  Whatever the message and the store, [generateUserMessageHashtags]
    returns at most [maxTags] tags, or at most four when [maxTags] is
    less: the fallback tags are not cut to [maxTags]. *)
Theorem generateUserMessageHashtags_bounded
    (db : Database) (message : JSValue) (maxTags rnd : nat) :
  length (generateUserMessageHashtags db message maxTags rnd) ≤ maxTags `max` 4.
Proof.
  assert (length (take maxTags ["#chat"; "#conversation"]%string) ≤ maxTags `max` 4)
    as Hcatch by (rewrite length_take; lia).
  unfold generateUserMessageHashtags.
  destruct message as [| |b|r|s|l|props]; try (simpl; lia); try exact Hcatch.
  - destruct b; [exact Hcatch|simpl; lia].
  - destruct (Js.truthy (VNum r)); [exact Hcatch|simpl; lia].
  - destruct (Js.truthy (VStr s)); [|simpl; lia]. simpl.
    destruct (is_empty (trim s)); [simpl; lia|].
    by destruct (generate_from_bounded db s maxTags rnd) as (tags & -> & Hlen).
Qed.

End service_properties.

(** ** The streaming handler: what it keeps count of *)

Section stream_properties.
Import Streaming StreamFacts Examples.
Variable JSON_parse : string → completion JSValue.

Lemma emitted_text_app a b : emitted_text (a ++ b) = emitted_text a +:+ emitted_text b.
Proof.
  induction a as [|e a IH]; [by rewrite string_app_nil_l|].
  change (emitted_text ((e :: a) ++ b))
    with (fragment_text e +:+ emitted_text (a ++ b)).
  change (emitted_text (e :: a)) with (fragment_text e +:+ emitted_text a).
  by rewrite IH, string_app_assoc.
Qed.

Lemma fragments_of_app a b : fragments_of (a ++ b) = fragments_of a ++ fragments_of b.
Proof. apply omap_app. Qed.

Lemma posts_of_app a b : posts_of (a ++ b) = posts_of a ++ posts_of b.
Proof. apply omap_app. Qed.

Lemma tally_nil st : tally st st [].
Proof.
  split;
    [by rewrite string_app_nil_r | simpl; lia | done | done | simpl; lia
    | done | done | intros i r Hi; by rewrite lookup_nil in Hi].
Qed.

Lemma tally_app st st1 st2 effects1 effects2 :
  tally st st1 effects1 → tally st1 st2 effects2 →
  tally st st2 (effects1 ++ effects2).
Proof.
  intros [R1 C1 F1 T1 P1 PF1 PL1 Z1] [R2 C2 F2 T2 P2 PF2 PL2 Z2]. split.
  - by rewrite R2, R1, emitted_text_app, string_app_assoc.
  - rewrite C2, C1, fragments_of_app, length_app. lia.
  - by rewrite F2.
  - by apply Forall_app.
  - rewrite posts_of_app, length_app. lia.
  - intros H. rewrite posts_of_app, PF1 by done. apply PF2. by rewrite F1.
  - rewrite posts_of_app. by apply Forall_app.
  - intros i response Hi.
    destruct (decide (i < length effects1)) as [Hlt|Hge].
    + rewrite lookup_app_l in Hi by done.
      rewrite take_app_le by lia. by apply Z1.
    + rewrite lookup_app_r in Hi by lia.
      rewrite take_app_ge by lia. rewrite emitted_text_app, <- string_app_assoc, <- R1.
      by apply Z2.
Qed.

Lemma tally_set_buffer st b : tally st (set_buffer st b) [].
Proof.
  split;
    [simpl; by rewrite string_app_nil_r | simpl; lia | done | done | simpl; lia
    | done | done | intros i r Hi; by rewrite lookup_nil in Hi].
Qed.

Lemma tally_log st jsonStr : tally st st [LogParseError jsonStr].
Proof.
  split;
    [by rewrite string_app_nil_r | simpl; lia | done | by repeat constructor
    | simpl; lia | done | done | ].
  intros [|i] response Hi; [done|]. by destruct i.
Qed.

Lemma tally_done st : tally st st [CallProcessCompletedResponse (fullResponse st)].
Proof.
  split;
    [by rewrite string_app_nil_r | simpl; lia | done | by repeat constructor
    | simpl; lia | done | done | ].
  intros [|i] response Hi; [|by destruct i].
  injection Hi as <-. by rewrite string_app_nil_r.
Qed.

Lemma div_10_step n : S n `mod` 10 = 0 → n / 10 + 1 ≤ S n / 10.
Proof.
  intros Hm. pose proof (Nat.div_mod_eq (S n) 10) as H1.
  pose proof (Nat.div_mod_eq n 10) as H2.
  pose proof (Nat.mod_upper_bound n 10 ltac:(lia)) as H3.
  rewrite Hm in H1. lia.
Qed.

Lemma div_10_mono n : n / 10 ≤ S n / 10.
Proof. apply Nat.Div0.div_le_mono. lia. Qed.

(** A record with a response: the fragment, and the post that may go
    with it. *)
Lemma tally_fragment st response text :
  Js.toString response = Returns text →
  let st1 := set_response st (fullResponse st +:+ text) in
  tally st st1
    (EmitFragment response ::
     (if negb (contentExtracted st1)
         && (200 <? String.length (fullResponse st1))%nat
         && (chunkCount st1 `mod` 10 =? 0)%nat
      then [PostExtractTags (fullResponse st1)] else [])).
Proof.
  intros Htext st1.
  assert (emitted_text [EmitFragment response] = text) as Hone.
  { unfold emitted_text. simpl. rewrite Htext. apply string_app_nil_r. }
  destruct (negb (contentExtracted st1)
            && (200 <? String.length (fullResponse st1))%nat
            && (chunkCount st1 `mod` 10 =? 0)%nat) eqn:Hpost.
  - apply andb_true_iff in Hpost as [[Hflag Hlen]%andb_true_iff Hmod].
    apply negb_true_iff in Hflag. apply Nat.ltb_lt in Hlen. apply Nat.eqb_eq in Hmod.
    split.
    + change (emitted_text [EmitFragment response; PostExtractTags (fullResponse st1)])
        with (emitted_text ([EmitFragment response] ++ [PostExtractTags (fullResponse st1)])).
      rewrite emitted_text_app, Hone.
      change (emitted_text [PostExtractTags (fullResponse st1)]) with ("" +:+ "")%string.
      by rewrite !string_app_nil_r.
    + simpl. lia.
    + done.
    + repeat constructor. by exists text.
    + change (chunkCount st1) with (S (chunkCount st)) in *.
      pose proof (div_10_step (chunkCount st) Hmod). simpl length. lia.
    + change (contentExtracted st1) with (contentExtracted st) in Hflag.
      intros H. by rewrite H in Hflag.
    + by repeat constructor.
    + intros [|[|i]] r Hi; done.
  - split.
    + by rewrite Hone.
    + simpl. lia.
    + done.
    + repeat constructor. by exists text.
    + change (chunkCount st1) with (S (chunkCount st)).
      pose proof (div_10_mono (chunkCount st)). simpl length. lia.
    + done.
    + done.
    + intros [|i] r Hi; [done|]. by destruct i.
Qed.

Lemma handle_record_tally st data st' effects :
  handle_record st data = Returns (st', effects) → tally st st' effects.
Proof.
  unfold handle_record.
  intros (response & _ & H)%cbind_returns.
  apply cbind_returns in H as ([st1 effects1] & Hfirst & H).
  apply cbind_returns in H as (d & _ & [= <- <-]).
  assert (tally st st1 effects1) as Hone.
  { destruct (Js.truthy response).
    - apply cbind_returns in Hfirst as (text & Htext & [= <- <-]).
      by apply tally_fragment.
    - injection Hfirst as <- <-. apply tally_nil. }
  apply (tally_app _ st1); [done|].
  destruct (Js.truthy d); [apply tally_done|apply tally_nil].
Qed.

Lemma process_segment_tally st segment :
  tally st (process_segment JSON_parse st segment).1
    (process_segment JSON_parse st segment).2.
Proof.
  unfold process_segment. destruct (is_empty (trim segment)); [apply tally_nil|].
  destruct (JSON_parse (trim segment) ≫= handle_record st) as [[st' effects]|] eqn:H.
  - apply cbind_returns in H as (data & _ & H). by apply (handle_record_tally _ data).
  - apply tally_log.
Qed.

Lemma scan_tally rest segment st :
  tally st (scan JSON_parse rest segment st).1 (scan JSON_parse rest segment st).2.
Proof.
  revert segment st. induction rest as [|c r IH]; intros segment st.
  - apply tally_set_buffer.
  - rewrite scan_cons. destruct (Ascii.eqb c "010"); [|apply IH].
    pose proof (process_segment_tally st segment) as H1.
    destruct (process_segment JSON_parse st segment) as [st1 effects1].
    pose proof (IH EmptyString st1) as H2.
    destruct (scan JSON_parse r "" st1) as [st2 effects2].
    by apply (tally_app _ st1).
Qed.

Lemma on_chunks_tally st chunks :
  tally st (on_chunks JSON_parse st chunks).1 (on_chunks JSON_parse st chunks).2.
Proof.
  revert st. induction chunks as [|chunk later IH]; intros st; [apply tally_nil|].
  simpl on_chunks.
  pose proof (scan_tally (buffer st +:+ chunk) EmptyString st) as H1.
  unfold on_data. destruct (scan JSON_parse (buffer st +:+ chunk) "" st) as [st1 effects1].
  pose proof (IH st1) as H2.
  destruct (on_chunks JSON_parse st1 later) as [st2 effects2].
  by apply (tally_app _ st1).
Qed.

(** X16.  Whatever the chunks hold, after them the accumulated
    response is the text of the fragments sent to the client, in order,
    and the fragment counter is their number. *)
Theorem stream_response_is_what_was_sent (chunks : list string) :
  fullResponse (on_chunks JSON_parse initial_state chunks).1
  = emitted_text (on_chunks JSON_parse initial_state chunks).2 ∧
  chunkCount (on_chunks JSON_parse initial_state chunks).1
  = length (fragments_of (on_chunks JSON_parse initial_state chunks).2) ∧
  Forall is_text_fragment (on_chunks JSON_parse initial_state chunks).2.
Proof.
  destruct (on_chunks_tally initial_state chunks) as [R C _ T _ _ _ _].
  rewrite R, C. by rewrite string_app_nil_l.
Qed.

(** X17.  The response that is handed to [processCompletedResponse] is
    the text of the fragments sent before: nothing that the client has
    received is missing from it, and nothing else is in it. *)
Theorem completed_response_is_what_was_sent
    (chunks : list string) before response after :
  (on_chunks JSON_parse initial_state chunks).2
  = before ++ CallProcessCompletedResponse response :: after →
  response = emitted_text before.
Proof.
  intros Heq.
  destruct (on_chunks_tally initial_state chunks) as [_ _ _ _ _ _ _ Z].
  specialize (Z (length before) response). rewrite Heq in Z.
  rewrite take_app_length, string_app_nil_l in Z. apply Z.
  by rewrite list_lookup_middle.
Qed.

(** X18.  Tag extraction during a stream is rare: among the effects of
    any chunks there is at most one post for every ten fragments, each
    with a text of more than 200 characters, and none at all once the
    flag [contentExtracted] is set. *)
Theorem extraction_posts_are_rare (st : StreamState) (chunks : list string) :
  length (posts_of (on_chunks JSON_parse st chunks).2)
  ≤ chunkCount (on_chunks JSON_parse st chunks).1 / 10 - chunkCount st / 10 ∧
  Forall (λ text, 200 < String.length text)
    (posts_of (on_chunks JSON_parse st chunks).2) ∧
  (contentExtracted st = true → posts_of (on_chunks JSON_parse st chunks).2 = []).
Proof.
  destruct (on_chunks_tally st chunks) as [_ _ _ _ P PF PL _].
  split; [lia|done].
Qed.

(** *** The connection *)





(** *** Fragments and the answers that come in between *)

Lemma client_fragments_of effects :
  omap client_fragment (fragments_of effects) = omap sent_fragment effects.
Proof.
  unfold fragments_of. induction effects as [|e effects IH]; [done|].
  destruct e; csimpl; by rewrite ?IH.
Qed.

Lemma handle_record_same_but_flag st st' data :
  same_but_flag st st' →
  match handle_record st data, handle_record st' data with
  | Returns (st1, effects), Returns (st1', effects') =>
      same_but_flag st1 st1' ∧
      omap sent_fragment effects = omap sent_fragment effects'
  | Throws, Throws => True
  | _, _ => False
  end.
Proof.
  intros (Hr & Hc & Hb). unfold handle_record.
  destruct (get_field data "response") as [response|]; [|done]. simpl.
  destruct (Js.truthy response).
  - destruct (Js.toString response) as [text|]; [|done]. simpl.
    destruct (get_field data "done") as [d|]; [|done]. simpl.
    split; [unfold same_but_flag; simpl; by rewrite Hr, Hc, Hb|].
    f_equal.
    by repeat match goal with |- context [if ?b then _ else _] => destruct b end.
  - simpl. destruct (get_field data "done") as [d|]; [|done]. simpl.
    split; [done|]. by destruct (Js.truthy d).
Qed.

Lemma process_segment_same_but_flag st st' segment :
  same_but_flag st st' →
  same_but_flag (process_segment JSON_parse st segment).1
                (process_segment JSON_parse st' segment).1 ∧
  omap sent_fragment (process_segment JSON_parse st segment).2
  = omap sent_fragment (process_segment JSON_parse st' segment).2.
Proof.
  intros Hsame. unfold process_segment.
  destruct (is_empty (trim segment)); [done|].
  destruct (JSON_parse (trim segment)) as [data|]; [|done]. simpl.
  pose proof (handle_record_same_but_flag st st' data Hsame) as H.
  destruct (handle_record st data) as [[st1 effects]|],
    (handle_record st' data) as [[st1' effects']|]; done.
Qed.

Lemma scan_same_but_flag rest segment st st' :
  same_but_flag st st' →
  same_but_flag (scan JSON_parse rest segment st).1
                (scan JSON_parse rest segment st').1 ∧
  omap sent_fragment (scan JSON_parse rest segment st).2
  = omap sent_fragment (scan JSON_parse rest segment st').2.
Proof.
  revert segment st st'. induction rest as [|c r IH]; intros segment st st' Hsame.
  - rewrite !scan_nil. split; [|done]. destruct Hsame as (Hr & Hc & _).
    unfold same_but_flag. simpl. by rewrite Hr, Hc.
  - rewrite !scan_cons. destruct (Ascii.eqb c "010"); [|by apply IH].
    destruct (process_segment_same_but_flag st st' segment Hsame) as [H1 E1].
    destruct (process_segment JSON_parse st segment) as [st1 effects1],
      (process_segment JSON_parse st' segment) as [st1' effects1'].
    destruct (IH EmptyString st1 st1' H1) as [H2 E2].
    destruct (scan JSON_parse r "" st1) as [st2 effects2],
      (scan JSON_parse r "" st1') as [st2' effects2'].
    simpl in *. split; [done|]. by rewrite !omap_app, E1, E2.
Qed.

Lemma on_data_same_but_flag st st' chunk :
  same_but_flag st st' →
  same_but_flag (on_data JSON_parse st chunk).1 (on_data JSON_parse st' chunk).1 ∧
  omap sent_fragment (on_data JSON_parse st chunk).2
  = omap sent_fragment (on_data JSON_parse st' chunk).2.
Proof.
  intros Hsame. unfold on_data. destruct Hsame as (Hr & Hc & Hb).
  rewrite Hb. by apply scan_same_but_flag.
Qed.

Lemma run_fragments os c c' st :
  run JSON_parse c os = Some c' →
  same_but_flag (stream c) st →
  omap client_fragment (emitted c')
  = omap client_fragment (emitted c)
    ++ omap sent_fragment (on_chunks JSON_parse st (chunks_of os)).2 ∧
  same_but_flag (stream c') (on_chunks JSON_parse st (chunks_of os)).1.
Proof.
  revert c st. induction os as [|o os IH]; intros c st; simpl run.
  - intros [= <-] Hsame. by rewrite app_nil_r.
  - destruct (occur JSON_parse c o) as [c1|] eqn:Ho; [|done]. simpl.
    intros Hrun Hsame. destruct o as [chunk|i db|i tags]; simpl in Ho.
    + change (chunks_of (DataArrives chunk :: os)) with (chunk :: chunks_of os).
      simpl on_chunks.
      destruct (on_data_same_but_flag (stream c) st chunk Hsame) as [H1 E1].
      destruct (on_data JSON_parse (stream c) chunk) as [st1 effects1],
        (on_data JSON_parse st chunk) as [st1' effects1'].
      injection Ho as <-. simpl in *.
      destruct (IH _ st1' Hrun H1) as [E2 H2]. simpl in E2.
      destruct (on_chunks JSON_parse st1' (chunks_of os)) as [st2 effects2].
      simpl in *. split; [|done].
      by rewrite E2, !omap_app, client_fragments_of, E1, app_assoc.
    + change (chunks_of (FinalizationDone i db :: os)) with (chunks_of os).
      destruct (finalizing c !! i) as [response|]; [|done]. simpl in Ho.
      injection Ho as <-.
      destruct (IH _ st Hrun Hsame) as [E2 H2]. simpl in E2.
      split; [|done]. by rewrite E2, omap_app, app_nil_r.
    + change (chunks_of (TagsAnswered i tags :: os)) with (chunks_of os).
      destruct (extracting c !! i); [|done]. simpl in Ho.
      destruct tags as [streamTags|]; injection Ho as <-.
      * destruct (IH _ st Hrun Hsame) as [E2 H2]. simpl in E2.
        split; [|done]. by rewrite E2, omap_app, app_nil_r.
      * exact (IH _ st Hrun Hsame).
Qed.

(** X20.  The fragments that the client receives are those of the
    chunks received from upstream, all of them and in their order: the
    finalizations and the answers of the tag extraction that happen in
    between, in whatever order, remove none, add none and move none. *)
Theorem fragments_survive_interleaving (os : list Occurrence) (c : Connection) :
  run JSON_parse initial_connection os = Some c →
  omap client_fragment (emitted c)
  = omap sent_fragment (on_chunks JSON_parse initial_state (chunks_of os)).2.
Proof.
  intros Hrun.
  by destruct (run_fragments os initial_connection c initial_state Hrun) as [-> _].
Qed.

End stream_properties.

Section stream_witnesses.
Import TagUtils HashtagService Streaming StreamFacts Examples.

Lemma completed_response_is_what_was_sent_witness :
  "Hello"%string = emitted_text [EmitFragment (VStr "Hel"); EmitFragment (VStr "lo")].
Proof.
  apply (completed_response_is_what_was_sent sample_parse
           [chunk_Hel; chunk_lo; chunk_done]
           [EmitFragment (VStr "Hel"); EmitFragment (VStr "lo")] "Hello" []).
  reflexivity.
Defined.


Lemma fragments_survive_interleaving_witness :
  ∃ c,
    run sample_parse initial_connection
      [DataArrives chunk_Hel; DataArrives chunk_done; FinalizationDone 0 chain_db;
       DataArrives chunk_lo] = Some c ∧
    omap client_fragment (emitted c)
    = omap sent_fragment
        (on_chunks sample_parse initial_state
           (chunks_of [DataArrives chunk_Hel; DataArrives chunk_done;
                       FinalizationDone 0 chain_db; DataArrives chunk_lo])).2.
Proof.
  eexists. split; [reflexivity|].
  apply (fragments_survive_interleaving sample_parse
           [DataArrives chunk_Hel; DataArrives chunk_done; FinalizationDone 0 chain_db;
            DataArrives chunk_lo]).
  reflexivity.
Defined.

End stream_witnesses.

(** ** The address of a request *)

Section url_properties.
Import JsText OllamaUrl.

Lemma endsWith_app s suffix : endsWith (s +:+ suffix) suffix = true.
Proof.
  induction s as [|c r IH].
  - rewrite string_app_nil_l. destruct suffix; simpl; [done|].
    by rewrite Ascii.eqb_refl, String.eqb_refl.
  - rewrite string_app_cons. simpl. by rewrite IH, orb_true_r.
Qed.

Lemma endsWith_last s c d :
  endsWith (s +:+ String c EmptyString) (String d EmptyString) = Ascii.eqb c d.
Proof.
  induction s as [|a r IH].
  - simpl. by destruct (Ascii.eqb c d).
  - rewrite string_app_cons. simpl. rewrite IH.
    destruct (r +:+ String c "") eqn:Hr.
    + by destruct r.
    + by destruct (Ascii.eqb a d).
Qed.

Lemma drop_last_app s c : drop_last (s +:+ String c EmptyString) = s.
Proof.
  induction s as [|a r IH]; [done|]. rewrite string_app_cons. simpl.
  destruct (r +:+ String c "") eqn:Hr; [by destruct r|]. by rewrite IH.
Qed.

(** X21.  The address that [makeOllamaRequest] builds: a base address
    that ends in [/api] and an endpoint that starts with [api/] give one
    [/api/], not two; and one slash at the end of the base address makes
    no difference. *)
Theorem fullUrl_joins_once :
  (∀ root path,
     fullUrl (root +:+ "/api") ("api/" +:+ path) = root +:+ "/api/" +:+ path) ∧
  (∀ base endpoint,
     endsWith base "/" = false →
     fullUrl (base +:+ "/") endpoint = fullUrl base endpoint).
Proof.
  split.
  - intros root path. unfold fullUrl.
    assert (endsWith (root +:+ "/api") "/" = false) as ->.
    { change (root +:+ "/api") with (root +:+ ("/ap" +:+ "i")).
      rewrite <- string_app_assoc. by rewrite endsWith_last. }
    cbv zeta. rewrite endsWith_app.
    assert (startsWith ("api/" +:+ path) "api/" = true) as -> by reflexivity.
    assert (substring_from 4 ("api/" +:+ path) = path) as -> by reflexivity.
    simpl andb. cbv iota. by rewrite !string_app_assoc.
  - intros base endpoint Hbase. unfold fullUrl.
    rewrite endsWith_last, Ascii.eqb_refl, drop_last_app, Hbase. done.
Qed.

End url_properties.

(** ** Blocking a tag and resolving it *)

Section block_properties.
Import TagUtils ResolverSpec BlockList Examples.

Lemma trimEnd_nonspace c r :
  is_space c = false → trimEnd (String c r) = String c (trimEnd r).
Proof. intros Hc. rewrite trimEnd_cons, Hc. by destruct (trimEnd r). Qed.

Lemma trimStart_trimEnd s : trimStart (trimEnd s) = trimEnd (trimStart s).
Proof.
  induction s as [|a r IH]; [done|].
  destruct (is_space a) eqn:Ha.
  - change (trimStart (String a r)) with (if is_space a then trimStart r else String a r).
    rewrite Ha, <- IH, trimEnd_cons, Ha.
    destruct (trimEnd r) as [|b r'] eqn:Hr; [done|].
    change (trimStart (String a (String b r')))
      with (if is_space a then trimStart (String b r') else String a (String b r')).
    by rewrite Ha.
  - rewrite trimStart_fixed by done. rewrite trimEnd_nonspace by done.
    by rewrite trimStart_fixed.
Qed.

Lemma trim_trimEnd s : trim (trimEnd s) = trim s.
Proof. unfold trim. by rewrite trimStart_trimEnd, trimEnd_idem. Qed.

(** The name that [blockTag] stores for a tag without white space in
    front is the name under which the resolver looks the tag up. *)
Lemma blockTag_name_is_cleanTag tagName :
  trimStart tagName = tagName →
  trim (toLowerCase (strip_hash tagName)) ≠ EmptyString →
  longer_than_1 (ensure_hash (trim tagName)) = true ∧
  cleanTag_of (ensure_hash (trim tagName)) = trim (toLowerCase (strip_hash tagName)).
Proof.
  intros Hstart Hne. destruct tagName as [|c r]; [done|].
  assert (is_space c = false) as Hc.
  { destruct (trimStart_head (String c r)) as [H|(c' & r' & H & Hc')];
      rewrite Hstart in H; [done|]. by injection H as -> ->. }
  assert (trim (String c r) = String c (trimEnd r)) as ->.
  { unfold trim. by rewrite Hstart, trimEnd_nonspace. }
  unfold ensure_hash, startsWith_hash, cleanTag_of.
  rewrite <- !toLowerCase_trim in *.
  destruct (Ascii.eqb c "#") eqn:Hhash.
  - apply Ascii.eqb_eq in Hhash as ->. simpl strip_hash in *.
    rewrite trim_trimEnd. split; [|done].
    destruct (trimEnd r) eqn:Hr; [|done].
    rewrite <- trim_trimEnd, Hr in Hne. done.
  - split; [done|]. change (strip_hash ("#" +:+ String c (trimEnd r)))
      with (String c (trimEnd r)).
    unfold strip_hash. rewrite Hhash.
    rewrite <- (trimEnd_nonspace c r) by done. by rewrite trim_trimEnd.
Qed.

(** X22.  A tag that [blockTag] has stored is blocked for the
    resolver: given a tag without white space in front, once the block
    list holds the name that [blockTag] wrote for it, the resolver finds
    the tag blocked and, asked for it alone, answers with the default
    tag. *)
Theorem blocked_tag_is_dropped
    (query : Insertion → completion unit) (tagName : string) (reason : JSValue)
    (insertion : Insertion) (db : Database) rows synonymRows :
  blockTag query tagName reason = ([insertion], true) →
  trimStart tagName = tagName →
  blocked_tags db = Returns rows →
  tag_name insertion ∈ rows →
  tag_synonyms db = Returns synonymRows →
  includes (blockedTags rows) (cleanTag_of (ensure_hash (trim tagName))) = true ∧
  processHashtags db (VArr [VStr tagName]) = Returns [VStr "#conversation"].
Proof.
  unfold blockTag. intros Hblock Hstart Hb Hrow Hs.
  destruct (is_empty (trim (toLowerCase (strip_hash tagName)))) eqn:Hne; [done|].
  apply is_empty_false in Hne.
  destruct (query _); [|done]. injection Hblock as <-. simpl in Hrow.
  destruct (blockTag_name_is_cleanTag tagName Hstart Hne) as [Hlen Hclean].
  assert (includes (blockedTags rows) (cleanTag_of (ensure_hash (trim tagName))) = true)
    as Hblocked.
  { apply includes_true. rewrite Hclean. unfold blockedTags.
    apply list_elem_of_fmap. eexists. split; [|exact Hrow].
    by rewrite toLowerCase_trim, toLowerCase_idem. }
  split; [done|].
  change (VArr [VStr tagName]) with (VArr (VStr <$> [tagName])).
  rewrite processHashtags_strings, Hb, Hs. cbv zeta.
  change ((λ s, ensure_hash (trim s)) <$> [tagName]) with [ensure_hash (trim tagName)].
  rewrite filter_cons_True by (by apply Is_true_true_2). rewrite filter_nil.
  unfold resolve_once.
  rewrite filter_cons_False by (cbv beta; rewrite Hblocked; discriminate).
  by rewrite filter_nil.
Qed.

Lemma blocked_tag_is_dropped_witness :
  includes (blockedTags ["spam"; "crypto"]%string)
    (cleanTag_of (ensure_hash (trim "#Crypto "))) = true ∧
  processHashtags
    {| blocked_tags := Returns ["spam"; "crypto"]%string;
       tag_synonyms := Returns [];
       getBlockedTags := ["spam"; "crypto"]%string |}
    (VArr [VStr "#Crypto "]) = Returns [VStr "#conversation"].
Proof.
  apply (blocked_tag_is_dropped (λ _, Returns ()) "#Crypto " VUndefined
           {| tag_name := "crypto"; reason := VStr "user" |}
           {| blocked_tags := Returns ["spam"; "crypto"]%string;
              tag_synonyms := Returns [];
              getBlockedTags := ["spam"; "crypto"]%string |}
           ["spam"; "crypto"]%string []);
    [reflexivity | reflexivity | reflexivity | | reflexivity].
  apply includes_true. reflexivity.
Defined.

End block_properties.

(** ** The tags of a message: adding and removing *)

Section endpoint_properties.
Import TagUtils HashtagService TagEndpoints.
Variable JSON_parse : string → completion JSValue.
Variable JSON_stringify : JSValue → string.

(** When no element equals the tag, every element is a string. *)
Lemma some_equal_false items normalizedTag :
  some_equal items normalizedTag = Returns false →
  ∃ existing,
    items = VStr <$> existing ∧ normalizedTag ∉ (toLowerCase <$> existing).
Proof.
  induction items as [|v items IH]; simpl.
  - intros _. exists []. split; [done|]. apply not_elem_of_nil.
  - destruct v as [| |b|r|t|l|props]; try done.
    destruct (String.eqb (toLowerCase t) normalizedTag) eqn:Heq; [done|].
    intros (existing & -> & Hnot)%IH. exists (t :: existing). split; [done|].
    rewrite fmap_cons. apply not_elem_of_cons. split; [|done].
    intros ->. by rewrite String.eqb_refl in Heq.
Qed.

Lemma fmap_VStr_inj (l k : list string) : VStr <$> l = VStr <$> k → l = k.
Proof.
  revert k. induction l as [|x l IH]; intros [|y k]; try done.
  rewrite !fmap_cons. intros [= -> Hlk]. f_equal. by apply IH.
Qed.

Lemma strip_hash_ensure_hash s : strip_hash (ensure_hash s) = strip_hash s.
Proof.
  unfold ensure_hash. destruct (startsWith_hash s) eqn:Hs; [done|].
  destruct s as [|c r]; [done|]. simpl in Hs. simpl. by rewrite Hs.
Qed.

Lemma add_tag_shape
    (store : Store) (body : Body) (updates : list Update) (tags : list JSValue) :
  add_tag JSON_parse JSON_stringify store body = (updates, Added tags) →
  Js.truthy (tag body) = true ∧
  Js.truthy (messageId body) = true ∧
  ∃ s existing,
    tag body = VStr s ∧
    tags = (VStr <$> existing) ++ [VStr (ensure_hash (trim s))] ∧
    (toLowerCase (ensure_hash (trim s)) ∉ (toLowerCase <$> existing)) ∧
    blocked_rows store (toLowerCase (strip_hash (ensure_hash (trim s)))) = Returns 0 ∧
    shouldExcludeWord (toLowerCase (strip_hash (ensure_hash (trim s)))) = false ∧
    updates = [UpdateResponses (JSON_stringify (VArr tags)) (messageId body);
               UpdateLog (JSON_stringify (VArr tags)) (messageId body)].
Proof.
  unfold add_tag. destruct (Js.truthy (tag body)) eqn:Htruthy; [|done].
  destruct (Js.truthy (messageId body)); [|done]. simpl orb. cbv iota.
  destruct (tag body) as [| |b|r|s|l|props]; try done. cbv zeta.
  destruct (blocked_rows store _) as [n|] eqn:Hblocked; [|done].
  destruct (0 <? n)%nat eqn:Hn; [done|]. apply Nat.ltb_ge in Hn.
  destruct (shouldExcludeWord _) eqn:Hex; [done|].
  destruct (response_rows store (messageId body)) as [[|column rows]|]; try done.
  destruct (existing_tags_to_add JSON_parse column) as [| | | | |items|]; try done.
  destruct (some_equal items _) as [[|]|] eqn:Hsome; try done.
  apply some_equal_false in Hsome as (existing & -> & Hnot).
  destruct (update store _); [|done]. destruct (update store _); [|done].
  intros [= <- <-]. split; [done|]. split; [done|]. exists s, existing.
  repeat split; try done. rewrite Hblocked. f_equal. lia.
Qed.

(** X23.  When [/api/add-tag] answers that the tag was added, the new
    list is the stored list, all of whose elements are strings, with the
    formatted tag at its end; the tag is neither blocked nor excluded as
    a common word, and differs from every stored tag even without regard
    to case, so that a list without such duplicates stays without them;
    and both tables are given that same list. *)
Theorem add_tag_appends_new_tag
    (store : Store) (body : Body) (updates : list Update) (tags : list JSValue) :
  add_tag JSON_parse JSON_stringify store body = (updates, Added tags) →
  ∃ s existing,
    tag body = VStr s ∧
    tags = (VStr <$> existing) ++ [VStr (ensure_hash (trim s))] ∧
    blocked_rows store (toLowerCase (strip_hash (ensure_hash (trim s)))) = Returns 0 ∧
    shouldExcludeWord (toLowerCase (strip_hash (ensure_hash (trim s)))) = false ∧
    (toLowerCase (ensure_hash (trim s)) ∉ (toLowerCase <$> existing)) ∧
    (NoDup (toLowerCase <$> existing) →
     NoDup (toLowerCase <$> (existing ++ [ensure_hash (trim s)]))) ∧
    updates = [UpdateResponses (JSON_stringify (VArr tags)) (messageId body);
               UpdateLog (JSON_stringify (VArr tags)) (messageId body)].
Proof.
  intros (_ & _ & s & existing & Htag & Htags & Hnot & Hblocked & Hex & Hup)%add_tag_shape.
  exists s, existing. repeat split; try done.
  intros Hdup. rewrite fmap_app. apply NoDup_app. split; [done|]. split.
  - intros x Hx [->|[]%elem_of_nil]%elem_of_cons. by apply Hnot.
  - apply NoDup_singleton.
Qed.

(** X24.  [/api/remove-tag] undoes [/api/add-tag]: when a trimmed tag
    has been added to a stored list whose tags all start with [#], and
    the list written is the list read back, removing that tag writes the
    stored list as it was. *)
Theorem remove_tag_undoes_add_tag
    (store store' : Store) (body : Body) (updates : list Update)
    (tags : list JSValue) (s : string) (existing : list string) :
  add_tag JSON_parse JSON_stringify store body = (updates, Added tags) →
  tag body = VStr s →
  trim s = s →
  tags = (VStr <$> existing) ++ [VStr (ensure_hash s)] →
  Forall (λ t, startsWith_hash t = true) existing →
  Js.truthy (sessionId body) = true →
  response_rows store' (messageId body) = Returns [Some (JSON_stringify (VArr tags))] →
  JSON_stringify (VArr tags) ≠ EmptyString →
  JSON_parse (JSON_stringify (VArr tags)) = Returns (VArr tags) →
  ∃ reply,
    remove_tag JSON_parse JSON_stringify store' body
    = ([UpdateResponses (JSON_stringify (VArr (VStr <$> existing))) (messageId body)],
       reply) ∧
    (reply = Removed (VStr <$> existing) ∨ reply = RemoveError).
Proof.
  intros Hadd Htag Htrim Htags Hhash Hsession Hrows Hne Hparse.
  destruct (add_tag_shape store body updates tags Hadd)
    as (Ht & Hm & s' & existing' & Htag' & Htags' & Hnot & _).
  rewrite Htag in Htag', Ht. injection Htag' as <-. rewrite Htrim in *.
  rewrite Htags in Htags'. apply app_inj_2 in Htags' as [Hex _]; [|done].
  apply fmap_VStr_inj in Hex as <-.
  unfold remove_tag. rewrite Hsession, Hm, Htag, Ht, Hrows. simpl negb. simpl orb.
  cbv iota. unfold existing_tags_to_remove.
  apply is_empty_false in Hne. rewrite Hne, Hparse. cbv zeta.
  assert (filter_others tags (toLowerCase (strip_hash s))
          = Returns (VStr <$> existing)) as ->.
  { rewrite Htags. clear -Hhash Hnot.
    induction existing as [|t existing IH].
    - simpl. by rewrite strip_hash_ensure_hash, String.eqb_refl.
    - apply Forall_cons in Hhash as [Ht Hhash]. rewrite fmap_cons in Hnot.
      apply not_elem_of_cons in Hnot as [Hne Hnot].
      rewrite fmap_cons. simpl. rewrite IH by done. simpl.
      destruct (String.eqb (toLowerCase (strip_hash t)) (toLowerCase (strip_hash s)))
        eqn:Heq; [|done].
      apply String.eqb_eq in Heq. destruct Hne.
      destruct t as [|c r]; [done|]. simpl in Ht. apply Ascii.eqb_eq in Ht as ->.
      simpl in Heq. rewrite <- strip_hash_ensure_hash in Heq.
      unfold ensure_hash in *. destruct (startsWith_hash s) eqn:Hs.
      + destruct s as [|c' r']; [done|]. simpl in Hs. apply Ascii.eqb_eq in Hs as ->.
        simpl in Heq. simpl. by rewrite Heq.
      + change (strip_hash ("#" +:+ s)) with s in Heq.
        change (toLowerCase ("#" +:+ s)) with (String "#" (toLowerCase s)).
        simpl. by rewrite Heq. }
  destruct (update store' _).
  - eexists. split; [done|]. by left.
  - eexists. split; [done|]. by right.
Qed.

End endpoint_properties.

Section endpoint_witnesses.
Import TagUtils HashtagService TagEndpoints EndpointExamples.

Lemma add_tag_appends_new_tag_witness :
  ∃ s existing,
    tag add_go = VStr s ∧
    written_tags = (VStr <$> existing) ++ [VStr (ensure_hash (trim s))] ∧
    blocked_rows store_before (toLowerCase (strip_hash (ensure_hash (trim s))))
    = Returns 0 ∧
    shouldExcludeWord (toLowerCase (strip_hash (ensure_hash (trim s)))) = false ∧
    (toLowerCase (ensure_hash (trim s)) ∉ (toLowerCase <$> existing)) ∧
    (NoDup (toLowerCase <$> existing) →
     NoDup (toLowerCase <$> (existing ++ [ensure_hash (trim s)]))) ∧
    [UpdateResponses (tags_stringify (VArr written_tags)) (VStr "m-1");
     UpdateLog (tags_stringify (VArr written_tags)) (VStr "m-1")]
    = [UpdateResponses (tags_stringify (VArr written_tags)) (messageId add_go);
       UpdateLog (tags_stringify (VArr written_tags)) (messageId add_go)].
Proof.
  apply (add_tag_appends_new_tag tags_parse tags_stringify store_before add_go
           [UpdateResponses (tags_stringify (VArr written_tags)) (VStr "m-1");
            UpdateLog (tags_stringify (VArr written_tags)) (VStr "m-1")]
           written_tags).
  reflexivity.
Defined.

Lemma remove_tag_undoes_add_tag_witness :
  ∃ reply,
    remove_tag tags_parse tags_stringify store_after add_go
    = ([UpdateResponses (tags_stringify (VArr (VStr <$> ["#rust"%string])))
          (messageId add_go)], reply) ∧
    (reply = Removed (VStr <$> ["#rust"%string]) ∨ reply = RemoveError).
Proof.
  apply (remove_tag_undoes_add_tag tags_parse tags_stringify store_before store_after
           add_go
           [UpdateResponses (tags_stringify (VArr written_tags)) (VStr "m-1");
            UpdateLog (tags_stringify (VArr written_tags)) (VStr "m-1")]
           written_tags "go-lang" ["#rust"%string]);
    try reflexivity.
  - by repeat constructor.
  - discriminate.
Defined.

End endpoint_witnesses.

(** ** Related conversations *)

Section related_properties.
Import RelatedConversations.

Lemma visit_bounded store limit p row :
  length (relatedMessages p) ≤ limit →
  Forall (λ r, userMessage r ≠ EmptyString ∧ assistantResponse r ≠ EmptyString)
    (relatedMessages p) →
  length (relatedMessages (visit store limit p row)) ≤ limit ∧
  Forall (λ r, userMessage r ≠ EmptyString ∧ assistantResponse r ≠ EmptyString)
    (relatedMessages (visit store limit p row)).
Proof.
  intros Hlen Hall. unfold visit. destruct (failed p); [done|].
  destruct (bool_decide _); [done|]. simpl orb.
  destruct (limit <=? length (relatedMessages p))%nat eqn:Hfull; [done|].
  apply Nat.leb_gt in Hfull.
  destruct (relevant_content store row) as [[found|]|]; simpl; try done.
  destruct (negb (is_empty (userMessage found))
            && negb (is_empty (assistantResponse found))) eqn:Hboth; [|done].
  apply andb_true_iff in Hboth as [Hu Ha].
  apply negb_true_iff, is_empty_false in Hu, Ha.
  split; [rewrite length_app; simpl; lia|].
  apply Forall_app. split; [done|]. by repeat constructor.
Qed.

(** X25.  [findRelatedConversation] returns at most [limit]
    conversations, whatever the tags and whatever the database answers,
    and each of them has a user message and an assistant response that
    are not empty. *)
Theorem findRelatedConversation_bounded
    (store : Store) (userHashtags : list JSValue) (session : JSValue) (limit : nat) :
  length (findRelatedConversation store userHashtags session limit).2 ≤ limit ∧
  Forall (λ r, userMessage r ≠ EmptyString ∧ assistantResponse r ≠ EmptyString)
    (findRelatedConversation store userHashtags session limit).2.
Proof.
  assert (0 ≤ limit) as H0 by lia.
  unfold findRelatedConversation.
  destruct userHashtags as [|tag later]; [done|].
  destruct (tag_params (tag :: later)) as [[|param tagParams]|]; try done.
  cbv zeta. destruct (search store _) as [rows|]; [|done].
  set (start := {| relatedMessages := []; processedMessageIds := ∅;
                   issued := _; failed := false |}).
  assert (length (relatedMessages start) ≤ limit ∧
          Forall (λ r, userMessage r ≠ EmptyString ∧ assistantResponse r ≠ EmptyString)
            (relatedMessages start)) as Hstart by done.
  clearbody start. revert start Hstart.
  induction rows as [|row rows IH]; intros start [Hlen Hall]; simpl.
  - by destruct (failed start).
  - apply IH. by apply visit_bounded.
Qed.

Lemma tag_params_short userHashtags :
  Forall (λ tag, Js.truthy tag = false ∨
                 ∃ s, tag = VStr s ∧
                      String.length (trim (toLowerCase (strip_hash s))) < 3)
    userHashtags →
  tag_params userHashtags = Returns [].
Proof.
  induction 1 as [|tag later Htag Hlater IH]; [done|]. simpl.
  destruct Htag as [->|(s & -> & Hs)]; [done|].
  destruct (negb (Js.truthy (VStr s))); [done|].
  apply Nat.ltb_lt in Hs. by rewrite Hs.
Qed.

(** X26.  Tags of fewer than three characters never reach the
    database: when every tag is falsy, or a string whose name (one [#]
    removed, lower case, trimmed) has fewer than three characters,
    [findRelatedConversation] issues no query and returns nothing. *)
Theorem findRelatedConversation_short_tags
    (store : Store) (userHashtags : list JSValue) (session : JSValue) (limit : nat) :
  Forall (λ tag, Js.truthy tag = false ∨
                 ∃ s, tag = VStr s ∧
                      String.length (trim (toLowerCase (strip_hash s))) < 3)
    userHashtags →
  findRelatedConversation store userHashtags session limit = ([], []).
Proof.
  intros Hshort. unfold findRelatedConversation.
  destruct userHashtags as [|tag later]; [done|].
  by rewrite tag_params_short.
Qed.

Lemma findRelatedConversation_short_tags_witness :
  findRelatedConversation
    {| search := λ _, Throws; response_of := λ _, Throws;
       preceding_user := λ _ _, Throws; toISOString := λ _, Throws |}
    [VStr "#ai"; VNull; VStr " Go "] (VStr "s-1") 3 = ([], []).
Proof.
  apply (findRelatedConversation_short_tags
           {| search := λ _, Throws; response_of := λ _, Throws;
              preceding_user := λ _ _, Throws; toISOString := λ _, Throws |}
           [VStr "#ai"; VNull; VStr " Go "] (VStr "s-1") 3).
  constructor; [|constructor; [|constructor; [|constructor]]].
  - right. exists "#ai"%string. split; [reflexivity|]. vm_compute. lia.
  - left. reflexivity.
  - right. exists " Go "%string. split; [reflexivity|]. vm_compute. lia.
Defined.

End related_properties.

(** ** Messages by tag *)

Section messages_by_tag_properties.
Import JsText MessagesByTag.
Variable JSON_parse : string → completion JSValue.
Variable store : Store.

Lemma string_length_app (a b : string) :
  String.length (a +:+ b) = String.length a + String.length b.
Proof.
  induction a as [|c a IH]; [by rewrite string_app_nil_l|].
  rewrite string_app_cons. simpl. by rewrite IH.
Qed.

Lemma substring_to_length n s : String.length (substring_to n s) ≤ n.
Proof.
  revert s. induction n as [|n IH]; intros [|c r]; simpl; try lia.
  specialize (IH r). lia.
Qed.

Lemma substring_to_all n s : String.length s ≤ n → substring_to n s = s.
Proof.
  revert s. induction n as [|n IH]; intros [|c r]; simpl; try done; try lia.
  intros Hlen. rewrite IH; [done|lia].
Qed.

Lemma substring_to_from n s : s = substring_to n s +:+ substring_from n s.
Proof.
  revert s. induction n as [|n IH]; intros [|c r]; try done.
  simpl substring_to. simpl substring_from. rewrite string_app_cons. by rewrite <- IH.
Qed.

Lemma shorten_spec content :
  String.length (shorten content) ≤ 153 ∧
  (String.length content ≤ 150 → shorten content = content) ∧
  (150 < String.length content →
   shorten content = substring_to 150 content +:+ "...") ∧
  ∃ rest, content = substring_to 150 content +:+ rest.
Proof.
  unfold shorten. pose proof (substring_to_length 150 content) as Hlen.
  split; [|split; [|split]].
  - rewrite string_length_app. destruct (150 <? String.length content)%nat.
    + change (String.length "...") with 3. lia.
    + change (String.length "") with 0. lia.
  - intros Hshort. apply Nat.ltb_ge in Hshort as Hlt. rewrite Hlt.
    by rewrite string_app_nil_r, substring_to_all.
  - intros Hlong. apply Nat.ltb_lt in Hlong. by rewrite Hlong.
  - exists (substring_from 150 content). apply substring_to_from.
Qed.

Lemma found_of_fields row r :
  found_of JSON_parse store row = Returns r →
  messageId r = message_id row ∧ sessionId r = session_id row ∧
  found_content r = content row ∧ snippet r = shorten (content row).
Proof.
  unfold found_of. intros (text & _ & [= <-])%cbind_returns. done.
Qed.

(** X27.  [findMessagesByTag] asks nothing of a tag whose name has
    fewer than two characters; otherwise it answers with one result for
    each row found, in order, or with nothing at all; and the snippet of
    a result is its content when that has at most 150 characters, and
    its first 150 characters followed by three dots when it has more:
    at most 153 characters. *)
Theorem findMessagesByTag_results (tag : string) (limit : nat) :
  (String.length (toLowerCase (strip_hash tag)) < 2 →
   findMessagesByTag JSON_parse store tag limit = []) ∧
  (findMessagesByTag JSON_parse store tag limit = [] ∨
   ∃ rows,
     search store ("#" +:+ toLowerCase (strip_hash tag)) (toLowerCase (strip_hash tag)) limit
     = Returns rows ∧
     Forall2 (λ row r, messageId r = message_id row ∧ sessionId r = session_id row ∧
                       found_content r = content row)
       rows (findMessagesByTag JSON_parse store tag limit)) ∧
  Forall (λ r,
            String.length (snippet r) ≤ 153 ∧
            (String.length (found_content r) ≤ 150 → snippet r = found_content r) ∧
            (150 < String.length (found_content r) →
             snippet r = substring_to 150 (found_content r) +:+ "..."))
    (findMessagesByTag JSON_parse store tag limit).
Proof.
  unfold findMessagesByTag. cbv zeta.
  destruct (String.length (toLowerCase (strip_hash tag)) <? 2)%nat eqn:Hshort.
  { split; [done|]. split; [by left|constructor]. }
  apply Nat.ltb_ge in Hshort. split; [lia|].
  destruct (search store _ _ limit) as [rows|]; [|split; [by left|constructor]].
  destruct (cmapM (found_of JSON_parse store) rows) as [results|] eqn:Hmap;
    [|split; [by left|constructor]].
  apply cmapM_returns_Forall2 in Hmap. split.
  - right. exists rows. split; [done|].
    eapply Forall2_impl; [exact Hmap|]. intros row r Hr.
    by destruct (found_of_fields row r Hr) as (? & ? & ? & _).
  - clear Hshort. induction Hmap as [|row r rows results Hr _ IH]; constructor; [|done].
    destruct (found_of_fields row r Hr) as (_ & _ & -> & ->).
    by destruct (shorten_spec (content row)) as (? & ? & ? & _).
Qed.

End messages_by_tag_properties.

(** ** Two ways to remove a tag *)

Section removal_properties.
Import TagUtils TagEndpoints.
Variable JSON_parse : string → completion JSValue.
Variable JSON_stringify : JSValue → string.

Lemma toLowerCase_hash_cons x : toLowerCase (String "#" x) = String "#" (toLowerCase x).
Proof. reflexivity. Qed.

Lemma toLowerCase_no_hash s :
  startsWith_hash s = false → startsWith_hash (toLowerCase s) = false.
Proof.
  destruct s as [|c r]; [done|]. simpl. apply lower_char_not_hash.
Qed.

(** On tags that start with [#], the test of [removeTagFromMessage]
    keeps what the test of [/api/remove-tag] keeps. *)
Lemma filters_agree (existing : list string) (s : string) :
  Forall (λ t, startsWith_hash t = true) existing →
  MessageTags.filter_unequal (VStr <$> existing) (ensure_hash s) s
  = filter_others (VStr <$> existing) (toLowerCase (strip_hash s)).
Proof.
  induction 1 as [|t existing Ht _ IH]; [done|].
  rewrite fmap_cons. simpl. rewrite IH.
  destruct (filter_others (VStr <$> existing) _) as [kept|]; [|done]. simpl. f_equal.
  destruct t as [|c x]; [done|]. simpl in Ht. apply Ascii.eqb_eq in Ht as ->.
  rewrite toLowerCase_hash_cons. change (strip_hash (String "#" x)) with x.
  unfold ensure_hash. destruct (startsWith_hash s) eqn:Hs.
  - destruct s as [|c y]; [done|]. simpl in Hs. apply Ascii.eqb_eq in Hs as ->.
    rewrite toLowerCase_hash_cons. change (strip_hash (String "#" y)) with y.
    simpl String.eqb. by destruct (String.eqb (toLowerCase x) (toLowerCase y)).
  - change (toLowerCase ("#" +:+ s)) with (String "#" (toLowerCase s)).
    assert (strip_hash s = s) as ->.
    { destruct s as [|c y]; [done|]. simpl in *. by rewrite Hs. }
    assert (String.eqb (String "#" (toLowerCase x)) (toLowerCase s) = false) as ->.
    { apply toLowerCase_no_hash in Hs. destruct (toLowerCase s) as [|c y]; [done|].
      unfold startsWith_hash in Hs.
      change (String.eqb (String "#" (toLowerCase x)) (String c y))
        with (if Ascii.eqb "#" c then String.eqb (toLowerCase x) y else false).
      by rewrite Ascii.eqb_sym, Hs. }
    simpl String.eqb. by destruct (String.eqb (toLowerCase x) (toLowerCase s)).
Qed.

(** X28.  The two ways to remove a tag from an assistant message
    agree on well-formed lists: when the row of the message holds a list
    of strings that all start with [#], [db.removeTagFromMessage] and
    [POST /api/remove-tag] write the same list to [ollama_responses]. *)
Theorem removals_agree
    (store : Store) (dbStore : MessageTags.Store) (body : Body)
    (s text : string) (existing : list string) :
  tag body = VStr s →
  Js.truthy (tag body) = true →
  Js.truthy (messageId body) = true →
  Js.truthy (sessionId body) = true →
  response_rows store (messageId body) = Returns [Some text] →
  MessageTags.tags_of dbStore MessageTags.OllamaResponses (messageId body)
  = Returns [Some text] →
  text ≠ EmptyString →
  JSON_parse text = Returns (VArr (VStr <$> existing)) →
  Forall (λ t, startsWith_hash t = true) existing →
  ∃ updatedTags,
    (remove_tag JSON_parse JSON_stringify store body).1
    = [UpdateResponses (JSON_stringify (VArr updatedTags)) (messageId body)] ∧
    (MessageTags.removeTagFromMessage JSON_parse JSON_stringify dbStore
       (messageId body) (tag body)).1
    = [(MessageTags.OllamaResponses, JSON_stringify (VArr updatedTags))].
Proof.
  intros Htag Ht Hm Hs Hrows Hdb Hne Hparse Hhash.
  apply is_empty_false in Hne.
  unfold remove_tag, MessageTags.removeTagFromMessage, MessageTags.remove_from,
    MessageTags.current_tags, existing_tags_to_remove.
  rewrite Ht, Hm, Hs, Hrows, Hdb, Htag, Hne, Hparse. simpl negb. simpl orb.
  cbv iota zeta. rewrite filters_agree by done.
  assert (∃ kept, filter_others (VStr <$> existing) (toLowerCase (strip_hash s))
                  = Returns kept) as [kept ->].
  { clear. induction existing as [|t existing [kept IH]]; [by eexists|].
    rewrite fmap_cons. simpl. rewrite IH. simpl. by eexists. }
  exists kept. split.
  - by destruct (update store _).
  - by destruct (MessageTags.write_tags dbStore _ _ _).
Qed.

End removal_properties.

Section removal_witnesses.
Import TagUtils TagEndpoints EndpointExamples RemovalExamples.

Lemma removals_agree_witness :
  ∃ updatedTags,
    (remove_tag tags_parse tags_stringify store_after add_go).1
    = [UpdateResponses (tags_stringify (VArr updatedTags)) (messageId add_go)] ∧
    (MessageTags.removeTagFromMessage tags_parse tags_stringify message_store_after
       (messageId add_go) (tag add_go)).1
    = [(MessageTags.OllamaResponses, tags_stringify (VArr updatedTags))].
Proof.
  apply (removals_agree tags_parse tags_stringify store_after message_store_after
           add_go "go-lang" (tags_stringify (VArr written_tags))
           ["#rust"; "#go-lang"]%string);
    try reflexivity.
  - discriminate.
  - by repeat constructor.
Defined.

End removal_witnesses.
